(** * Distance Vector Routing: a shallow embedding of
      [distance_vector_routing.py] and the properties of its relaxation
      step, its round loop and its convergence driver.

    Modelling choices.
    - Python [dict]s keep insertion order and the round loop iterates over
      them, so a dict is an association list with unique keys: assigning to
      a present key replaces the value in place, assigning to an absent key
      appends at the end.
    - Costs are Python numbers: an [int] (unbounded, [Z]) or a [float] (IEEE
      754 binary64, the [spec_float] of the standard library with precision
      53 and maximal exponent 1024).  [main] passes ints; the self cost that
      [add_neighbor] writes is the float [0.0].  [+] on two ints is exact;
      [+] on an int and a float first converts the int to the nearest float
      (ties to even), raising [OverflowError] when the int is too large,
      and then adds two floats with rounding.  [<] compares exact values,
      also between an int and a float, and is false when a side is a NaN.
    - A failing subscript ([d[k]] with [k] absent) raises [KeyError]; the
      mutations made before an exception stay in the state.
    - A [Router] object is reached only through [Network.routers], under the
      key it was created with; mutating the object is modelled by storing
      the new value under that key.
    - [visualize_network] is modelled by the exception it raises:
      [draw_networkx_nodes] looks up a position for every node of the graph
      in a layout that only places A to F, and raises [NetworkXError] for
      the first node without one.  The nodes of the graph are the keys of
      [routers], in the same order ([add_router] adds the node, and
      [add_edge] is only reached when both ends are routers).  The window
      that [matplotlib] shows and [time.sleep] are left out; [print] calls
      are kept as a log of output events. *)

From Stdlib Require Import List String Ascii ZArith QArith Bool Lia.
From Stdlib Require Import Permutation Sorted ListDec.
From Stdlib Require Import SpecFloat.
Import ListNotations.
Local Open Scope string_scope.
Local Open Scope list_scope.
Local Open Scope Z_scope.

Set Warnings "-notation-for-abbreviation".

(** ** Insertion-ordered dictionaries *)

Module Dict.

Definition t (V : Type) : Type := list (string * V).

Definition empty {V : Type} : t V := [].

(** [d.get(k)]: the value bound to [k], if any. *)
Fixpoint get {V : Type} (k : string) (d : t V) : option V :=
  match d with
  | [] => None
  | (k', v) :: d' => if String.eqb k k' then Some v else get k d'
  end.

(** [k in d] *)
Definition mem {V : Type} (k : string) (d : t V) : bool :=
  match get k d with Some _ => true | None => false end.

(** [d[k] = v] *)
Fixpoint set {V : Type} (k : string) (v : V) (d : t V) : t V :=
  match d with
  | [] => [(k, v)]
  | (k', v') :: d' =>
      if String.eqb k k' then (k', v) :: d' else (k', v') :: set k v d'
  end.

(** [list(d)]: the keys in insertion order. *)
Definition keys {V : Type} (d : t V) : list string := map fst d.

(** [list(d.values())] *)
Definition values {V : Type} (d : t V) : list V := map snd d.

(** Well-formed dictionaries bind each key once. *)
Definition wf {V : Type} (d : t V) : Prop := NoDup (keys d).

End Dict.

(** ** Exceptions *)

(** The exceptions the program can raise: a failing subscript, an int too
    large to convert to a float, a node without a position in the
    drawing. *)
Inductive exn : Type :=
| KeyError (k : string)
| OverflowError
| NetworkXError (node : string).

(** What a call gives back: a value, or a raised exception. *)
Inductive result (A : Type) : Type :=
| Ok (a : A)
| Raise (e : exn).

Arguments Ok {A} a.
Arguments Raise {A} e.

(** ** Python numbers *)

(** The parameters of binary64. *)
Definition prec : Z := 53.
Definition emax : Z := 1024.

(** A cost: an [int] or a [float]. *)
Inductive num : Type :=
| Int (z : Z)
| Float (f : spec_float).

(** The float [0.0]. *)
Definition zero : num := Float (S754_zero false).

(** [float(z)] for an int [z]: the nearest float, ties to even;
    [OverflowError] when that would be an infinity. *)
Definition float_of_int (z : Z) : result spec_float :=
  match binary_normalize prec emax z 0 false with
  | S754_infinity _ => Raise OverflowError
  | f => Ok f
  end.

(** [a + b] *)
Definition py_add (a b : num) : result num :=
  match a, b with
  | Int x, Int y => Ok (Int (x + y))
  | Int x, Float g =>
      match float_of_int x with
      | Ok f => Ok (Float (SFadd prec emax f g))
      | Raise e => Raise e
      end
  | Float f, Int y =>
      match float_of_int y with
      | Ok g => Ok (Float (SFadd prec emax f g))
      | Raise e => Raise e
      end
  | Float f, Float g => Ok (Float (SFadd prec emax f g))
  end.

(** Exact values: rationals and the two infinities. *)
Inductive ext : Type :=
| NegInf
| Fin (q : Q)
| PosInf.

(** [m * 2 ^ e] *)
Definition magnitude (m : positive) (e : Z) : Q :=
  match e with
  | Z0 => Zpos m # 1
  | Zpos p => Zpos (m * 2 ^ p) # 1
  | Zneg p => Zpos m # (2 ^ p)
  end.

(** The value of a float; a NaN has none. *)
Definition float_value (f : spec_float) : option ext :=
  match f with
  | S754_nan => None
  | S754_infinity s => Some (if s then NegInf else PosInf)
  | S754_zero _ => Some (Fin (0 # 1))
  | S754_finite s m e =>
      Some (Fin (if s then Qopp (magnitude m e) else magnitude m e))
  end.

Definition value (a : num) : option ext :=
  match a with
  | Int z => Some (Fin (inject_Z z))
  | Float f => float_value f
  end.

Definition ext_compare (x y : ext) : comparison :=
  match x, y with
  | NegInf, NegInf => Eq
  | NegInf, _ => Lt
  | Fin _, NegInf => Gt
  | Fin a, Fin b => Qcompare a b
  | Fin _, PosInf => Lt
  | PosInf, PosInf => Eq
  | PosInf, _ => Gt
  end.

(** Comparison of two numbers by value; [None] when a side is a NaN. *)
Definition py_compare (a b : num) : option comparison :=
  match value a, value b with
  | Some x, Some y => Some (ext_compare x y)
  | _, _ => None
  end.

(** [a < b] *)
Definition py_lt (a b : num) : bool :=
  match py_compare a b with Some Lt => true | _ => false end.

(** [a <= b] *)
Definition py_le (a b : num) : bool :=
  match py_compare a b with Some Lt | Some Eq => true | _ => false end.

(** [a == b] *)
Definition py_eq (a b : num) : bool :=
  match py_compare a b with Some Eq => true | _ => false end.

(** [0.0 <= a] *)
Definition nonneg (a : num) : Prop := py_le zero a = true.

(** [a] is the number [b] itself, or [a <= b]. *)
Definition cost_le (a b : num) : Prop := a = b \/ py_le a b = true.

(** [a == z] for the integer [z]. *)
Definition cost_is (a : num) (z : Z) : Prop := py_eq a (Int z) = true.

(** A float that is not negative and not a NaN. *)
Definition float_nonneg (f : spec_float) : bool :=
  match f with
  | S754_nan => false
  | S754_infinity s => negb s
  | S754_zero _ => true
  | S754_finite s _ _ => negb s
  end.

(** An int cost that is not negative and that [float] converts without
    rounding: the costs for which the additions of the relaxation are
    exact. *)
Definition exact_cost (w : num) : bool :=
  match w with
  | Int z =>
      (0 <=? z) &&
      match float_of_int z with
      | Ok f => py_eq (Float f) (Int z)
      | Raise _ => false
      end
  | Float _ => false
  end.

(** The integer that the cost of a table with exact costs stands for: the
    int itself, and 0 for the float [0.0] of the self entry. *)
Definition int_of (c : num) : Z :=
  match c with
  | Int z => z
  | Float _ => 0
  end.

(** ** Routers *)

(** A routing-table entry: [(cost, next_hop)]. *)
Notation entry := (num * string)%type (only parsing).

(** [class Router]: the fields assigned by [__init__]. *)
Record Router : Type := mkRouter {
  name : string;
  neighbors : Dict.t num;
  routing_table : Dict.t entry
}.

(** [Router.__init__(name)] *)
Definition new_router (nm : string) : Router :=
  mkRouter nm Dict.empty Dict.empty.

(** [Router.add_neighbor(neighbor_name, cost)] *)
Definition add_neighbor (neighbor_name : string) (cost : num) (self : Router)
  : Router :=
  let nbs := Dict.set neighbor_name cost (neighbors self) in
  let rt1 := Dict.set neighbor_name (cost, neighbor_name)
               (routing_table self) in
  let rt2 := Dict.set (name self) (zero, name self) rt1 in
  mkRouter (name self) nbs rt2.

(** [Router.get_routing_table()] *)
Definition get_routing_table (self : Router) : Dict.t entry :=
  routing_table self.

(** The test of lines 71-72, as computed: no entry for [dest], or a
    strictly cheaper candidate. *)
Definition betterb (rt : Dict.t entry) (dest : string) (candidate : num)
  : bool :=
  match Dict.get dest rt with
  | None => true
  | Some (c, _) => py_lt candidate c
  end.

(** Lines 71-74 of [update_routing_table]: the test on [new_cost] and the
    assignments, on the pair (table, [modified]). *)
Definition relax_entry (neighbor_name dest : string) (new_cost : num)
    (acc : Dict.t entry * bool) : Dict.t entry * bool :=
  if betterb (fst acc) dest new_cost
  then (Dict.set dest (new_cost, neighbor_name) (fst acc), true)
  else acc.

(** The body of the [for] loop of [update_routing_table] (lines 66-74) on
    one item [(dest, (dest_cost, _))] of the neighbour's table: the sum of
    line 68 may raise. *)
Definition relax_item (cost_to_neighbor : num) (neighbor_name : string)
    (acc : Dict.t entry * bool) (item : string * entry)
  : result (Dict.t entry * bool) :=
  let '(dest, (dest_cost, _)) := item in
  match py_add cost_to_neighbor dest_cost with
  | Ok new_cost => Ok (relax_entry neighbor_name dest new_cost acc)
  | Raise e => Raise e
  end.

(** The [for] loop: it stops at the first item that raises, with the table
    as the items before it left it. *)
Fixpoint relax_loop (cost_to_neighbor : num) (neighbor_name : string)
    (items : list (string * entry)) (acc : Dict.t entry * bool)
  : result bool * Dict.t entry :=
  match items with
  | [] => (Ok (snd acc), fst acc)
  | item :: rest =>
      match relax_item cost_to_neighbor neighbor_name acc item with
      | Ok acc' => relax_loop cost_to_neighbor neighbor_name rest acc'
      | Raise e => (Raise e, fst acc)
      end
  end.

(** [Router.update_routing_table(neighbor_name, neighbor_table)]: the
    value returned or the exception raised, and the router as the call
    leaves it.  The [KeyError] of [self.neighbors[neighbor_name]] is raised
    before anything is written. *)
Definition update_routing_table (neighbor_name : string)
    (neighbor_table : Dict.t entry) (self : Router)
  : result bool * Router :=
  match Dict.get neighbor_name (neighbors self) with
  | None => (Raise (KeyError neighbor_name), self)
  | Some cost_to_neighbor =>
      let '(res, rt) :=
        relax_loop cost_to_neighbor neighbor_name neighbor_table
                   (routing_table self, false) in
      (res, mkRouter (name self) (neighbors self) rt)
  end.

(** Rows of [sorted(self.routing_table.items())]: tuples compare
    lexicographically, strings by code point. *)
Definition item_leb (x y : string * entry) : bool :=
  let '(d1, (c1, h1)) := x in
  let '(d2, (c2, h2)) := y in
  match String.compare d1 d2 with
  | Lt => true
  | Gt => false
  | Eq => if py_lt c1 c2 then true
          else if py_lt c2 c1 then false
          else String.leb h1 h2
  end.

Fixpoint insert_sorted (x : string * entry) (l : list (string * entry))
  : list (string * entry) :=
  match l with
  | [] => [x]
  | y :: l' => if item_leb x y then x :: l else y :: insert_sorted x l'
  end.

Definition sorted_items (d : Dict.t entry) : list (string * entry) :=
  fold_right insert_sorted [] d.

(** ** The network state *)

(** [class Network]: the [routers] dictionary.  The nodes of the
    [networkx] graph are its keys. *)
Definition Network : Type := Dict.t Router.

(** [Network.__init__()] *)
Definition new_network : Network := Dict.empty.

(** Computations over the network that may raise: the state reached is
    given back in both cases. *)
Definition M (A : Type) : Type := Network -> result A * Network.

Definition ret {A : Type} (a : A) : M A := fun net => (Ok a, net).

Definition raise {A : Type} (e : exn) : M A := fun net => (Raise e, net).

Definition bind {A B : Type} (m : M A) (f : A -> M B) : M B :=
  fun net =>
    match m net with
    | (Ok a, net') => f a net'
    | (Raise e, net') => (Raise e, net')
    end.

Notation "x <- m ;; f" := (bind m (fun x => f))
  (at level 61, m at next level, right associativity).
Notation "m ;;; f" := (bind m (fun _ => f))
  (at level 61, right associativity).

(** [self.routers[k]] *)
Definition lookup_router (k : string) : M Router :=
  fun net =>
    match Dict.get k net with
    | Some r => (Ok r, net)
    | None => (Raise (KeyError k), net)
    end.

(** The router object stored under [k] now has the value [r]. *)
Definition store_router (k : string) (r : Router) : M unit :=
  fun net => (Ok tt, Dict.set k r net).

(** [Network.add_router(name)] *)
Definition add_router (nm : string) (net : Network) : Network :=
  Dict.set nm (new_router nm) net.

(** [Network.add_link(router1, router2, cost)] *)
Definition add_link (router1 router2 : string) (cost : num) : M unit :=
  r1 <- lookup_router router1 ;;
  store_router router1 (add_neighbor router2 cost r1) ;;;
  r2 <- lookup_router router2 ;;
  store_router router2 (add_neighbor router1 cost r2).

(** The layout of [visualize_network] (lines 120-127) gives a position to
    these nodes only. *)
Definition layout : list string := ["A"; "B"; "C"; "D"; "E"; "F"].

Definition has_position (node : string) : bool :=
  existsb (String.eqb node) layout.

(** [Network.visualize_network()]: [draw_networkx_nodes] raises for the
    first node of the graph that the layout does not place. *)
Definition visualize_network : M unit :=
  fun net =>
    match find (fun node => negb (has_position node)) (Dict.keys net) with
    | Some node => (Raise (NetworkXError node), net)
    | None => (Ok tt, net)
    end.

(** ** The round loop of [simulate] *)

(** The value or exception [res] of a call that has left the state as it
    is. *)
Definition give {A : Type} (res : result A) : M A := fun net => (res, net).

(** Lines 173-176: [router] reads a copy of the table its [neighbor] holds
    now and relaxes its own table from it; what the relaxation wrote before
    an exception stays written. *)
Definition relax_pair (router neighbor : string) : M bool :=
  nb <- lookup_router neighbor ;;
  let neighbor_table := get_routing_table nb in
  self <- lookup_router router ;;
  let updated := update_routing_table neighbor neighbor_table self in
  store_router router (snd updated) ;;;
  give (fst updated).

(** [for neighbor in router.neighbors: ...] with the running [changes]
    flag. *)
Fixpoint for_neighbors (router : string) (nbs : list string)
    (changes : bool) : M bool :=
  match nbs with
  | [] => ret changes
  | neighbor :: rest =>
      modified <- relax_pair router neighbor ;;
      for_neighbors router rest (if modified then true else changes)
  end.

(** [for router in self.routers.values(): ...] *)
Fixpoint for_routers (names : list string) (changes : bool) : M bool :=
  match names with
  | [] => ret changes
  | router :: rest =>
      r <- lookup_router router ;;
      changes' <- for_neighbors router (Dict.keys (neighbors r)) changes ;;
      for_routers rest changes'
  end.

(** One round: lines 163-176, giving the [changes] flag. *)
Definition run_round : M bool :=
  fun net => for_routers (Dict.keys net) false net.

(** ** [simulate] and [main] *)

(** What is printed, one event per message. *)
Inductive output : Type :=
| PrintLinkCosts
| PrintStart
| PrintIteration (n : Z)
| PrintTable (nm : string) (rows : list (string * entry))
| PrintConverged
| PrintMaxIterations.

(** [router.display_routing_table()] *)
Definition display_routing_table (self : Router) : output :=
  PrintTable (name self) (sorted_items (routing_table self)).

(** The local variables of [simulate] when its [while] loop is left. *)
Record loop_exit : Type := mkExit {
  iteration : Z;
  converged : bool
}.

(** The [while not converged and iteration < max_iterations] loop;
    [budget] is the number of times the test [iteration < max_iterations]
    can still succeed. *)
Fixpoint simulate_loop (budget : nat) (iter : Z) (out : list output)
    (net : Network) : result loop_exit * Network * list output :=
  match budget with
  | O => (Ok (mkExit iter false), net, out)
  | S budget' =>
      let iter := iter + 1 in
      let out := out ++ [PrintIteration iter] in
      match run_round net with
      | (Raise e, net') => (Raise e, net', out)
      | (Ok changes, net') =>
          let out := out ++ map display_routing_table (Dict.values net') in
          if changes
          then simulate_loop budget' iter out net'
          else (Ok (mkExit iter true), net', out ++ [PrintConverged])
      end
  end.

(** [Network.simulate(max_iterations)]: the start message, the drawing,
    the loop and the warning.  The value returned is Python's [None]
    ([tt]); the outcome is only printed. *)
Definition simulate (max_iterations : Z) (net : Network)
  : result unit * Network * list output :=
  match visualize_network net with
  | (Raise e, net') => (Raise e, net', [PrintStart])
  | (Ok _, net') =>
      match simulate_loop (Z.to_nat max_iterations) 0 [PrintStart] net' with
      | (Raise e, net'', out) => (Raise e, net'', out)
      | (Ok ex, net'', out) =>
          (Ok tt, net'',
           if converged ex then out else out ++ [PrintMaxIterations])
      end
  end.

(** The topology built by [main]. *)
Definition main_routers : list string := ["A"; "B"; "C"; "D"; "E"; "F"].

Definition main_links : M unit :=
  add_link "A" "B" (Int 1) ;;;
  add_link "A" "F" (Int 3) ;;;
  add_link "B" "C" (Int 3) ;;;
  add_link "B" "F" (Int 1) ;;;
  add_link "B" "E" (Int 5) ;;;
  add_link "C" "D" (Int 2) ;;;
  add_link "D" "E" (Int 1) ;;;
  add_link "E" "F" (Int 2) ;;;
  add_link "D" "F" (Int 6).

Definition main_network : result unit * Network :=
  main_links (fold_left (fun net r => add_router r net) main_routers
                        new_network).

(** The network [main] hands to [simulate]. *)
Definition example_network : Network := snd main_network.

(** [main()] *)
Definition main : result unit * Network * list output :=
  match main_network with
  | (Raise e, net) => (Raise e, net, [])
  | (Ok _, net) =>
      let '(res, net', out) := simulate 100 net in
      (res, net', PrintLinkCosts :: out)
  end.

(** ** Topology and invariants of the tables *)

(** [routers[u].neighbors[v]], when both subscripts succeed. *)
Definition link (net : Network) (u v : string) : option num :=
  match Dict.get u net with
  | Some r => Dict.get v (neighbors r)
  | None => None
  end.

(** [routers[u].routing_table[d]], when both subscripts succeed. *)
Definition route (net : Network) (u d : string) : option entry :=
  match Dict.get u net with
  | Some r => Dict.get d (routing_table r)
  | None => None
  end.

(** The topology of a network: each router's name and neighbour map. *)
Definition topo (net : Network) : list (string * (string * Dict.t num)) :=
  map (fun kr => (fst kr, (name (snd kr), neighbors (snd kr)))) net.

(** Every link has a non-negative cost. *)
Definition nonneg_links (net : Network) : Prop :=
  forall u v w, link net u v = Some w -> nonneg w.

(** Every neighbour named by a router is a router of the network. *)
Definition closed (net : Network) : Prop :=
  forall u v w, link net u v = Some w -> exists r, Dict.get v net = Some r.

(** Every router has a position in the drawing. *)
Definition drawable (net : Network) : Prop :=
  forall k, In k (Dict.keys net) -> has_position k = true.

(** The state of a network between pair steps on a fixed topology with
    non-negative costs. *)
Record consistent (net : Network) : Prop := mkConsistent {
  c_wf : forall u r, Dict.get u net = Some r -> Dict.wf (routing_table r);
  c_name : forall u r, Dict.get u net = Some r -> name r = u;
  c_nonneg : nonneg_links net;
  c_closed : closed net;
  c_direct : forall u v w, link net u v = Some w ->
               exists c h, route net u v = Some (c, h) /\ cost_le c w;
  c_self : forall u r, Dict.get u net = Some r -> neighbors r <> [] ->
               route net u u = Some (zero, u);
  c_entry : forall u d c h, route net u d = Some (c, h) ->
               nonneg c /\
               (exists r, Dict.get d net = Some r) /\
               ((d = u /\ c = zero /\ h = u) \/
                exists w, link net u h = Some w)
}.

(** Networks made by [add_router] and [add_link] calls that return, with
    non-negative costs, before any round is run. *)
Inductive built : Network -> Prop :=
| built_new : built new_network
| built_router nm net : built net -> built (add_router nm net)
| built_link u v c net net' :
    built net -> nonneg c -> add_link u v c net = (Ok tt, net') ->
    built net'.

(** The state after [n] rounds, when none of them raises. *)
Fixpoint rounds (n : nat) (net : Network) : option Network :=
  match n with
  | O => Some net
  | S n' =>
      match run_round net with
      | (Ok _, net') => rounds n' net'
      | (Raise _, _) => None
      end
  end.

(** Each of the first [n] rounds returns and reports a change. *)
Fixpoint all_changed (n : nat) (net : Network) : bool :=
  match n with
  | O => true
  | S n' =>
      match run_round net with
      | (Ok true, net') => all_changed n' net'
      | _ => false
      end
  end.

(** No entry is lost and no cost goes up from [net] to [net']. *)
Definition improves_on (net net' : Network) : Prop :=
  forall u d c h, route net u d = Some (c, h) ->
    exists c' h', route net' u d = Some (c', h') /\ cost_le c' c.

(** The test of the relaxation: no entry for [dest] yet, or a strictly
    cheaper candidate. *)
Definition better (rt : Dict.t entry) (dest : string) (candidate : num)
  : Prop :=
  Dict.get dest rt = None \/
  exists c h, Dict.get dest rt = Some (c, h) /\ py_lt candidate c = true.

(** The test on an item of the neighbour's table; an item whose sum raises
    passes no test. *)
Definition item_better (rt : Dict.t entry) (cost_to_neighbor : num)
    (item : string * entry) : bool :=
  match py_add cost_to_neighbor (fst (snd item)) with
  | Ok candidate => betterb rt (fst item) candidate
  | Raise _ => false
  end.

(** What the loop leaves for [dest] when no sum raises: the candidate
    through the neighbour if it passes the test against the table on entry,
    else what the table held. *)
Definition relaxed (rt : Dict.t entry) (cost_to_neighbor : num)
    (neighbor_name : string) (nt : Dict.t entry) (dest : string)
  : option entry :=
  match Dict.get dest nt with
  | None => Dict.get dest rt
  | Some e =>
      match py_add cost_to_neighbor (fst e) with
      | Ok candidate =>
          if betterb rt dest candidate
          then Some (candidate, neighbor_name)
          else Dict.get dest rt
      | Raise _ => Dict.get dest rt
      end
  end.

(** The sum of line 68 raises for no item of the table. *)
Definition sums_defined (cost_to_neighbor : num) (nt : Dict.t entry)
  : Prop :=
  forall dest dc via, In (dest, (dc, via)) nt ->
    exists candidate, py_add cost_to_neighbor dc = Ok candidate.

(** The symmetry invariant: [routers[u].neighbors[v]] and
    [routers[v].neighbors[u]] agree (both absent, or the same cost) for
    every two routers of the network. *)
Definition symmetric (net : Network) : Prop :=
  forall u v ru rv, Dict.get u net = Some ru -> Dict.get v net = Some rv ->
    Dict.get v (neighbors ru) = Dict.get u (neighbors rv).

(** A router as [add_neighbor] calls alone leave it: the table holds the
    self entry and one direct entry per neighbour, nothing else. *)
Record router_initial (r : Router) : Prop := mkRouterInitial {
  ri_wf : Dict.wf (routing_table r);
  ri_entries : forall d c h,
      Dict.get d (routing_table r) = Some (c, h) ->
      (d = name r /\ c = zero /\ h = name r) \/
      (Dict.get d (neighbors r) = Some c /\ h = d);
  ri_direct : forall v w,
      Dict.get v (neighbors r) = Some w ->
      nonneg w /\
      Dict.get v (routing_table r)
        = Some (if String.eqb v (name r) then (zero, name r) else (w, v));
  ri_self : neighbors r <> [] ->
      Dict.get (name r) (routing_table r) = Some (zero, name r)
}.

(** A network before its first round. *)
Record initial (net : Network) : Prop := mkInitial {
  i_name : forall u r, Dict.get u net = Some r -> name r = u;
  i_router : forall u r, Dict.get u net = Some r -> router_initial r;
  i_closed : closed net
}.

(** ** Relations between network states *)

(** Some entry of [net'] is new, or strictly cheaper than in [net]. *)
Definition strictly_improves (net net' : Network) : Prop :=
  exists u d c' h', route net' u d = Some (c', h') /\
    match route net u d with
    | None => True
    | Some (c, _) => py_lt c' c = true
    end.

(** What a round that reports no change has done: every pair step, run on
    the unchanged state, reported no change. *)
Definition quiet_router (net : Network) (router : string) : Prop :=
  exists r, Dict.get router net = Some r /\
    Forall (fun nb => relax_pair router nb net = (Ok false, net))
           (Dict.keys (neighbors r)).

(** The topology is the same in [net] and [net']. *)
Definition same_topo (net net' : Network) : Prop := topo net' = topo net.

(** Consistency carries over from [net] to [net']. *)
Definition keeps_consistent (net net' : Network) : Prop :=
  consistent net -> consistent net'.

(** ** A round over frozen tables, for comparison

    The code reads a neighbour's table from the state as it is when the
    pair is processed.  The round below is the one the code does not run:
    every table is read from the state at the start of the round. *)

Definition relax_pair_frozen (start : Network) (router neighbor : string)
  : M bool :=
  match Dict.get neighbor start with
  | None => raise (KeyError neighbor)
  | Some nb =>
      self <- lookup_router router ;;
      let updated :=
        update_routing_table neighbor (get_routing_table nb) self in
      store_router router (snd updated) ;;;
      give (fst updated)
  end.

Fixpoint for_neighbors_frozen (start : Network) (router : string)
    (nbs : list string) (changes : bool) : M bool :=
  match nbs with
  | [] => ret changes
  | neighbor :: rest =>
      modified <- relax_pair_frozen start router neighbor ;;
      for_neighbors_frozen start router rest
        (if modified then true else changes)
  end.

Fixpoint for_routers_frozen (start : Network) (names : list string)
    (changes : bool) : M bool :=
  match names with
  | [] => ret changes
  | router :: rest =>
      r <- lookup_router router ;;
      changes' <- for_neighbors_frozen start router
                    (Dict.keys (neighbors r)) changes ;;
      for_routers_frozen start rest changes'
  end.

Definition run_round_frozen : M bool :=
  fun net => for_routers_frozen net (Dict.keys net) false net.

(** ** Example networks *)

(** Routers [names] added to an empty network. *)
Definition with_routers (names : list string) : Network :=
  fold_left (fun net r => add_router r net) names new_network.

(** The chain A - B - C - D with unit costs, routers added in that
    order. *)
Definition chain_network : Network :=
  snd ((add_link "A" "B" (Int 1) ;;;
        add_link "B" "C" (Int 1) ;;;
        add_link "C" "D" (Int 1)) (with_routers ["A"; "B"; "C"; "D"])).

(** A single router without links. *)
Definition lone_network : Network := add_router "A" new_network.

(** A sequence of [add_link] calls. *)
Fixpoint add_links (links : list (string * string * num)) : M unit :=
  match links with
  | [] => ret tt
  | (u, v, c) :: rest => add_link u v c ;;; add_links rest
  end.

(** The links of [main], in call order. *)
Definition example_links : list (string * string * num) :=
  [("A", "B", Int 1); ("A", "F", Int 3); ("B", "C", Int 3);
   ("B", "F", Int 1); ("B", "E", Int 5); ("C", "D", Int 2);
   ("D", "E", Int 1); ("E", "F", Int 2); ("D", "F", Int 6)].

(** [closed], as a test. *)
Definition closedb (net : Network) : bool :=
  forallb (fun kr =>
             forallb (fun nbw => Dict.mem (fst nbw) net)
                     (neighbors (snd kr)))
          net.

(** [drawable], as a test. *)
Definition drawableb (net : Network) : bool :=
  forallb has_position (Dict.keys net).

(** The example of [main] after [n] rounds. *)
Definition example_after (n : nat) : Network :=
  match rounds n example_network with
  | Some net => net
  | None => new_network
  end.

(** Router [k] of the example of [main], before the first round. *)
Definition example_router (k : string) : Router :=
  match Dict.get k example_network with
  | Some r => r
  | None => new_router k
  end.

(** Router A after [add_link("A", "B", 1)] raised for want of a router B:
    A names a neighbour that is not a router. *)
Definition dangling_network : Network :=
  snd (add_link "A" "B" (Int 1) lone_network).

(** Two routers without links. *)
Definition pair_network : Network := with_routers ["A"; "B"].

(** A router G, for which the drawing has no position, next to A. *)
Definition undrawable_network : Network := with_routers ["A"; "G"].

(** Routers A and B joined by a link of cost [2 ** 53 + 1], an int that
    no float equals. *)
Definition rounded_network : Network :=
  snd (add_link "A" "B" (Int (2 ^ 53 + 1)) pair_network).

(** Routers A and B joined by a link of cost [2 ** 1024], an int too large
    for a float. *)
Definition huge_network : Network :=
  snd (add_link "A" "B" (Int (2 ^ 1024)) pair_network).

(** Router [k] of that network. *)
Definition huge_router (k : string) : Router :=
  match Dict.get k huge_network with
  | Some r => r
  | None => new_router k
  end.

(** The names a network uses: its routers and the neighbours they
    name. *)
Definition all_names (net : Network) : list string :=
  Dict.keys net ++ flat_map (fun kr => Dict.keys (neighbors (snd kr))) net.

(** The example of [main] with its routers and its links added in the
    reverse order. *)
Definition example_network_reversed : Network :=
  snd (add_links (rev example_links) (with_routers (rev main_routers))).


(** ** Networks with exact costs: walks and shortest paths

    When every link cost is a non-negative int that converts to a float
    without rounding, the sums of the relaxation are exact and the tables
    can be compared with the costs of walks in the graph of the links. *)

(** Every link cost is an exact cost. *)
Definition exact_links (net : Network) : Prop :=
  forall u v w, link net u v = Some w -> exact_cost w = true.

(** [exact_links], as a test. *)
Definition exact_linksb (net : Network) : bool :=
  forallb (fun kr =>
             forallb (fun nbw => exact_cost (snd nbw)) (neighbors (snd kr)))
          net.

(** The cost of the link from [u] to [v], when it is an int. *)
Definition link_cost (net : Network) (u v : string) : option Z :=
  match link net u v with
  | Some (Int z) => Some z
  | _ => None
  end.

(** Cost of the walk that leaves [u] and visits the routers of [p] in
    turn, each step along a link; [None] when a link is missing. *)
Fixpoint walk_cost (net : Network) (u : string) (p : list string)
  : option Z :=
  match p with
  | [] => Some 0
  | v :: p' =>
      match link_cost net u v, walk_cost net v p' with
      | Some w, Some c => Some (w + c)
      | _, _ => None
      end
  end.

(** [p] is a walk from [u] to [d] of cost [c]. *)
Definition walk (net : Network) (u : string) (p : list string)
    (d : string) (c : Z) : Prop :=
  last p u = d /\ walk_cost net u p = Some c.

(** [d] can be reached from [u]. *)
Definition reachable (net : Network) (u d : string) : Prop :=
  exists p c, walk net u p d c.

(** [c] is the least cost of a walk from [u] to [d]: what a single-source
    shortest-path computation from [u] gives for [d]. *)
Definition shortest_cost (net : Network) (u d : string) (c : Z) : Prop :=
  (exists p, walk net u p d c) /\
  (forall p' c', walk net u p' d c' -> c <= c').

(** [h] is the first router after [u] on a least-cost walk from [u] to
    [d] ([u] itself for the empty walk). *)
Definition shortest_hop (net : Network) (u d h : string) : Prop :=
  exists p c, walk net u p d c /\ hd u p = h /\
              forall p' c', walk net u p' d c' -> c <= c'.

(** The tables of a network with exact costs: the self entry is the float
    [0.0], every other cost is an int, the cost of a walk that starts with
    the recorded next hop. *)
Record exact (net : Network) : Prop := mkExact {
  x_links : exact_links net;
  x_entry : forall u d c h, route net u d = Some (c, h) ->
      (d = u /\ c = zero /\ h = u) \/
      (exists z p, c = Int z /\ p <> [] /\ walk net u p d z /\ hd u p = h)
}.

(** The test of the relaxation on the integers the costs stand for. *)
Definition int_better (rt : Dict.t entry) (w : Z) (item : string * entry)
  : bool :=
  match Dict.get (fst item) rt with
  | None => true
  | Some (c, _) => w + int_of (fst (snd item)) <? int_of c
  end.

(** Every walk of at least one link is matched by an entry that costs no
    more. *)
Definition optimal (net : Network) : Prop :=
  forall u p d c, p <> [] -> walk net u p d c ->
    exists c0 h0, route net u d = Some (c0, h0) /\ int_of c0 <= c.

(** The same for the walks of at most [k + 1] links. *)
Definition covered (k : nat) (net : Network) : Prop :=
  forall u p d c, p <> [] -> (List.length p <= k + 1)%nat ->
    walk net u p d c ->
    exists c0 h0, route net u d = Some (c0, h0) /\ int_of c0 <= c.

(** A consistent network with exact costs. *)
Definition sound (net : Network) : Prop := consistent net /\ exact net.

(** From [net] to [net'] no entry got lost or dearer, the topology is the
    same, and consistency and exactness carried over. *)
Definition advance (net net' : Network) : Prop :=
  improves_on net net' /\ topo net' = topo net /\
  (consistent net -> consistent net') /\
  (sound net -> sound net').

Definition option_num_eqb (a b : option num) : bool :=
  match a, b with
  | Some (Int x), Some (Int y) => x =? y
  | None, None => true
  | _, _ => false
  end.

(** Two networks have the same links, all with int costs, as a test over
    the names they use. *)
Definition same_linksb (net net' : Network) : bool :=
  let names := all_names net ++ all_names net' in
  forallb (fun x =>
             forallb (fun y => option_num_eqb (link net' x y) (link net x y))
                     names)
          names.

(** ** Facts about dictionaries *)

Module DictFacts.
Import Dict.

Section Facts.
Variable V : Type.
Implicit Types (d : Dict.t V) (k : string) (v : V).

Lemma get_set_same k v d : get k (set k v d) = Some v.
Proof.
  induction d as [|[k' v'] d IH]; simpl.
  - now rewrite String.eqb_refl.
  - destruct (String.eqb k k') eqn:E; simpl; rewrite E; auto.
Qed.

Lemma get_set_other k k' v d : k' <> k -> get k' (set k v d) = get k' d.
Proof.
  intros Hne. induction d as [|[k0 v0] d IH]; simpl.
  - apply String.eqb_neq in Hne. now rewrite Hne.
  - destruct (String.eqb k k0) eqn:E; simpl.
    + apply String.eqb_eq in E. subst k0.
      apply String.eqb_neq in Hne. now rewrite Hne.
    + now rewrite IH.
Qed.

Lemma get_set k k' v d :
  get k' (set k v d) = if String.eqb k' k then Some v else get k' d.
Proof.
  destruct (String.eqb_spec k' k) as [->|Hne].
  - apply get_set_same.
  - now apply get_set_other.
Qed.

(** Re-assigning the value already stored changes nothing. *)
Lemma set_get_id k v d : get k d = Some v -> set k v d = d.
Proof.
  induction d as [|[k' v'] d IH]; simpl; [discriminate|].
  destruct (String.eqb k k') eqn:E; intros H.
  - now inversion H.
  - now rewrite IH.
Qed.

Lemma get_Some_In k v d : get k d = Some v -> In (k, v) d.
Proof.
  induction d as [|[k' v'] d IH]; simpl; [discriminate|].
  destruct (String.eqb_spec k k') as [->|Hne]; intros H.
  - inversion H; auto.
  - auto.
Qed.

Lemma get_None_keys k d : get k d = None <-> ~ In k (keys d).
Proof.
  induction d as [|[k' v'] d IH]; simpl.
  - tauto.
  - destruct (String.eqb_spec k k') as [->|Hne].
    + split; [discriminate | intros H; exfalso; auto].
    + rewrite IH. split; intros H; [intros [?|?]; [congruence | auto] | auto].
Qed.

Lemma get_Some_keys k v d : get k d = Some v -> In k (keys d).
Proof.
  intros H. apply get_Some_In in H. unfold keys.
  change k with (fst (k, v)). now apply in_map.
Qed.

Lemma keys_get k d : In k (keys d) -> exists v, get k d = Some v.
Proof.
  intros H. destruct (get k d) eqn:E; eauto.
  apply get_None_keys in E. contradiction.
Qed.

Lemma In_get k v d : wf d -> In (k, v) d -> get k d = Some v.
Proof.
  unfold wf. induction d as [|[k' v'] d IH]; simpl; [tauto|].
  intros Hnd [Heq|Hin].
  - inversion Heq; subst. now rewrite String.eqb_refl.
  - inversion Hnd as [|? ? Hnotin Hnd']; subst.
    destruct (String.eqb_spec k k') as [->|Hne]; auto.
    exfalso. apply Hnotin. change k' with (fst (k', v)). now apply in_map.
Qed.

(** Assignment keeps the position of a present key and appends an absent
    one. *)
Lemma keys_set k v d :
  keys (set k v d) = if mem k d then keys d else keys d ++ [k].
Proof.
  unfold mem. induction d as [|[k' v'] d IH]; simpl; auto.
  destruct (String.eqb k k') eqn:E; simpl; auto.
  rewrite IH. now destruct (get k d).
Qed.

Lemma keys_set_present k v v0 d :
  get k d = Some v0 -> keys (set k v d) = keys d.
Proof. intros H. rewrite keys_set. unfold mem. now rewrite H. Qed.

Lemma wf_set k v d : wf d -> wf (set k v d).
Proof.
  unfold wf. intros H. rewrite keys_set. unfold mem.
  destruct (get k d) eqn:E; auto.
  apply get_None_keys in E.
  apply NoDup_rev in H. rewrite <- (rev_involutive (keys d ++ [k])).
  apply NoDup_rev. rewrite rev_app_distr. simpl.
  constructor; auto. now rewrite <- in_rev.
Qed.

Lemma set_nonempty k v d : set k v d <> [].
Proof.
  destruct d as [|[k' v'] d]; simpl; [discriminate|].
  destruct (String.eqb k k'); discriminate.
Qed.

End Facts.

Lemma wf_empty (V : Type) : wf (@empty V).
Proof. constructor. Qed.

End DictFacts.

Create HintDb dv.
#[local] Hint Resolve DictFacts.wf_set DictFacts.wf_empty : dv.

(** ** The order on numbers *)

Lemma ext_compare_refl x : ext_compare x x = Eq.
Proof. destruct x; simpl; auto. apply Qeq_alt. reflexivity. Qed.

Lemma ext_compare_antisym x y :
  ext_compare y x = CompOpp (ext_compare x y).
Proof.
  destruct x, y; simpl; auto. symmetry. apply Qcompare_antisym.
Qed.

Lemma ext_lt_trans x y z :
  ext_compare x y = Lt -> ext_compare y z = Lt -> ext_compare x z = Lt.
Proof.
  destruct x, y, z; simpl; try discriminate; auto.
  intros H1 H2. apply Qlt_alt in H1, H2. apply Qlt_alt.
  eapply Qlt_trans; eauto.
Qed.

Lemma ext_le_lt_trans x y z :
  ext_compare x y <> Gt -> ext_compare y z = Lt -> ext_compare x z = Lt.
Proof.
  destruct x, y, z; simpl; try discriminate; try congruence; auto.
  intros H1 H2. apply Qle_alt in H1. apply Qlt_alt in H2. apply Qlt_alt.
  eapply Qle_lt_trans; eauto.
Qed.

Lemma ext_lt_le_trans x y z :
  ext_compare x y = Lt -> ext_compare y z <> Gt -> ext_compare x z = Lt.
Proof.
  destruct x, y, z; simpl; try discriminate; try congruence; auto.
  intros H1 H2. apply Qle_alt in H2. apply Qlt_alt in H1. apply Qlt_alt.
  eapply Qlt_le_trans; eauto.
Qed.

Lemma ext_le_trans x y z :
  ext_compare x y <> Gt -> ext_compare y z <> Gt -> ext_compare x z <> Gt.
Proof.
  destruct x, y, z; simpl; try discriminate; try congruence; auto.
  intros H1 H2. apply Qle_alt in H1, H2. apply Qle_alt.
  eapply Qle_trans; eauto.
Qed.

Lemma ext_compare_eq_l x x' y :
  ext_compare x x' = Eq -> ext_compare x y = ext_compare x' y.
Proof.
  destruct x, x', y; simpl; try discriminate; auto.
  intros H. apply Qeq_alt in H. apply Qcompare_comp; [exact H|reflexivity].
Qed.

Lemma Qcompare_inject_Z a b : Qcompare (inject_Z a) (inject_Z b) = (a ?= b).
Proof. unfold Qcompare, inject_Z. simpl. now rewrite !Z.mul_1_r. Qed.

Lemma py_compare_Int a b : py_compare (Int a) (Int b) = Some (a ?= b).
Proof. unfold py_compare. simpl. now rewrite Qcompare_inject_Z. Qed.

Lemma py_lt_inv a b :
  py_lt a b = true ->
  exists x y, value a = Some x /\ value b = Some y /\ ext_compare x y = Lt.
Proof.
  unfold py_lt, py_compare.
  destruct (value a) as [x|]; [|discriminate].
  destruct (value b) as [y|]; [|discriminate].
  destruct (ext_compare x y) eqn:E; try discriminate. eauto.
Qed.

Lemma py_le_inv a b :
  py_le a b = true ->
  exists x y, value a = Some x /\ value b = Some y /\ ext_compare x y <> Gt.
Proof.
  unfold py_le, py_compare.
  destruct (value a) as [x|]; [|discriminate].
  destruct (value b) as [y|]; [|discriminate].
  destruct (ext_compare x y) eqn:E; try discriminate;
    intros _; exists x, y; rewrite E; repeat split; discriminate.
Qed.

Lemma py_eq_inv a b :
  py_eq a b = true ->
  exists x y, value a = Some x /\ value b = Some y /\ ext_compare x y = Eq.
Proof.
  unfold py_eq, py_compare.
  destruct (value a) as [x|]; [|discriminate].
  destruct (value b) as [y|]; [|discriminate].
  destruct (ext_compare x y) eqn:E; try discriminate. eauto.
Qed.

Lemma py_lt_intro a b x y :
  value a = Some x -> value b = Some y -> ext_compare x y = Lt ->
  py_lt a b = true.
Proof. intros Ha Hb H. unfold py_lt, py_compare. now rewrite Ha, Hb, H. Qed.

Lemma py_le_intro a b x y :
  value a = Some x -> value b = Some y -> ext_compare x y <> Gt ->
  py_le a b = true.
Proof.
  intros Ha Hb H. unfold py_le, py_compare. rewrite Ha, Hb.
  destruct (ext_compare x y); auto; congruence.
Qed.

Ltac same_value :=
  repeat match goal with
         | H1 : value ?a = Some ?x, H2 : value ?a = Some ?y |- _ =>
             rewrite H1 in H2; injection H2 as H2; subst y
         end.

Lemma py_lt_irrefl a : py_lt a a = false.
Proof.
  destruct (py_lt a a) eqn:E; auto.
  apply py_lt_inv in E. destruct E as (x & y & Hx & Hy & H). same_value.
  rewrite ext_compare_refl in H. discriminate.
Qed.

Lemma py_lt_trans a b c :
  py_lt a b = true -> py_lt b c = true -> py_lt a c = true.
Proof.
  intros H1 H2. apply py_lt_inv in H1, H2.
  destruct H1 as (x & y & Hx & Hy & H1), H2 as (y' & z & Hy' & Hz & H2).
  same_value. eapply py_lt_intro; eauto using ext_lt_trans.
Qed.

Lemma py_le_lt_trans a b c :
  py_le a b = true -> py_lt b c = true -> py_lt a c = true.
Proof.
  intros H1 H2. apply py_le_inv in H1. apply py_lt_inv in H2.
  destruct H1 as (x & y & Hx & Hy & H1), H2 as (y' & z & Hy' & Hz & H2).
  same_value. eapply py_lt_intro; eauto using ext_le_lt_trans.
Qed.

Lemma py_lt_le_trans a b c :
  py_lt a b = true -> py_le b c = true -> py_lt a c = true.
Proof.
  intros H1 H2. apply py_lt_inv in H1. apply py_le_inv in H2.
  destruct H1 as (x & y & Hx & Hy & H1), H2 as (y' & z & Hy' & Hz & H2).
  same_value. eapply py_lt_intro; eauto using ext_lt_le_trans.
Qed.

Lemma py_le_trans a b c :
  py_le a b = true -> py_le b c = true -> py_le a c = true.
Proof.
  intros H1 H2. apply py_le_inv in H1, H2.
  destruct H1 as (x & y & Hx & Hy & H1), H2 as (y' & z & Hy' & Hz & H2).
  same_value. eapply py_le_intro; eauto using ext_le_trans.
Qed.

Lemma py_lt_le a b : py_lt a b = true -> py_le a b = true.
Proof.
  intros H. apply py_lt_inv in H. destruct H as (x & y & Hx & Hy & H).
  eapply py_le_intro; eauto. congruence.
Qed.

Lemma py_le_not_lt a b : py_le a b = true -> py_lt b a = false.
Proof.
  intros H1. destruct (py_lt b a) eqn:H2; auto.
  apply py_le_inv in H1. apply py_lt_inv in H2.
  destruct H1 as (x & y & Hx & Hy & H1), H2 as (y' & x' & Hy' & Hx' & H2).
  same_value. rewrite ext_compare_antisym in H2.
  destruct (ext_compare x y); simpl in H2; congruence.
Qed.

Lemma py_eq_not_lt a b : py_eq a b = true -> py_lt a b = false.
Proof.
  unfold py_eq, py_lt. destruct (py_compare a b) as [[]|]; auto; discriminate.
Qed.

(** Numbers that are equal compare alike with every number. *)
Lemma py_eq_compare a a' b :
  py_eq a a' = true -> py_compare a b = py_compare a' b.
Proof.
  intros H. apply py_eq_inv in H. destruct H as (x & x' & Hx & Hx' & H).
  unfold py_compare. rewrite Hx, Hx'.
  destruct (value b) as [y|]; auto.
  now rewrite (ext_compare_eq_l x x' y H).
Qed.

Lemma py_eq_trans a b c :
  py_eq a b = true -> py_eq b c = true -> py_eq a c = true.
Proof.
  intros H1 H2. unfold py_eq. now rewrite (py_eq_compare a b c H1).
Qed.

Lemma py_eq_sym a b : py_eq a b = true -> py_eq b a = true.
Proof.
  intros H. apply py_eq_inv in H. destruct H as (x & y & Hx & Hy & H).
  unfold py_eq, py_compare. rewrite Hx, Hy, ext_compare_antisym, H.
  reflexivity.
Qed.

Lemma py_eq_Int_refl z : py_eq (Int z) (Int z) = true.
Proof. unfold py_eq. now rewrite py_compare_Int, Z.compare_refl. Qed.

Lemma py_lt_Int a b : py_lt (Int a) (Int b) = (a <? b).
Proof. unfold py_lt, Z.ltb. rewrite py_compare_Int. now destruct (a ?= b). Qed.

Lemma py_le_Int a b : py_le (Int a) (Int b) = (a <=? b).
Proof. unfold py_le, Z.leb. rewrite py_compare_Int. now destruct (a ?= b). Qed.

(** The float [0.0] compares like the int [0]. *)
Lemma py_compare_zero_l b : py_compare zero b = py_compare (Int 0) b.
Proof. reflexivity. Qed.

Lemma py_compare_zero_r a : py_compare a zero = py_compare a (Int 0).
Proof. reflexivity. Qed.

Lemma cost_le_refl a : cost_le a a.
Proof. now left. Qed.

Lemma cost_le_trans a b c : cost_le a b -> cost_le b c -> cost_le a c.
Proof.
  intros [->|H1] [->|H2]; [now left|now right|now right|].
  right. eapply py_le_trans; eauto.
Qed.

Lemma py_lt_cost_le a b : py_lt a b = true -> cost_le a b.
Proof. intros H. right. now apply py_lt_le. Qed.

Lemma cost_le_lt_trans a b c :
  cost_le a b -> py_lt b c = true -> py_lt a c = true.
Proof. intros [->|H1] H2; auto. eapply py_le_lt_trans; eauto. Qed.

Lemma py_lt_cost_le_trans a b c :
  py_lt a b = true -> cost_le b c -> py_lt a c = true.
Proof. intros H1 [<-|H2]; auto. eapply py_lt_le_trans; eauto. Qed.

Lemma cost_le_nonneg a b : nonneg a -> cost_le a b -> nonneg b.
Proof.
  unfold nonneg. intros Ha [<-|H]; auto. eapply py_le_trans; eauto.
Qed.

(** ** Sums of non-negative numbers *)

Lemma nonneg_zero : nonneg zero.
Proof. reflexivity. Qed.

Lemma nonneg_Int z : nonneg (Int z) <-> 0 <= z.
Proof.
  unfold nonneg, py_le. rewrite py_compare_zero_l, py_compare_Int.
  destruct (Z.compare_spec 0 z); split; intros; auto; try lia; discriminate.
Qed.

Lemma magnitude_pos m e : Qcompare (0 # 1) (magnitude m e) = Lt.
Proof. destruct e; reflexivity. Qed.

Lemma magnitude_neg m e : Qcompare (0 # 1) (Qopp (magnitude m e)) = Gt.
Proof. destruct e; reflexivity. Qed.

Lemma nonneg_Float f : nonneg (Float f) <-> float_nonneg f = true.
Proof.
  unfold nonneg, py_le, py_compare. simpl.
  destruct f as [s|s| |s m e]; simpl.
  - split; reflexivity.
  - destruct s; simpl; split; auto; discriminate.
  - split; discriminate.
  - destruct s; simpl.
    + rewrite magnitude_neg. split; discriminate.
    + rewrite magnitude_pos. split; reflexivity.
Qed.

Lemma iter_pos_inv {A : Type} (f : A -> A) (P : A -> Prop) :
  (forall x, P x -> P (f x)) ->
  forall n x, P x -> P (iter_pos f n x).
Proof.
  intros Hf. induction n as [n IH|n IH|]; simpl; intros x Hx; auto.
Qed.

Lemma shr_1_nonneg mrs : 0 <= shr_m mrs -> 0 <= shr_m (shr_1 mrs).
Proof.
  destruct mrs as [m r s]. simpl.
  destruct m as [|p|p]; simpl; [lia| |lia].
  destruct p; simpl; lia.
Qed.

Lemma shr_nonneg mrs e n :
  0 <= shr_m mrs -> 0 <= shr_m (fst (shr mrs e n)).
Proof.
  intros H. unfold shr. destruct n; simpl; auto.
  apply iter_pos_inv; auto using shr_1_nonneg.
Qed.

Lemma shr_fexp_nonneg m e l :
  0 <= m -> 0 <= shr_m (fst (shr_fexp prec emax m e l)).
Proof.
  intros H. unfold shr_fexp. apply shr_nonneg.
  destruct l as [|[]]; simpl; auto.
Qed.

Lemma round_nearest_even_nonneg m l :
  0 <= m -> 0 <= round_nearest_even m l.
Proof.
  intros H. destruct l as [|[]]; simpl; try lia.
  destruct (Z.even m); lia.
Qed.

(** Rounding a non-negative number gives no negative float and no NaN. *)
Lemma binary_round_aux_nonneg mx ex lx :
  0 <= mx ->
  float_nonneg (binary_round_aux prec emax false mx ex lx) = true.
Proof.
  intros H. unfold binary_round_aux.
  pose proof (shr_fexp_nonneg mx ex lx H) as H1.
  destruct (shr_fexp prec emax mx ex lx) as [mrs' e'].
  simpl in H1.
  pose proof (shr_fexp_nonneg
                (round_nearest_even (shr_m mrs') (loc_of_shr_record mrs'))
                e' loc_Exact
                (round_nearest_even_nonneg _ _ H1)) as H2.
  destruct (shr_fexp prec emax _ e' loc_Exact) as [mrs'' e''].
  simpl in H2.
  destruct (shr_m mrs'') as [|p|p]; [reflexivity| |lia].
  destruct (e'' <=? emax - prec); reflexivity.
Qed.

Lemma binary_normalize_nonneg z e :
  0 <= z -> float_nonneg (binary_normalize prec emax z e false) = true.
Proof.
  intros H. destruct z as [|p|p]; simpl; [reflexivity| |lia].
  unfold binary_round.
  destruct (shl_align p e _) as [mz ez].
  apply binary_round_aux_nonneg. lia.
Qed.

Lemma SFadd_nonneg f g :
  float_nonneg f = true -> float_nonneg g = true ->
  float_nonneg (SFadd prec emax f g) = true.
Proof.
  destruct f as [[]|[]| |[] m e], g as [[]|[]| |[] m' e'];
    intros Hf Hg; simpl in Hf, Hg; try discriminate;
    try (simpl; auto; fail).
  unfold SFadd, cond_Zopp. apply binary_normalize_nonneg. lia.
Qed.

Lemma float_of_int_nonneg z f :
  0 <= z -> float_of_int z = Ok f -> float_nonneg f = true.
Proof.
  intros Hz. unfold float_of_int.
  pose proof (binary_normalize_nonneg z 0 Hz) as H.
  destruct (binary_normalize prec emax z 0 false); intros E;
    inversion E; subst; exact H.
Qed.

(** The only exception of a sum is [OverflowError]. *)
Lemma py_add_Raise a b e : py_add a b = Raise e -> e = OverflowError.
Proof.
  assert (H : forall z e0, float_of_int z = Raise e0 -> e0 = OverflowError).
  { intros z e0. unfold float_of_int.
    destruct (binary_normalize prec emax z 0 false); inversion 1; auto. }
  destruct a as [x|f], b as [y|g]; simpl; try discriminate.
  - destruct (float_of_int x) eqn:E; inversion 1; subst; eauto.
  - destruct (float_of_int y) eqn:E; inversion 1; subst; eauto.
Qed.

(** Two floats add without an exception. *)
Lemma py_add_Float f g : py_add (Float f) (Float g)
                         = Ok (Float (SFadd prec emax f g)).
Proof. reflexivity. Qed.

(** The sum of two non-negative numbers is non-negative. *)
Lemma py_add_nonneg a b c :
  nonneg a -> nonneg b -> py_add a b = Ok c -> nonneg c.
Proof.
  destruct a as [x|f], b as [y|g]; simpl; intros Ha Hb H.
  - inversion H; subst. apply nonneg_Int. apply nonneg_Int in Ha, Hb. lia.
  - destruct (float_of_int x) as [f|] eqn:E; inversion H; subst.
    apply nonneg_Float. apply SFadd_nonneg.
    + eapply float_of_int_nonneg; eauto. now apply nonneg_Int.
    + now apply nonneg_Float.
  - destruct (float_of_int y) as [g|] eqn:E; inversion H; subst.
    apply nonneg_Float. apply SFadd_nonneg.
    + now apply nonneg_Float.
    + eapply float_of_int_nonneg; eauto. now apply nonneg_Int.
  - inversion H; subst. apply nonneg_Float.
    apply SFadd_nonneg; now apply nonneg_Float.
Qed.

(** ** Sums with exact costs *)

Lemma exact_cost_inv w :
  exact_cost w = true ->
  exists z f, w = Int z /\ 0 <= z /\ float_of_int z = Ok f /\
              py_eq (Float f) (Int z) = true.
Proof.
  destruct w as [z|f]; simpl; [|discriminate].
  intros H. apply andb_true_iff in H. destruct H as [Hz H].
  apply Z.leb_le in Hz.
  destruct (float_of_int z) as [f|] eqn:E; [|discriminate].
  exists z, f. auto.
Qed.

Lemma exact_cost_nonneg w : exact_cost w = true -> nonneg w.
Proof.
  intros H. apply exact_cost_inv in H.
  destruct H as (z & f & -> & Hz & _). now apply nonneg_Int.
Qed.

Lemma SFadd_zero_value f :
  float_value (SFadd prec emax f (S754_zero false)) = float_value f.
Proof. destruct f as [[]|[]| |[] m e]; reflexivity. Qed.

(** The costs of the tables of a network with exact costs. *)
Lemma py_add_exact w dc :
  exact_cost w = true ->
  dc = zero \/ (exists z, dc = Int z) ->
  exists cand,
    py_add w dc = Ok cand /\
    (forall b, py_compare cand b
               = py_compare (Int (int_of w + int_of dc)) b) /\
    (forall z, dc = Int z -> cand = Int (int_of w + z)).
Proof.
  intros Hw Hdc. apply exact_cost_inv in Hw.
  destruct Hw as (wz & f & -> & Hz & Hf & Heq).
  destruct Hdc as [->|[z ->]].
  - simpl. rewrite Hf. eexists. split; [reflexivity|]. split.
    + intros b. rewrite Z.add_0_r.
      rewrite <- (py_eq_compare (Float f) (Int wz) b Heq).
      unfold py_compare. simpl. now rewrite SFadd_zero_value.
    + discriminate.
  - simpl. eexists. split; [reflexivity|]. split; auto.
    intros z0 H. now inversion H.
Qed.

Lemma py_lt_int_of a c :
  c = zero \/ (exists z, c = Int z) ->
  forall cand,
    (forall b, py_compare cand b = py_compare (Int a) b) ->
    py_lt cand c = (a <? int_of c).
Proof.
  intros Hc cand Hcand. unfold py_lt. rewrite Hcand.
  destruct Hc as [->|[z ->]].
  - rewrite py_compare_zero_r. apply py_lt_Int.
  - apply py_lt_Int.
Qed.

Lemma cost_le_int_of a w :
  a = zero \/ (exists z, a = Int z) ->
  cost_le a (Int w) -> int_of a <= w.
Proof.
  intros Ha [->|H]; [simpl; lia|].
  destruct Ha as [->|[z ->]].
  - unfold py_le in H. rewrite py_compare_zero_l in H.
    change (py_le (Int 0) (Int w) = true) in H.
    rewrite py_le_Int in H. apply Z.leb_le in H. exact H.
  - rewrite py_le_Int in H. apply Z.leb_le in H. exact H.
Qed.

Lemma cost_le_int a b :
  a = zero \/ (exists z, a = Int z) ->
  b = zero \/ (exists z, b = Int z) ->
  cost_le a b -> int_of a <= int_of b.
Proof.
  intros Ha [->|[z ->]] H.
  - destruct H as [->|H]; [simpl; lia|].
    unfold py_le in H. rewrite py_compare_zero_r in H.
    change (py_le a (Int 0) = true) in H.
    apply (cost_le_int_of a 0 Ha). now right.
  - now apply cost_le_int_of.
Qed.

Lemma cost_is_int_of c :
  c = zero \/ (exists z, c = Int z) -> cost_is c (int_of c).
Proof.
  intros [->|[z ->]]; [reflexivity|]. apply py_eq_Int_refl.
Qed.

(** ** The relaxation step *)

Lemma relax_entry_fst nb dest cand acc :
  fst (relax_entry nb dest cand acc) =
    if betterb (fst acc) dest cand
    then Dict.set dest (cand, nb) (fst acc)
    else fst acc.
Proof. unfold relax_entry. now destruct (betterb (fst acc) dest cand). Qed.

Lemma relax_item_Ok w nb acc dest dc via acc' :
  relax_item w nb acc (dest, (dc, via)) = Ok acc' ->
  exists cand, py_add w dc = Ok cand /\ acc' = relax_entry nb dest cand acc.
Proof.
  unfold relax_item. destruct (py_add w dc) as [cand|e]; inversion 1; eauto.
Qed.

Lemma relax_item_Raise w nb acc dest dc via e :
  relax_item w nb acc (dest, (dc, via)) = Raise e -> py_add w dc = Raise e.
Proof.
  unfold relax_item. destruct (py_add w dc) as [cand|e0]; now inversion 1.
Qed.

Lemma betterb_better rt dest cand :
  betterb rt dest cand = true <-> better rt dest cand.
Proof.
  unfold betterb, better.
  destruct (Dict.get dest rt) as [[c h]|].
  - split.
    + intros H. right. eauto.
    + intros [H|(c' & h' & H & Hlt)]; [discriminate|]. now inversion H; subst.
  - split; auto.
Qed.

Lemma betterb_set_other rt k v dest cand :
  dest <> k -> betterb (Dict.set k v rt) dest cand = betterb rt dest cand.
Proof.
  intros Hne. unfold betterb. now rewrite DictFacts.get_set_other.
Qed.

Lemma relaxed_set_other rt w nb nt k v dest :
  dest <> k ->
  relaxed (Dict.set k v rt) w nb nt dest = relaxed rt w nb nt dest.
Proof.
  intros Hne. unfold relaxed.
  rewrite DictFacts.get_set_other by auto.
  destruct (Dict.get dest nt) as [e|]; auto.
  destruct (py_add w (fst e)); auto.
  now rewrite betterb_set_other.
Qed.

Section Relaxation.
Variables (w : num) (nb : string).

(** A property of the pair (table, flag) kept by every item whose sum is
    defined is kept by the loop, whether it ends or raises. *)
Lemma relax_loop_ind (P : Dict.t entry * bool -> Prop) nt :
  (forall acc dest dc via cand,
      In (dest, (dc, via)) nt -> py_add w dc = Ok cand ->
      P acc -> P (relax_entry nb dest cand acc)) ->
  forall acc res rt',
    P acc -> relax_loop w nb nt acc = (res, rt') ->
    exists m', P (rt', m') /\ forall m, res = Ok m -> m = m'.
Proof.
  induction nt as [|[dest [dc via]] nt IH]; intros Hstep acc res rt' Hacc H.
  - simpl in H. inversion H; subst. exists (snd acc).
    destruct acc; split; auto. intros m E. now inversion E.
  - cbn [relax_loop] in H.
    destruct (relax_item w nb acc (dest, (dc, via))) as [acc1|e] eqn:Hi.
    + apply relax_item_Ok in Hi. destruct Hi as (cand & Hadd & ->).
      eapply IH; [| |exact H].
      * intros a d0 dc0 via0 cand0 Hin. apply (Hstep a d0 dc0 via0).
        now right.
      * apply (Hstep acc dest dc via cand); auto. now left.
    + inversion H; subst. exists (snd acc).
      destruct acc; split; auto. discriminate.
Qed.

(** The same for a property of the table: it has to be kept by every
    assignment of line 73. *)
Lemma relax_loop_table_ind (Q : Dict.t entry -> Prop) nt :
  (forall rt dest dc via cand,
      In (dest, (dc, via)) nt -> py_add w dc = Ok cand ->
      Q rt -> betterb rt dest cand = true ->
      Q (Dict.set dest (cand, nb) rt)) ->
  forall acc res rt',
    Q (fst acc) -> relax_loop w nb nt acc = (res, rt') -> Q rt'.
Proof.
  intros Hstep acc res rt' Hacc H.
  destruct (relax_loop_ind (fun a => Q (fst a)) nt) with
    (acc := acc) (res := res) (rt' := rt') as (m' & HQ & _); auto.
  intros a dest dc via cand Hin Hadd Ha. rewrite relax_entry_fst.
  destruct (betterb (fst a) dest cand) eqn:E; eauto.
Qed.

(** The whole loop on a well-formed neighbour table, when no sum raises:
    it returns, and every destination of the table was tested against the
    entry the router had on entry. *)
Lemma relax_loop_spec nt :
  Dict.wf nt -> sums_defined w nt ->
  forall rt m res rt',
    relax_loop w nb nt (rt, m) = (res, rt') ->
    res = Ok (m || existsb (item_better rt w) nt) /\
    forall dest, Dict.get dest rt' = relaxed rt w nb nt dest.
Proof.
  unfold Dict.wf.
  induction nt as [|[d0 [dc0 via0]] nt IH]; intros Hwf Hdef rt m res rt' Hf.
  - simpl in Hf. inversion Hf; subst. simpl. now rewrite orb_false_r.
  - simpl in Hwf. inversion Hwf as [|? ? Hnotin Hwf']; subst.
    destruct (Hdef d0 dc0 via0 (or_introl eq_refl)) as [cand0 Hadd].
    assert (Hdef' : sums_defined w nt).
    { intros d dc via Hin. apply (Hdef d dc via). now right. }
    cbn [relax_loop] in Hf. unfold relax_item in Hf. rewrite Hadd in Hf.
    unfold relax_entry in Hf. cbn [fst] in Hf.
    apply DictFacts.get_None_keys in Hnotin.
    assert (Hib : item_better rt w (d0, (dc0, via0)) = betterb rt d0 cand0).
    { unfold item_better. simpl. now rewrite Hadd. }
    cbn [existsb]. rewrite Hib.
    destruct (betterb rt d0 cand0) eqn:Hb.
    + destruct (IH Hwf' Hdef' _ _ _ _ Hf) as [Hres Hget]. split.
      * rewrite Hres. simpl. now rewrite orb_true_r.
      * intros dest. rewrite Hget.
        destruct (String.eqb_spec dest d0) as [->|Hne].
        -- unfold relaxed. rewrite Hnotin. cbn [Dict.get].
           rewrite String.eqb_refl. simpl. rewrite Hadd, Hb.
           apply DictFacts.get_set_same.
        -- rewrite relaxed_set_other by auto.
           unfold relaxed. cbn [Dict.get].
           apply String.eqb_neq in Hne. now rewrite Hne.
    + destruct (IH Hwf' Hdef' _ _ _ _ Hf) as [Hres Hget]. split.
      * now rewrite Hres.
      * intros dest. rewrite Hget.
        destruct (String.eqb_spec dest d0) as [->|Hne].
        -- unfold relaxed. rewrite Hnotin. cbn [Dict.get].
           rewrite String.eqb_refl. simpl. now rewrite Hadd, Hb.
        -- unfold relaxed. cbn [Dict.get].
           apply String.eqb_neq in Hne. now rewrite Hne.
Qed.

(** The loop raises only [OverflowError], for an item whose sum raises
    it. *)
Lemma relax_loop_Raise nt :
  forall acc e rt',
    relax_loop w nb nt acc = (Raise e, rt') ->
    e = OverflowError /\
    exists dest dc via,
      In (dest, (dc, via)) nt /\ py_add w dc = Raise OverflowError.
Proof.
  induction nt as [|[dest [dc via]] nt IH]; intros acc e rt' H.
  - discriminate.
  - cbn [relax_loop] in H.
    destruct (relax_item w nb acc (dest, (dc, via))) as [acc1|e1] eqn:Hi.
    + destruct (IH _ _ _ H) as (He & d & c & v & Hin & Hadd).
      split; auto. exists d, c, v. split; auto. now right.
    + inversion H; subst. apply relax_item_Raise in Hi.
      pose proof (py_add_Raise _ _ _ Hi) as ->.
      split; auto. exists dest, dc, via. split; auto. now left.
Qed.

(** It does raise when the sum of some item raises. *)
Lemma relax_loop_overflow nt :
  (exists dest dc via e,
      In (dest, (dc, via)) nt /\ py_add w dc = Raise e) ->
  forall acc, exists rt', relax_loop w nb nt acc = (Raise OverflowError, rt').
Proof.
  induction nt as [|[d0 [dc0 via0]] nt IH];
    intros (dest & dc & via & e & Hin & Hadd) acc.
  - contradiction.
  - cbn [relax_loop].
    destruct (relax_item w nb acc (d0, (dc0, via0))) as [acc1|e1] eqn:Hi.
    + apply IH. exists dest, dc, via, e. split; auto.
      destruct Hin as [Heq|Hin]; auto.
      inversion Heq; subst. apply relax_item_Ok in Hi.
      destruct Hi as (cand & Hc & _). congruence.
    + apply relax_item_Raise in Hi.
      pose proof (py_add_Raise _ _ _ Hi) as ->. eauto.
Qed.

(** It returns only when every sum is defined. *)
Lemma relax_loop_Ok_defined nt acc m rt' :
  relax_loop w nb nt acc = (Ok m, rt') -> sums_defined w nt.
Proof.
  intros H dest dc via Hin.
  destruct (py_add w dc) as [cand|e] eqn:Hadd; eauto.
  destruct (relax_loop_overflow nt) with (acc := acc) as [rt1 H1].
  { exists dest, dc, via, e. auto. }
  congruence.
Qed.

(** It returns when every sum is defined. *)
Lemma relax_loop_defined nt :
  sums_defined w nt ->
  forall acc, exists m rt', relax_loop w nb nt acc = (Ok m, rt').
Proof.
  intros Hdef acc.
  destruct (relax_loop w nb nt acc) as [[m|e] rt'] eqn:H; eauto.
  apply relax_loop_Raise in H.
  destruct H as (_ & d & c & v & Hin & Hadd).
  destruct (Hdef _ _ _ Hin) as [cand Hc]. congruence.
Qed.

End Relaxation.

(** A relaxation, unfolded: the [KeyError] of the subscript, or the
    loop. *)
Lemma update_routing_table_inv neighbor nt self res self' :
  update_routing_table neighbor nt self = (res, self') ->
  (Dict.get neighbor (neighbors self) = None /\
   res = Raise (KeyError neighbor) /\ self' = self) \/
  (exists w, Dict.get neighbor (neighbors self) = Some w /\
     name self' = name self /\ neighbors self' = neighbors self /\
     relax_loop w neighbor nt (routing_table self, false)
       = (res, routing_table self')).
Proof.
  unfold update_routing_table.
  destruct (Dict.get neighbor (neighbors self)) as [w|].
  - destruct (relax_loop w neighbor nt (routing_table self, false))
      as [res0 rt] eqn:Hf.
    intros H. inversion H; subst. right. exists w. simpl. auto.
  - intros H. inversion H; subst. left. auto.
Qed.

(** A relaxation raises no [NetworkXError], and a [KeyError] only for its
    own argument. *)
Lemma update_routing_table_Raise neighbor nt self e self' :
  update_routing_table neighbor nt self = (Raise e, self') ->
  (e = KeyError neighbor /\ Dict.get neighbor (neighbors self) = None /\
   self' = self) \/
  (e = OverflowError /\
   exists w, Dict.get neighbor (neighbors self) = Some w).
Proof.
  intros H. apply update_routing_table_inv in H.
  destruct H as [(Hn & He & ->)|(w & Hw & _ & _ & Hf)].
  - left. inversion He. auto.
  - right. apply relax_loop_Raise in Hf. destruct Hf as [-> _]. eauto.
Qed.

(** ** Monotonicity of the relaxation *)

(** Entries present before a relaxation are present after it, with a cost
    that is not greater, whether the relaxation returns or raises. *)
Lemma update_routing_table_keeps neighbor nt self self' res d c h :
  update_routing_table neighbor nt self = (res, self') ->
  Dict.get d (routing_table self) = Some (c, h) ->
  exists c' h', Dict.get d (routing_table self') = Some (c', h') /\
                cost_le c' c.
Proof.
  intros Hupd Hget.
  apply update_routing_table_inv in Hupd.
  destruct Hupd as [(_ & _ & ->)|(w & _ & _ & _ & Hfold)].
  { exists c, h. split; auto. apply cost_le_refl. }
  revert Hfold.
  apply (relax_loop_table_ind w neighbor
           (fun rt => exists c' h', Dict.get d rt = Some (c', h') /\
                                    cost_le c' c)).
  - intros rt dest dc via cand _ _ (c' & h' & Hc' & Hle) Hb.
    rewrite DictFacts.get_set.
    destruct (String.eqb_spec d dest) as [->|Hne]; [|eauto].
    unfold betterb in Hb. rewrite Hc' in Hb.
    exists cand, neighbor. split; auto.
    eapply cost_le_trans; [apply py_lt_cost_le; exact Hb|exact Hle].
  - simpl. exists c, h. split; auto. apply cost_le_refl.
Qed.

(** A relaxation that reports no change has changed nothing. *)
Lemma update_routing_table_false neighbor nt self self' :
  update_routing_table neighbor nt self = (Ok false, self') ->
  self' = self.
Proof.
  intros Hupd. apply update_routing_table_inv in Hupd.
  destruct Hupd as [(_ & _ & ->)|(w & _ & Hname & Hnbs & Hfold)]; auto.
  destruct (relax_loop_ind w neighbor
              (fun acc => snd acc = false -> fst acc = routing_table self)
              nt) with (acc := (routing_table self, false))
                       (res := @Ok bool false)
                       (rt' := routing_table self')
    as (m' & HP & Hm); auto.
  - intros acc dest dc via cand _ _ Hacc. unfold relax_entry.
    destruct (betterb (fst acc) dest cand); auto. simpl. discriminate.
  - rewrite <- (Hm false eq_refl) in HP. specialize (HP eq_refl).
    simpl in HP. destruct self, self'; simpl in *; congruence.
Qed.

(** A relaxation that reports a change has added an entry or strictly
    lowered a cost. *)
Lemma update_routing_table_true neighbor nt self self' :
  update_routing_table neighbor nt self = (Ok true, self') ->
  exists d c' h', Dict.get d (routing_table self') = Some (c', h') /\
    match Dict.get d (routing_table self) with
    | None => True
    | Some (c, _) => py_lt c' c = true
    end.
Proof.
  intros Hupd. apply update_routing_table_inv in Hupd.
  destruct Hupd as [(_ & H & _)|(w & _ & _ & _ & Hfold)]; [discriminate|].
  destruct (relax_loop_ind w neighbor
    (fun acc =>
      (forall d c h, Dict.get d (routing_table self) = Some (c, h) ->
         exists c' h', Dict.get d (fst acc) = Some (c', h') /\
                       cost_le c' c) /\
      (snd acc = true ->
       exists d c' h', Dict.get d (fst acc) = Some (c', h') /\
         match Dict.get d (routing_table self) with
         | None => True
         | Some (c, _) => py_lt c' c = true
         end)) nt) with (acc := (routing_table self, false))
                        (res := @Ok bool true)
                        (rt' := routing_table self')
    as (m' & [_ HP] & Hm); auto.
  - intros acc dest dc via cand _ _ [Hkeep Hchg]. unfold relax_entry.
    destruct (betterb (fst acc) dest cand) eqn:Hb; [|split; auto].
    unfold betterb in Hb. split; simpl.
    + intros d c h Hd. destruct (Hkeep _ _ _ Hd) as (c' & h' & Hc' & Hle).
      rewrite DictFacts.get_set.
      destruct (String.eqb_spec d dest) as [->|Hne]; [|eauto].
      rewrite Hc' in Hb. exists cand, neighbor. split; auto.
      eapply cost_le_trans; [apply py_lt_cost_le; exact Hb|exact Hle].
    + intros _. exists dest, cand, neighbor.
      rewrite DictFacts.get_set_same. split; auto.
      destruct (Dict.get dest (routing_table self)) as [[c h]|] eqn:Hd; auto.
      destruct (Hkeep _ _ _ Hd) as (c' & h' & Hc' & Hle).
      rewrite Hc' in Hb. eapply py_lt_cost_le_trans; eauto.
  - split; simpl; [|discriminate].
    intros d c h Hd. exists c, h. split; auto. apply cost_le_refl.
  - rewrite <- (Hm true eq_refl) in HP. exact (HP eq_refl).
Qed.

(** ** The round loop *)

Ltac unfold_monad :=
  unfold bind, ret, raise, give, lookup_router, store_router in *.

(** The three ways of a pair step: the neighbour is no router, the router
    is no router, or the relaxation is run and its outcome stored. *)
Lemma relax_pair_inv router nb net res net' :
  relax_pair router nb net = (res, net') ->
  (Dict.get nb net = None /\ res = Raise (KeyError nb) /\ net' = net) \/
  (Dict.get router net = None /\ res = Raise (KeyError router) /\
   net' = net) \/
  (exists rnb self self',
     Dict.get nb net = Some rnb /\
     Dict.get router net = Some self /\
     update_routing_table nb (routing_table rnb) self = (res, self') /\
     net' = Dict.set router self' net).
Proof.
  unfold relax_pair, get_routing_table. unfold_monad.
  destruct (Dict.get nb net) as [rnb|] eqn:Hnb; [|inversion 1; auto].
  destruct (Dict.get router net) as [self|] eqn:Hself; [|inversion 1; auto].
  destruct (update_routing_table nb (routing_table rnb) self)
    as [res0 self'] eqn:Hupd.
  simpl. intros H. inversion H; subst. right. right. eauto 10.
Qed.

(** A pair step on two routers of the network. *)
Lemma relax_pair_eq router nb net rnb self :
  Dict.get nb net = Some rnb -> Dict.get router net = Some self ->
  relax_pair router nb net =
    (fst (update_routing_table nb (routing_table rnb) self),
     Dict.set router
       (snd (update_routing_table nb (routing_table rnb) self)) net).
Proof.
  intros Hnb Hself. unfold relax_pair, get_routing_table. unfold_monad.
  rewrite Hnb, Hself. reflexivity.
Qed.

(** A pair step that returns has read both routers, relaxed, and stored
    the result. *)
Lemma relax_pair_Ok router nb net m net' :
  relax_pair router nb net = (Ok m, net') ->
  exists rnb self self',
    Dict.get nb net = Some rnb /\
    Dict.get router net = Some self /\
    update_routing_table nb (routing_table rnb) self = (Ok m, self') /\
    net' = Dict.set router self' net.
Proof.
  intros H. apply relax_pair_inv in H.
  destruct H as [(_ & H & _)|[(_ & H & _)|H]]; try discriminate. exact H.
Qed.

(** Relations between the state before and after that every pair step
    establishes, whether it returns or raises, hold across the loops and
    across a round. *)
Section RoundRelation.
Variable R : Network -> Network -> Prop.
Hypothesis R_refl : forall net, R net net.
Hypothesis R_trans : forall a b c, R a b -> R b c -> R a c.
Hypothesis R_step : forall router nb net res net',
  relax_pair router nb net = (res, net') -> R net net'.

Lemma for_neighbors_rel router nbs :
  forall ch net res net',
    for_neighbors router nbs ch net = (res, net') -> R net net'.
Proof.
  induction nbs as [|nb nbs IH]; simpl; intros ch net res net' H.
  - inversion H; subst. apply R_refl.
  - unfold bind in H.
    destruct (relax_pair router nb net) as [[m|e] net1] eqn:Hp.
    + apply R_trans with net1; eauto.
    + inversion H; subst. eauto.
Qed.

Lemma for_routers_rel names :
  forall ch net res net',
    for_routers names ch net = (res, net') -> R net net'.
Proof.
  induction names as [|router names IH]; simpl; intros ch net res net' H.
  - inversion H; subst. apply R_refl.
  - unfold bind, lookup_router in H.
    destruct (Dict.get router net) as [r|].
    2:{ inversion H; subst. apply R_refl. }
    destruct (for_neighbors router (Dict.keys (neighbors r)) ch net)
      as [[ch1|e] net1] eqn:Hn.
    + apply R_trans with net1; eauto using for_neighbors_rel.
    + inversion H; subst. eauto using for_neighbors_rel.
Qed.

Lemma run_round_rel net res net' :
  run_round net = (res, net') -> R net net'.
Proof. unfold run_round. apply for_routers_rel. Qed.

Lemma rounds_rel n : forall net net', rounds n net = Some net' -> R net net'.
Proof.
  induction n as [|n IH]; simpl; intros net net' H.
  - inversion H; subst. apply R_refl.
  - destruct (run_round net) as [[ch|e] net1] eqn:Hr; [|discriminate].
    apply R_trans with net1; eauto using run_round_rel.
Qed.

Lemma simulate_loop_rel budget :
  forall iter out net res net' out',
    simulate_loop budget iter out net = (res, net', out') -> R net net'.
Proof.
  induction budget as [|budget IH]; intros iter out net res net' out' H.
  - inversion H; subst. apply R_refl.
  - cbn [simulate_loop] in H.
    destruct (run_round net) as [[ch|e] net1] eqn:Hr.
    + pose proof (run_round_rel _ _ _ Hr) as H1.
      destruct ch.
      * eapply R_trans; [exact H1|]. eapply IH; eauto.
      * inversion H; subst. exact H1.
    + inversion H; subst. exact (run_round_rel _ _ _ Hr).
Qed.

Lemma simulate_rel max_iterations net res net' out :
  simulate max_iterations net = (res, net', out) -> R net net'.
Proof.
  unfold simulate, visualize_network.
  destruct (find _ (Dict.keys net)) as [node|].
  - intros H. inversion H; subst. apply R_refl.
  - destruct (simulate_loop (Z.to_nat max_iterations) 0 [PrintStart] net)
      as [[[ex|e] net1] out1] eqn:Hloop; intros H; inversion H; subst;
      eapply simulate_loop_rel; eauto.
Qed.

End RoundRelation.

Lemma route_set k r net u d :
  route (Dict.set k r net) u d =
    if String.eqb u k then Dict.get d (routing_table r) else route net u d.
Proof.
  unfold route. rewrite DictFacts.get_set.
  now destruct (String.eqb u k).
Qed.

Lemma improves_on_refl net : improves_on net net.
Proof. intros u d c h H. exists c, h. split; auto. apply cost_le_refl. Qed.

Lemma improves_on_trans a b c :
  improves_on a b -> improves_on b c -> improves_on a c.
Proof.
  intros Hab Hbc u d c0 h H.
  destruct (Hab _ _ _ _ H) as (c1 & h1 & H1 & Hle1).
  destruct (Hbc _ _ _ _ H1) as (c2 & h2 & H2 & Hle2).
  exists c2, h2. split; auto. eapply cost_le_trans; eauto.
Qed.

Lemma relax_pair_improves router nb net res net' :
  relax_pair router nb net = (res, net') -> improves_on net net'.
Proof.
  intros Hp. apply relax_pair_inv in Hp.
  destruct Hp as [(_ & _ & ->)|[(_ & _ & ->)|
    (rnb & self & self' & Hnb & Hself & Hupd & ->)]];
    try apply improves_on_refl.
  intros u d c h H. rewrite route_set.
  destruct (String.eqb_spec u router) as [->|Hne];
    [|exists c, h; split; auto; apply cost_le_refl].
  unfold route in H. rewrite Hself in H.
  eapply update_routing_table_keeps; eauto.
Qed.

#[local] Hint Resolve improves_on_refl improves_on_trans
  relax_pair_improves : dv.

Lemma for_neighbors_improves router nbs ch net res net' :
  for_neighbors router nbs ch net = (res, net') -> improves_on net net'.
Proof. apply for_neighbors_rel; eauto with dv. Qed.

Lemma for_routers_improves names ch net res net' :
  for_routers names ch net = (res, net') -> improves_on net net'.
Proof. apply for_routers_rel; eauto with dv. Qed.

Lemma run_round_improves net res net' :
  run_round net = (res, net') -> improves_on net net'.
Proof. apply run_round_rel; eauto with dv. Qed.

Lemma rounds_improves n net net' :
  rounds n net = Some net' -> improves_on net net'.
Proof. apply rounds_rel; eauto with dv. Qed.

Lemma rounds_add i k : forall net net_i,
  rounds i net = Some net_i -> rounds (i + k) net = rounds k net_i.
Proof.
  induction i as [|i IH]; simpl; intros net net_i H.
  - now inversion H.
  - destruct (run_round net) as [[ch|e] net1]; [|discriminate]. auto.
Qed.

(** ** Rounds without change *)

Lemma strictly_improves_neq net net' :
  strictly_improves net net' -> net' <> net.
Proof.
  intros (u & d & c' & h' & H' & H) ->. rewrite H' in H.
  rewrite py_lt_irrefl in H. discriminate.
Qed.

Lemma strictly_then_improves a b c :
  strictly_improves a b -> improves_on b c -> strictly_improves a c.
Proof.
  intros (u & d & c1 & h1 & H1 & H) Hbc.
  destruct (Hbc _ _ _ _ H1) as (c2 & h2 & H2 & Hle).
  exists u, d, c2, h2. split; auto.
  destruct (route a u d) as [[c0 h0]|]; auto.
  eapply cost_le_lt_trans; eauto.
Qed.

Lemma improves_then_strictly a b c :
  improves_on a b -> strictly_improves b c -> strictly_improves a c.
Proof.
  intros Hab (u & d & c2 & h2 & H2 & H).
  exists u, d, c2, h2. split; auto.
  destruct (route a u d) as [[c0 h0]|] eqn:Ha; auto.
  destruct (Hab _ _ _ _ Ha) as (c1 & h1 & H1 & Hle).
  rewrite H1 in H. eapply py_lt_cost_le_trans; eauto.
Qed.

Lemma relax_pair_false router nb net net' :
  relax_pair router nb net = (Ok false, net') -> net' = net.
Proof.
  intros Hp. apply relax_pair_Ok in Hp.
  destruct Hp as (rnb & self & self' & Hnb & Hself & Hupd & ->).
  apply update_routing_table_false in Hupd. subst self'.
  now apply DictFacts.set_get_id.
Qed.

Lemma relax_pair_true router nb net net' :
  relax_pair router nb net = (Ok true, net') -> strictly_improves net net'.
Proof.
  intros Hp. apply relax_pair_Ok in Hp.
  destruct Hp as (rnb & self & self' & Hnb & Hself & Hupd & ->).
  apply update_routing_table_true in Hupd.
  destruct Hupd as (d & c' & h' & Hd' & Hd).
  exists router, d, c', h'. rewrite route_set, String.eqb_refl.
  split; auto. unfold route. now rewrite Hself.
Qed.

Lemma for_neighbors_false router nbs :
  forall ch net net',
    for_neighbors router nbs ch net = (Ok false, net') ->
    ch = false /\ net' = net /\
    Forall (fun nb => relax_pair router nb net = (Ok false, net)) nbs.
Proof.
  induction nbs as [|nb nbs IH]; simpl; intros ch net net' H.
  - inversion H; subst. auto.
  - unfold bind in H.
    destruct (relax_pair router nb net) as [[m|e] net1] eqn:Hp;
      [|discriminate].
    apply IH in H. destruct H as (Hch & -> & Hall).
    destruct m; [discriminate|].
    pose proof (relax_pair_false _ _ _ _ Hp) as ->. auto.
Qed.

Lemma for_routers_false names :
  forall ch net net',
    for_routers names ch net = (Ok false, net') ->
    ch = false /\ net' = net /\ Forall (quiet_router net) names.
Proof.
  induction names as [|router names IH]; simpl; intros ch net net' H.
  - inversion H; subst. auto.
  - unfold bind, lookup_router in H.
    destruct (Dict.get router net) as [r|] eqn:Hr; [|discriminate].
    destruct (for_neighbors router (Dict.keys (neighbors r)) ch net)
      as [[ch1|e] net1] eqn:Hn; [|discriminate].
    apply IH in H. destruct H as (-> & -> & Hall).
    apply for_neighbors_false in Hn. destruct Hn as (-> & -> & Hq).
    repeat split; auto. constructor; auto. exists r. auto.
Qed.

Lemma run_round_false net net' :
  run_round net = (Ok false, net') ->
  net' = net /\ Forall (quiet_router net) (Dict.keys net).
Proof.
  unfold run_round. intros H. apply for_routers_false in H. tauto.
Qed.

Lemma for_neighbors_true router nbs :
  forall ch net net',
    for_neighbors router nbs ch net = (Ok true, net') ->
    ch = true \/ strictly_improves net net'.
Proof.
  induction nbs as [|nb nbs IH]; simpl; intros ch net net' H.
  - inversion H; subst. auto.
  - unfold bind in H.
    destruct (relax_pair router nb net) as [[m|e] net1] eqn:Hp;
      [|discriminate].
    pose proof (for_neighbors_improves _ _ _ _ _ _ H) as Himp.
    apply IH in H. destruct H as [H|H].
    + destruct m; auto. right.
      eapply strictly_then_improves; eauto using relax_pair_true.
    + right. eapply improves_then_strictly; [|eassumption].
      eapply relax_pair_improves; eassumption.
Qed.

Lemma for_routers_true names :
  forall ch net net',
    for_routers names ch net = (Ok true, net') ->
    ch = true \/ strictly_improves net net'.
Proof.
  induction names as [|router names IH]; simpl; intros ch net net' H.
  - inversion H; subst. auto.
  - unfold bind, lookup_router in H.
    destruct (Dict.get router net) as [r|] eqn:Hr; [|discriminate].
    destruct (for_neighbors router (Dict.keys (neighbors r)) ch net)
      as [[ch1|e] net1] eqn:Hn; [|discriminate].
    pose proof (for_routers_improves _ _ _ _ _ H) as Himp.
    pose proof (for_neighbors_improves _ _ _ _ _ _ Hn) as Himp0.
    apply IH in H. destruct H as [->|H].
    + apply for_neighbors_true in Hn. destruct Hn as [Hn|Hn]; auto.
      right. eapply strictly_then_improves; eauto.
    + right. eapply improves_then_strictly; eauto.
Qed.

Lemma run_round_true net net' :
  run_round net = (Ok true, net') -> strictly_improves net net'.
Proof.
  unfold run_round. intros H. apply for_routers_true in H.
  destruct H as [H|H]; [discriminate|assumption].
Qed.

(** ** Building the topology *)

Lemma link_set k r net u v :
  link (Dict.set k r net) u v =
    if String.eqb u k then Dict.get v (neighbors r) else link net u v.
Proof.
  unfold link. rewrite DictFacts.get_set. now destruct (String.eqb u k).
Qed.

(** [add_link] when both subscripts succeed: first [router1] is written,
    then [router2] is read (after that write) and written. *)
Lemma add_link_Ok u v c net ru rv :
  Dict.get u net = Some ru ->
  Dict.get v (Dict.set u (add_neighbor v c ru) net) = Some rv ->
  add_link u v c net =
    (Ok tt, Dict.set v (add_neighbor u c rv)
              (Dict.set u (add_neighbor v c ru) net)).
Proof.
  intros Hu Hv. unfold add_link. unfold_monad. now rewrite Hu, Hv.
Qed.

Lemma add_link_inv u v c net net' :
  add_link u v c net = (Ok tt, net') ->
  exists ru rv,
    Dict.get u net = Some ru /\
    Dict.get v (Dict.set u (add_neighbor v c ru) net) = Some rv /\
    net' = Dict.set v (add_neighbor u c rv)
             (Dict.set u (add_neighbor v c ru) net).
Proof.
  unfold add_link. unfold_monad.
  destruct (Dict.get u net) as [ru|] eqn:Hu; [|discriminate].
  destruct (Dict.get v (Dict.set u (add_neighbor v c ru) net)) as [rv|] eqn:Hv;
    [|discriminate].
  intros H. inversion H; subst. eauto.
Qed.

(** The links after an [add_link] that returns. *)
Lemma link_add_link u v c net net' :
  add_link u v c net = (Ok tt, net') ->
  forall x y,
    link net' x y =
      if (String.eqb x u && String.eqb y v)
         || (String.eqb x v && String.eqb y u)
      then Some c
      else link net x y.
Proof.
  intros H x y. apply add_link_inv in H.
  destruct H as (ru & rv & Hu & Hv & ->).
  rewrite !link_set. rewrite DictFacts.get_set in Hv.
  unfold add_neighbor at 1; simpl.
  destruct (String.eqb_spec x v) as [Hxv|Hxv];
    destruct (String.eqb_spec x u) as [Hxu|Hxu]; subst; simpl.
  - rewrite String.eqb_refl in Hv. inversion Hv; subst rv. simpl.
    rewrite !DictFacts.get_set. destruct (String.eqb y u); auto.
    simpl. unfold link. now rewrite Hu.
  - destruct (String.eqb_spec v u) as [->|Hvu]; [contradiction|].
    rewrite DictFacts.get_set. destruct (String.eqb y u); auto.
    unfold link. now rewrite Hv.
  - rewrite DictFacts.get_set. destruct (String.eqb y v); auto.
    rewrite orb_false_r. unfold link. now rewrite Hu.
  - reflexivity.
Qed.

Lemma mem_add_link u v c net net' :
  add_link u v c net = (Ok tt, net') ->
  forall x, Dict.mem x net' = Dict.mem x net.
Proof.
  intros H x. apply add_link_inv in H.
  destruct H as (ru & rv & Hu & Hv & ->).
  unfold Dict.mem. rewrite DictFacts.get_set in Hv.
  rewrite !DictFacts.get_set.
  destruct (String.eqb_spec x v) as [->|Hxv].
  - destruct (String.eqb_spec v u) as [->|Hvu];
      [now rewrite Hu|now rewrite Hv].
  - destruct (String.eqb_spec x u) as [->|Hxu]; [now rewrite Hu|reflexivity].
Qed.

Lemma symmetric_link net :
  symmetric net <->
  (forall x y, Dict.mem x net = true -> Dict.mem y net = true ->
     link net x y = link net y x).
Proof.
  unfold symmetric, link, Dict.mem. split.
  - intros H x y Hx Hy.
    destruct (Dict.get x net) as [rx|] eqn:Ex; [|discriminate].
    destruct (Dict.get y net) as [ry|] eqn:Ey; [|discriminate]. eauto.
  - intros H u v ru rv Hu Hv.
    specialize (H u v). rewrite Hu, Hv in H. auto.
Qed.

(** [add_link] between two routers of the network. *)
Lemma add_link_both_present net u v c ru rv :
  Dict.get u net = Some ru -> Dict.get v net = Some rv ->
  exists net',
    add_link u v c net = (Ok tt, net') /\
    link net' u v = Some c /\ link net' v u = Some c /\
    (forall x, x <> u -> x <> v -> Dict.get x net' = Dict.get x net) /\
    (symmetric net -> symmetric net').
Proof.
  intros Hu Hv.
  assert (Hv1 : exists rv1,
    Dict.get v (Dict.set u (add_neighbor v c ru) net) = Some rv1).
  { rewrite DictFacts.get_set. destruct (String.eqb v u); eauto. }
  destruct Hv1 as [rv1 Hv1].
  pose proof (@add_link_Ok u v c net ru rv1 Hu Hv1) as Hadd.
  eexists. split; [exact Hadd|].
  pose proof (link_add_link _ _ _ _ _ Hadd) as Hlink.
  pose proof (mem_add_link _ _ _ _ _ Hadd) as Hmem.
  repeat split.
  - rewrite Hlink, !String.eqb_refl. reflexivity.
  - rewrite Hlink, !String.eqb_refl. simpl. now rewrite orb_true_r.
  - intros x Hxu Hxv. now rewrite !DictFacts.get_set_other.
  - rewrite !symmetric_link. intros Hsym x y Hx Hy.
    rewrite Hmem in Hx, Hy. rewrite !Hlink.
    rewrite (Hsym x y Hx Hy).
    destruct (String.eqb x u), (String.eqb y v), (String.eqb x v),
      (String.eqb y u); reflexivity.
Qed.

(** The symmetry invariant is kept by every [add_link] call that
    returns. *)
Lemma symmetric_add_link u v c net net' :
  symmetric net -> add_link u v c net = (Ok tt, net') -> symmetric net'.
Proof.
  intros Hsym Hadd. pose proof (add_link_inv _ _ _ _ _ Hadd) as Hinv.
  destruct Hinv as (ru & rv1 & Hu & Hv1 & _).
  assert (Hv : exists rv, Dict.get v net = Some rv).
  { rewrite DictFacts.get_set in Hv1.
    destruct (String.eqb_spec v u) as [->|Hne]; eauto. }
  destruct Hv as [rv Hv].
  destruct (@add_link_both_present net u v c ru rv Hu Hv)
    as (net2 & Hadd2 & _ & _ & _ & Hs).
  rewrite Hadd in Hadd2. inversion Hadd2; subst. auto.
Qed.

(** ** The topology is fixed during rounds, and closed networks do not
    raise *)

Lemma topo_set k r r' net :
  Dict.get k net = Some r ->
  name r' = name r -> neighbors r' = neighbors r ->
  topo (Dict.set k r' net) = topo net.
Proof.
  intros Hget Hname Hnbs. unfold topo.
  induction net as [|[k0 r0] net IH]; simpl in *; [discriminate|].
  destruct (String.eqb k k0) eqn:E; simpl.
  - inversion Hget; subst. now rewrite Hname, Hnbs.
  - now rewrite IH.
Qed.

Lemma get_topo k net :
  Dict.get k (topo net) =
    option_map (fun r => (name r, neighbors r)) (Dict.get k net).
Proof.
  unfold topo. induction net as [|[k0 r0] net IH]; simpl; auto.
  destruct (String.eqb k k0); auto.
Qed.

Lemma keys_topo net : Dict.keys (topo net) = Dict.keys net.
Proof. unfold topo, Dict.keys. rewrite map_map. reflexivity. Qed.

Lemma topo_neighbors net net' k r :
  topo net' = topo net -> Dict.get k net = Some r ->
  exists r', Dict.get k net' = Some r' /\
             name r' = name r /\ neighbors r' = neighbors r.
Proof.
  intros Ht Hget. pose proof (get_topo k net') as H'.
  rewrite Ht, get_topo, Hget in H'. simpl in H'.
  destruct (Dict.get k net') as [r'|]; [|discriminate].
  simpl in H'. inversion H'. eauto.
Qed.

Lemma topo_link net net' u v :
  topo net' = topo net -> link net' u v = link net u v.
Proof.
  intros Ht. unfold link.
  destruct (Dict.get u net) as [r|] eqn:Hu.
  - destruct (topo_neighbors _ _ _ _ Ht Hu) as (r' & -> & _ & ->). reflexivity.
  - destruct (Dict.get u net') as [r'|] eqn:Hu'; auto.
    symmetry in Ht.
    destruct (topo_neighbors _ _ _ _ Ht Hu') as (r & Hr & _). congruence.
Qed.

Lemma topo_link_cost net net' u v :
  topo net' = topo net -> link_cost net' u v = link_cost net u v.
Proof. intros Ht. unfold link_cost. now rewrite (topo_link _ _ u v Ht). Qed.

Lemma topo_walk_cost net net' :
  topo net' = topo net ->
  forall p u, walk_cost net' u p = walk_cost net u p.
Proof.
  intros Ht. induction p as [|v p IH]; simpl; intros u; auto.
  now rewrite (topo_link_cost _ _ _ _ Ht), IH.
Qed.

Lemma topo_closed net net' : topo net' = topo net -> closed net -> closed net'.
Proof.
  intros Ht Hc u v w Hl. rewrite (topo_link _ _ _ _ Ht) in Hl.
  destruct (Hc _ _ _ Hl) as [r Hr].
  destruct (topo_neighbors _ _ _ _ Ht Hr) as (r' & Hr' & _). eauto.
Qed.

Lemma topo_mem net net' k :
  topo net' = topo net -> Dict.mem k net' = Dict.mem k net.
Proof.
  intros Ht. unfold Dict.mem.
  pose proof (get_topo k net') as H'. rewrite Ht, get_topo in H'.
  destruct (Dict.get k net'), (Dict.get k net); simpl in H';
    auto; discriminate.
Qed.

Lemma mem_get {V : Type} k (d : Dict.t V) :
  Dict.mem k d = true <-> exists v, Dict.get k d = Some v.
Proof.
  unfold Dict.mem. destruct (Dict.get k d).
  - split; eauto.
  - split; [discriminate|]. intros [v H]. discriminate.
Qed.

Lemma mem_false_get {V : Type} k (d : Dict.t V) :
  Dict.mem k d = false <-> Dict.get k d = None.
Proof.
  unfold Dict.mem. destruct (Dict.get k d); split; auto; discriminate.
Qed.

Lemma topo_keys net net' :
  topo net' = topo net -> Dict.keys net' = Dict.keys net.
Proof. intros Ht. now rewrite <- keys_topo, Ht, keys_topo. Qed.

Lemma topo_length net net' :
  topo net' = topo net -> List.length net' = List.length net.
Proof.
  intros Ht. rewrite <- (length_map fst net'), <- (length_map fst net).
  change (List.length (Dict.keys net') = List.length (Dict.keys net)).
  now rewrite (topo_keys _ _ Ht).
Qed.

(** A pair step leaves the topology alone, whether it returns or
    raises. *)
Lemma relax_pair_topo router nb net res net' :
  relax_pair router nb net = (res, net') -> topo net' = topo net.
Proof.
  intros Hp. apply relax_pair_inv in Hp.
  destruct Hp as [(_ & _ & ->)|[(_ & _ & ->)|
    (rnb & self & self' & Hnb & Hself & Hupd & ->)]]; auto.
  apply update_routing_table_inv in Hupd.
  destruct Hupd as [(_ & _ & ->)|(w & _ & Hname & Hnbs & _)].
  - now rewrite DictFacts.set_get_id.
  - eapply topo_set; eauto.
Qed.

Lemma same_topo_refl net : same_topo net net.
Proof. reflexivity. Qed.

Lemma same_topo_trans a b c : same_topo a b -> same_topo b c -> same_topo a c.
Proof. unfold same_topo. congruence. Qed.

Lemma for_neighbors_topo router nbs ch net res net' :
  for_neighbors router nbs ch net = (res, net') -> topo net' = topo net.
Proof.
  apply (for_neighbors_rel same_topo same_topo_refl same_topo_trans).
  intros. eapply relax_pair_topo; eauto.
Qed.

Lemma run_round_topo net res net' :
  run_round net = (res, net') -> topo net' = topo net.
Proof.
  apply (run_round_rel same_topo same_topo_refl same_topo_trans).
  intros. eapply relax_pair_topo; eauto.
Qed.

Lemma rounds_topo n net net' : rounds n net = Some net' -> topo net' = topo net.
Proof.
  apply (rounds_rel same_topo same_topo_refl same_topo_trans).
  intros. eapply relax_pair_topo; eauto.
Qed.

Lemma simulate_loop_topo budget iter out net res net' out' :
  simulate_loop budget iter out net = (res, net', out') ->
  topo net' = topo net.
Proof.
  apply (simulate_loop_rel same_topo same_topo_refl same_topo_trans).
  intros. eapply relax_pair_topo; eauto.
Qed.

(** ** When a round raises *)

(** A pair step over a neighbour of the router raises [OverflowError], or
    [KeyError] for a neighbour that is not a router, before anything is
    written. *)
Lemma relax_pair_Raise router nb net e net' r :
  relax_pair router nb net = (Raise e, net') ->
  Dict.get router net = Some r ->
  In nb (Dict.keys (neighbors r)) ->
  e = OverflowError \/
  (e = KeyError nb /\ Dict.get nb net = None /\ net' = net).
Proof.
  intros Hp Hr Hin.
  destruct (DictFacts.keys_get _ _ _ Hin) as [w Hw].
  apply relax_pair_inv in Hp.
  destruct Hp as [(Hn & He & ->)|[(Hn & _)|
    (rnb & self & self' & Hnb & Hself & Hupd & ->)]].
  - right. inversion He. auto.
  - congruence.
  - rewrite Hr in Hself. inversion Hself; subst self.
    apply update_routing_table_Raise in Hupd.
    destruct Hupd as [(_ & Hn & _)|[He _]]; [congruence|now left].
Qed.

Lemma for_neighbors_Raise router nbs :
  forall ch net e net' r,
    for_neighbors router nbs ch net = (Raise e, net') ->
    Dict.get router net = Some r ->
    incl nbs (Dict.keys (neighbors r)) ->
    e = OverflowError \/
    exists k, e = KeyError k /\ In k nbs /\ Dict.get k net = None.
Proof.
  induction nbs as [|nb nbs IH]; simpl; intros ch net e net' r H Hr Hincl.
  - discriminate.
  - unfold bind in H.
    destruct (relax_pair router nb net) as [[m|e0] net1] eqn:Hp.
    + pose proof (relax_pair_topo _ _ _ _ _ Hp) as Ht.
      destruct (topo_neighbors _ _ _ _ Ht Hr) as (r1 & Hr1 & _ & Hn1).
      destruct (IH _ _ _ _ r1 H Hr1) as [He|(k & He & Hin & Hnone)].
      { rewrite Hn1. intros x Hx. apply Hincl. now right. }
      * now left.
      * right. exists k. split; auto. split; [now right|].
        apply mem_false_get. rewrite <- (topo_mem _ _ k Ht).
        now apply mem_false_get.
    + inversion H; subst e0 net1.
      destruct (relax_pair_Raise _ _ _ _ _ r Hp Hr)
        as [He|(He & Hnone & _)].
      { apply Hincl. now left. }
      * now left.
      * right. exists nb. split; auto.
Qed.

Lemma for_routers_Raise names :
  forall ch net e net',
    for_routers names ch net = (Raise e, net') ->
    incl names (Dict.keys net) ->
    e = OverflowError \/
    exists k, e = KeyError k /\ Dict.get k net = None /\
              exists u w, link net u k = Some w.
Proof.
  induction names as [|router names IH]; simpl; intros ch net e net' H Hincl.
  - discriminate.
  - destruct (DictFacts.keys_get _ router net) as [r Hr].
    { apply Hincl. now left. }
    unfold bind, lookup_router in H. rewrite Hr in H.
    destruct (for_neighbors router (Dict.keys (neighbors r)) ch net)
      as [[ch1|e0] net1] eqn:Hn.
    + pose proof (for_neighbors_topo _ _ _ _ _ _ Hn) as Ht.
      destruct (IH _ _ _ _ H) as [He|(k & He & Hnone & u & w & Hl)].
      { rewrite (topo_keys _ _ Ht).
        intros x Hx. apply Hincl. now right. }
      * now left.
      * right. exists k. split; auto. split.
        -- apply mem_false_get. rewrite <- (topo_mem _ _ k Ht).
           now apply mem_false_get.
        -- exists u, w. now rewrite <- (topo_link _ _ u k Ht).
    + inversion H; subst e0 net1.
      destruct (for_neighbors_Raise _ _ _ _ _ _ r Hn Hr (incl_refl _))
        as [He|(k & He & Hin & Hnone)]; [now left|].
      right. exists k. split; auto. split; auto.
      destruct (DictFacts.keys_get _ _ _ Hin) as [w Hw].
      exists router, w. unfold link. now rewrite Hr.
Qed.

(** A round raises [OverflowError], or [KeyError] for a neighbour that is
    not a router. *)
Lemma run_round_Raise net e net' :
  run_round net = (Raise e, net') ->
  e = OverflowError \/
  exists k, e = KeyError k /\ Dict.get k net = None /\
            exists u w, link net u k = Some w.
Proof.
  unfold run_round. intros H.
  eapply for_routers_Raise; eauto using incl_refl.
Qed.

Lemma for_neighbors_Ok_present router nbs :
  forall ch net ch' net',
    for_neighbors router nbs ch net = (Ok ch', net') ->
    forall nb, In nb nbs -> Dict.mem nb net = true.
Proof.
  induction nbs as [|nb nbs IH]; simpl; intros ch net ch' net' H x Hx.
  - contradiction.
  - unfold bind in H.
    destruct (relax_pair router nb net) as [[m|e0] net1] eqn:Hp;
      [|discriminate].
    destruct Hx as [<-|Hx].
    + apply relax_pair_Ok in Hp.
      destruct Hp as (rnb & _ & _ & Hnb & _).
      apply mem_get. eauto.
    + rewrite <- (topo_mem _ _ x (relax_pair_topo _ _ _ _ _ Hp)). eauto.
Qed.

Lemma for_routers_Ok_present names :
  forall ch net ch' net',
    for_routers names ch net = (Ok ch', net') ->
    forall router r nb,
      In router names -> Dict.get router net = Some r ->
      In nb (Dict.keys (neighbors r)) -> Dict.mem nb net = true.
Proof.
  induction names as [|router names IH]; simpl;
    intros ch net ch' net' H x rx nb Hx Hrx Hnb.
  - contradiction.
  - unfold bind, lookup_router in H.
    destruct (Dict.get router net) as [r|] eqn:Hr; [|discriminate].
    destruct (for_neighbors router (Dict.keys (neighbors r)) ch net)
      as [[ch1|e0] net1] eqn:Hn; [|discriminate].
    pose proof (for_neighbors_topo _ _ _ _ _ _ Hn) as Ht.
    destruct Hx as [<-|Hx].
    + rewrite Hr in Hrx. inversion Hrx; subst rx.
      eapply for_neighbors_Ok_present; eauto.
    + destruct (topo_neighbors _ _ _ _ Ht Hrx) as (r1 & Hr1 & _ & Hn1).
      rewrite <- (topo_mem _ _ nb Ht).
      eapply IH; eauto. now rewrite Hn1.
Qed.

(** A round that returns has found every neighbour among the routers. *)
Lemma run_round_Ok_closed net changes net' :
  run_round net = (Ok changes, net') -> closed net.
Proof.
  intros Hr u v w Hl. unfold link in Hl.
  destruct (Dict.get u net) as [r|] eqn:Hu; [|discriminate].
  apply mem_get.
  eapply (for_routers_Ok_present _ _ _ _ _ Hr u r v); eauto.
  - eapply DictFacts.get_Some_keys; eauto.
  - eapply DictFacts.get_Some_keys; eauto.
Qed.

(** On a closed network a round raises nothing but [OverflowError]. *)
Lemma run_round_closed_Raise net e net' :
  closed net -> run_round net = (Raise e, net') -> e = OverflowError.
Proof.
  intros Hc Hr. apply run_round_Raise in Hr.
  destruct Hr as [He|(k & _ & Hnone & u & w & Hl)]; auto.
  destruct (Hc _ _ _ Hl) as [r Hr]. congruence.
Qed.

(** ** The [while] loop of [simulate] *)

Lemma display_not_converged l :
  ~ In PrintConverged (map display_routing_table l).
Proof.
  intros H. apply in_map_iff in H. destruct H as (r & Hr & _). discriminate.
Qed.

Lemma display_not_max l :
  ~ In PrintMaxIterations (map display_routing_table l).
Proof.
  intros H. apply in_map_iff in H. destruct H as (r & Hr & _). discriminate.
Qed.

(** How the loop is left: it has run [n] rounds within its budget that all
    returned.  Either it returns, and then its last round was quiet (flag
    [converged]) or the budget is used up and every round reported a
    change; or its next round raised. *)
Lemma simulate_loop_spec budget :
  forall iter out net res net' out',
    simulate_loop budget iter out net = (res, net', out') ->
    exists tail n,
      out' = out ++ tail /\ (n <= budget)%nat /\
      ~ In PrintMaxIterations tail /\
      match res with
      | Ok ex =>
          iteration ex = iter + Z.of_nat n /\
          rounds n net = Some net' /\
          if converged ex
          then (exists k, n = S k /\ all_changed k net = true) /\
               run_round net' = (Ok false, net') /\
               In PrintConverged tail
          else n = budget /\ all_changed budget net = true /\
               ~ In PrintConverged tail
      | Raise e =>
          (n < budget)%nat /\ all_changed n net = true /\
          ~ In PrintConverged tail /\
          exists net_n, rounds n net = Some net_n /\
                        run_round net_n = (Raise e, net')
      end.
Proof.
  induction budget as [|budget IH]; intros iter out net res net' out' H.
  - simpl in H. inversion H; subst. exists [], O. simpl.
    rewrite app_nil_r, Z.add_0_r. repeat split; auto.
  - cbn [simulate_loop] in H.
    destruct (run_round net) as [[ch|e] net1] eqn:Hr.
    + destruct ch.
      * apply IH in H.
        destruct H as (tail & n & -> & Hle & Hmax & Hres).
        exists ([PrintIteration (iter + 1)] ++
                map display_routing_table (Dict.values net1) ++ tail), (S n).
        split; [now rewrite <- !app_assoc|].
        split; [lia|]. split.
        { simpl. intros [H0|H0]; [discriminate|].
          apply in_app_or in H0. destruct H0 as [H0|H0]; auto.
          now apply display_not_max in H0. }
        assert (Hnot : ~ In PrintConverged tail ->
                  ~ In PrintConverged
                      ([PrintIteration (iter + 1)] ++
                       map display_routing_table (Dict.values net1) ++ tail)).
        { intros Hn. simpl. intros [H0|H0]; [discriminate|].
          apply in_app_or in H0. destruct H0 as [H0|H0]; auto.
          now apply display_not_converged in H0. }
        destruct res as [ex|e].
        -- destruct Hres as (Hiter & Hrounds & Hout).
           split; [lia|]. split; [simpl; now rewrite Hr|].
           destruct (converged ex).
           ++ destruct Hout as ((k & -> & Hall) & Hq & Hin).
              repeat split; auto.
              ** exists (S k). split; auto. simpl. now rewrite Hr.
              ** simpl. right. apply in_or_app. now right.
           ++ destruct Hout as (-> & Hall & Hn). repeat split; auto.
              simpl. now rewrite Hr.
        -- destruct Hres as (Hlt & Hall & Hn & net_n & Hrounds & Hraise).
           split; [lia|]. split; [simpl; now rewrite Hr|].
           split; [auto|]. exists net_n. split; auto.
           simpl. now rewrite Hr.
      * inversion H; subst.
        destruct (run_round_false net net' Hr) as [-> _].
        exists ([PrintIteration (iter + 1)] ++
                map display_routing_table (Dict.values net) ++
                [PrintConverged]), 1%nat.
        split; [now rewrite <- !app_assoc|].
        split; [lia|]. split.
        { simpl. intros [H0|H0]; [discriminate|].
          apply in_app_or in H0. destruct H0 as [H0|[H0|[]]]; [|discriminate].
          now apply display_not_max in H0. }
        simpl. split; [lia|]. split; [now rewrite Hr|].
        repeat split; auto.
        -- exists O. auto.
        -- right. apply in_or_app. right. now left.
    + inversion H; subst.
      exists [PrintIteration (iter + 1)], O.
      split; auto. split; [lia|]. split.
      { simpl. intros [H0|[]]. discriminate. }
      split; [lia|]. split; auto. split.
      { simpl. intros [H0|[]]. discriminate. }
      exists net. auto.
Qed.

(** The round that set [converged] left the network quiet. *)
Lemma simulate_loop_converged budget iter out net ex net' out' :
  simulate_loop budget iter out net = (Ok ex, net', out') ->
  converged ex = true ->
  run_round net' = (Ok false, net').
Proof.
  intros H Hc. apply simulate_loop_spec in H.
  destruct H as (tail & n & _ & _ & _ & _ & _ & H).
  rewrite Hc in H. tauto.
Qed.

(** The drawing raises exactly when some router has no position. *)
Lemma visualize_network_Ok net :
  visualize_network net = (Ok tt, net) <-> drawable net.
Proof.
  unfold visualize_network, drawable.
  destruct (find _ (Dict.keys net)) as [node|] eqn:E.
  - split; [discriminate|]. intros H.
    apply find_some in E. destruct E as [Hin Hpos].
    rewrite (H _ Hin) in Hpos. discriminate.
  - split; auto. intros _ k Hin.
    pose proof (find_none _ _ E k Hin) as H. simpl in H.
    now destruct (has_position k).
Qed.

Lemma visualize_network_cases net :
  visualize_network net = (Ok tt, net) \/
  exists node,
    visualize_network net = (Raise (NetworkXError node), net) /\
    In node (Dict.keys net) /\ has_position node = false.
Proof.
  unfold visualize_network.
  destruct (find _ (Dict.keys net)) as [node|] eqn:E; auto.
  right. exists node. apply find_some in E. destruct E as [Hin Hpos].
  split; auto. split; auto. now destruct (has_position node).
Qed.

Lemma drawableb_sound net : drawableb net = true -> drawable net.
Proof.
  unfold drawableb, drawable. intros H k Hin.
  rewrite forallb_forall in H. auto.
Qed.

Lemma topo_drawable net net' :
  topo net' = topo net -> drawable net -> drawable net'.
Proof.
  intros Ht Hd k Hin. apply Hd. now rewrite <- (topo_keys _ _ Ht).
Qed.

(** [simulate] on a network that can be drawn is its loop. *)
Lemma simulate_drawable max_iterations net :
  drawable net ->
  simulate max_iterations net =
    match simulate_loop (Z.to_nat max_iterations) 0 [PrintStart] net with
    | (Raise e, net', out) => (Raise e, net', out)
    | (Ok ex, net', out) =>
        (Ok tt, net',
         if converged ex then out else out ++ [PrintMaxIterations])
    end.
Proof.
  intros Hd. unfold simulate.
  now rewrite (proj2 (visualize_network_Ok net) Hd).
Qed.

(** ** Networks before the first round *)

Lemma new_router_initial nm : router_initial (new_router nm).
Proof.
  constructor; simpl.
  - apply DictFacts.wf_empty.
  - discriminate.
  - discriminate.
  - intros H. now contradiction H.
Qed.

Lemma add_neighbor_initial v c r :
  nonneg c -> router_initial r -> router_initial (add_neighbor v c r).
Proof.
  intros Hc [Hwf Hent Hdir Hself]. constructor; simpl.
  - auto with dv.
  - intros d c0 h. rewrite !DictFacts.get_set.
    destruct (String.eqb_spec d (name r)) as [->|Hdn].
    + intros H. inversion H; subst. auto.
    + destruct (String.eqb_spec d v) as [->|Hdv].
      * intros H. inversion H; subst. auto.
      * intros H. destruct (Hent _ _ _ H) as [(? & _)|]; [contradiction|auto].
  - intros x w. rewrite !DictFacts.get_set.
    destruct (String.eqb_spec x v) as [->|Hxv].
    + intros H. inversion H; subst. split; auto.
      now destruct (String.eqb v (name r)).
    + intros H. destruct (Hdir _ _ H) as [Hw Hx]. split; auto.
      destruct (String.eqb x (name r)); auto.
  - intros _. now rewrite DictFacts.get_set_same.
Qed.

Lemma initial_new : initial new_network.
Proof.
  constructor.
  - intros u r H. discriminate.
  - intros u r H. discriminate.
  - intros u v w H. discriminate.
Qed.

Lemma initial_add_router nm net : initial net -> initial (add_router nm net).
Proof.
  intros [Hname Hrouter Hclosed]. unfold add_router. constructor.
  - intros u r. rewrite DictFacts.get_set.
    destruct (String.eqb_spec u nm) as [->|Hne]; [|apply Hname].
    intros H. now inversion H.
  - intros u r. rewrite DictFacts.get_set.
    destruct (String.eqb_spec u nm) as [->|Hne]; [|apply Hrouter].
    intros H. inversion H. apply new_router_initial.
  - intros u v w. rewrite link_set.
    destruct (String.eqb_spec u nm) as [->|Hne]; [discriminate|].
    intros H. destruct (Hclosed _ _ _ H) as [r Hr].
    rewrite DictFacts.get_set. destruct (String.eqb v nm); eauto.
Qed.

Lemma initial_add_link u v c net net' :
  initial net -> nonneg c -> add_link u v c net = (Ok tt, net') ->
  initial net'.
Proof.
  intros [Hname Hrouter Hclosed] Hc Hadd.
  pose proof (link_add_link _ _ _ _ _ Hadd) as Hlink.
  pose proof (mem_add_link _ _ _ _ _ Hadd) as Hmem.
  apply add_link_inv in Hadd.
  destruct Hadd as (ru & rv & Hu & Hv & ->).
  assert (Hru : router_initial (add_neighbor v c ru) /\
                name (add_neighbor v c ru) = u).
  { split; [apply add_neighbor_initial; eauto|simpl; eauto]. }
  assert (Hrv : router_initial (add_neighbor u c rv) /\
                name (add_neighbor u c rv) = v).
  { rewrite DictFacts.get_set in Hv.
    destruct (String.eqb_spec v u) as [->|Hne].
    - inversion Hv; subst rv.
      split; [apply add_neighbor_initial; tauto|simpl; eauto].
    - split; [apply add_neighbor_initial; eauto|simpl; eauto]. }
  constructor.
  - intros x r. rewrite !DictFacts.get_set.
    destruct (String.eqb_spec x v) as [->|Hxv].
    + intros H. inversion H; subst. tauto.
    + destruct (String.eqb_spec x u) as [->|Hxu]; [|apply Hname].
      intros H. inversion H; subst. tauto.
  - intros x r. rewrite !DictFacts.get_set.
    destruct (String.eqb_spec x v) as [->|Hxv].
    + intros H. inversion H; subst. tauto.
    + destruct (String.eqb_spec x u) as [->|Hxu]; [|apply Hrouter].
      intros H. inversion H; subst. tauto.
  - intros x y w. rewrite Hlink. intros H.
    apply mem_get. rewrite Hmem. apply mem_get.
    destruct (String.eqb_spec x u) as [->|Hxu];
      destruct (String.eqb_spec y v) as [->|Hyv]; simpl in H.
    + rewrite DictFacts.get_set in Hv.
      destruct (String.eqb_spec v u) as [->|Hne]; eauto.
    + destruct (String.eqb u v && String.eqb y u) eqn:E.
      * apply andb_true_iff in E. destruct E as [_ E].
        apply String.eqb_eq in E. subst y. eauto.
      * eapply Hclosed; eauto.
    + destruct (String.eqb x v && String.eqb v u) eqn:E.
      * apply andb_true_iff in E. destruct E as [_ E].
        apply String.eqb_eq in E. subst v. eauto.
      * eapply Hclosed; eauto.
    + destruct (String.eqb x v && String.eqb y u) eqn:E.
      * apply andb_true_iff in E. destruct E as [_ E].
        apply String.eqb_eq in E. subst y. eauto.
      * eapply Hclosed; eauto.
Qed.

Lemma built_initial net : built net -> initial net.
Proof.
  induction 1.
  - apply initial_new.
  - now apply initial_add_router.
  - eapply initial_add_link; eauto.
Qed.

Lemma initial_consistent net : initial net -> consistent net.
Proof.
  intros [Hname Hrouter Hclosed]. constructor; auto.
  - intros u r Hr. apply (ri_wf _ (Hrouter _ _ Hr)).
  - intros u v w. unfold link.
    destruct (Dict.get u net) as [r|] eqn:Hr; [|discriminate].
    intros H. apply (ri_direct _ (Hrouter _ _ Hr)) in H. tauto.
  - intros u v w. unfold link, route.
    destruct (Dict.get u net) as [r|] eqn:Hr; [|discriminate].
    intros H. apply (ri_direct _ (Hrouter _ _ Hr)) in H.
    destruct H as [Hw ->].
    destruct (String.eqb v (name r)); eexists; eexists; split; eauto.
    + now right.
    + apply cost_le_refl.
  - intros u r Hr Hn. unfold route. rewrite Hr.
    rewrite <- (Hname _ _ Hr). now apply (ri_self _ (Hrouter _ _ Hr)).
  - intros u d c h. unfold route.
    destruct (Dict.get u net) as [r|] eqn:Hr; [|discriminate].
    intros H. apply (ri_entries _ (Hrouter _ _ Hr)) in H.
    rewrite (Hname _ _ Hr) in H.
    destruct H as [(-> & -> & ->)|(Hd & ->)].
    + split; [apply nonneg_zero|]. split; eauto.
    + split; [apply (ri_direct _ (Hrouter _ _ Hr) _ _ Hd)|].
      assert (Hl : link net u d = Some c) by (unfold link; now rewrite Hr).
      split; [eapply Hclosed; eauto|]. right. eauto.
Qed.

Lemma built_consistent net : built net -> consistent net.
Proof. intros H. apply initial_consistent, built_initial, H. Qed.

(** ** Pair steps keep the network consistent *)

Lemma last_cons (a u : string) (q : list string) :
  last (a :: q) u = last q a.
Proof.
  revert a u. induction q as [|b q IH]; intros a u; auto.
  change (last (a :: b :: q) u) with (last (b :: q) u).
  now rewrite (IH b u), (IH b a).
Qed.

Lemma relax_loop_wf w nb nt acc res rt' :
  Dict.wf (fst acc) -> relax_loop w nb nt acc = (res, rt') -> Dict.wf rt'.
Proof.
  apply (relax_loop_table_ind w nb (fun rt => Dict.wf rt)).
  intros rt dest dc via cand _ _ H _. auto with dv.
Qed.

(** With non-negative candidates the self entry is never replaced. *)
Lemma relax_loop_self w nb nt acc res rt' self_name :
  nonneg w ->
  (forall dest dc via, In (dest, (dc, via)) nt -> nonneg dc) ->
  Dict.get self_name (fst acc) = Some (zero, self_name) ->
  relax_loop w nb nt acc = (res, rt') ->
  Dict.get self_name rt' = Some (zero, self_name).
Proof.
  intros Hw Hnt.
  apply (relax_loop_table_ind w nb
           (fun rt => Dict.get self_name rt = Some (zero, self_name))).
  intros rt dest dc via cand Hin Hadd Hself Hb.
  rewrite DictFacts.get_set.
  destruct (String.eqb_spec self_name dest) as [<-|Hne]; auto.
  unfold betterb in Hb. rewrite Hself in Hb.
  pose proof (py_add_nonneg _ _ _ Hw (Hnt _ _ _ Hin) Hadd) as Hc.
  rewrite (py_le_not_lt _ _ Hc) in Hb. discriminate.
Qed.

(** A property of entries that the entries on entry and the candidates
    have holds of the entries after the loop. *)
Lemma relax_loop_entries (R : string -> num -> string -> Prop)
    w nb nt acc res rt' :
  (forall dest dc via cand,
      In (dest, (dc, via)) nt -> py_add w dc = Ok cand -> R dest cand nb) ->
  (forall d c h, Dict.get d (fst acc) = Some (c, h) -> R d c h) ->
  relax_loop w nb nt acc = (res, rt') ->
  forall d c h, Dict.get d rt' = Some (c, h) -> R d c h.
Proof.
  intros Hcand.
  apply (relax_loop_table_ind w nb
           (fun rt => forall d c h, Dict.get d rt = Some (c, h) -> R d c h)).
  intros rt dest dc via cand Hin Hadd Hrt _ d c h.
  rewrite DictFacts.get_set.
  destruct (String.eqb_spec d dest) as [->|Hne]; [|apply Hrt].
  intros H. injection H as <- <-. eauto.
Qed.

Lemma relax_pair_consistent router nb net res net' :
  consistent net -> relax_pair router nb net = (res, net') ->
  consistent net'.
Proof.
  intros Hc Hp.
  pose proof (relax_pair_topo _ _ _ _ _ Hp) as Ht.
  pose proof (relax_pair_improves _ _ _ _ _ Hp) as Himp.
  apply relax_pair_inv in Hp.
  destruct Hp as [(_ & _ & ->)|[(_ & _ & ->)|
    (rnb & self & self' & Hnb & Hself & Hupd & ->)]]; auto.
  apply update_routing_table_inv in Hupd.
  destruct Hupd as [(_ & _ & ->)|(w & Hw & Hname & Hnbs & Hfold)].
  { now rewrite DictFacts.set_get_id. }
  assert (Hl : link net router nb = Some w)
    by (unfold link; now rewrite Hself).
  assert (Hitems : forall dest dc via,
            In (dest, (dc, via)) (routing_table rnb) ->
            route net nb dest = Some (dc, via)).
  { intros dest dc via Hin. unfold route. rewrite Hnb.
    apply DictFacts.In_get; auto. eapply c_wf; eauto. }
  assert (Hpresent : forall d r, Dict.get d net = Some r ->
            exists r', Dict.get d (Dict.set router self' net) = Some r').
  { intros d r Hd. rewrite DictFacts.get_set.
    destruct (String.eqb d router); eauto. }
  constructor.
  - intros u r. rewrite DictFacts.get_set.
    destruct (String.eqb_spec u router) as [->|Hne]; [|apply (c_wf _ Hc)].
    intros H. inversion H; subst r.
    eapply relax_loop_wf; [|exact Hfold]. simpl. eapply c_wf; eauto.
  - intros u r. rewrite DictFacts.get_set.
    destruct (String.eqb_spec u router) as [->|Hne]; [|apply (c_name _ Hc)].
    intros H. inversion H; subst r. rewrite Hname. eapply c_name; eauto.
  - intros u v w0. rewrite (topo_link _ _ _ _ Ht). apply (c_nonneg _ Hc).
  - eapply topo_closed; eauto using c_closed.
  - intros u v w0. rewrite (topo_link _ _ _ _ Ht). intros H.
    destruct (c_direct _ Hc _ _ _ H) as (c & h & Hr & Hle).
    destruct (Himp _ _ _ _ Hr) as (c' & h' & Hr' & Hle').
    exists c', h'. split; auto. eapply cost_le_trans; eauto.
  - intros u r. rewrite route_set, DictFacts.get_set.
    destruct (String.eqb_spec u router) as [->|Hne]; [|apply (c_self _ Hc)].
    intros H Hn. inversion H; subst r. rewrite Hnbs in Hn.
    pose proof (c_self _ Hc _ _ Hself Hn) as Hs.
    unfold route in Hs. rewrite Hself in Hs.
    eapply relax_loop_self; [| | |exact Hfold]; auto.
    + eapply c_nonneg; eauto.
    + intros dest dc via Hin.
      apply (c_entry _ Hc _ _ _ _ (Hitems _ _ _ Hin)).
  - intros u d c h. rewrite route_set.
    assert (Hold : forall u0 d0 c0 h0, route net u0 d0 = Some (c0, h0) ->
              nonneg c0 /\
              (exists r, Dict.get d0 (Dict.set router self' net) = Some r) /\
              ((d0 = u0 /\ c0 = zero /\ h0 = u0) \/
               exists w0, link (Dict.set router self' net) u0 h0 = Some w0)).
    { intros u0 d0 c0 h0 H0.
      destruct (c_entry _ Hc _ _ _ _ H0) as (Hn & [r Hr] & Hh).
      split; auto. split; [eauto|].
      destruct Hh as [Hh|[w0 Hw0]]; auto.
      right. exists w0. now rewrite (topo_link _ _ _ _ Ht). }
    destruct (String.eqb_spec u router) as [->|Hne]; [|apply Hold].
    revert d c h.
    apply (relax_loop_entries
             (fun d c h =>
                nonneg c /\
                (exists r, Dict.get d (Dict.set router self' net) = Some r) /\
                ((d = router /\ c = zero /\ h = router) \/
                 exists w0,
                   link (Dict.set router self' net) router h = Some w0))
             w nb (routing_table rnb) (routing_table self, false)
             res (routing_table self')); [| |exact Hfold].
    + intros dest dc via cand Hin Hadd.
      destruct (c_entry _ Hc _ _ _ _ (Hitems _ _ _ Hin)) as (Hn & [r Hr] & _).
      split.
      { apply (py_add_nonneg w dc cand); auto.
        exact (c_nonneg _ Hc _ _ _ Hl). }
      split; [eauto|]. right. exists w. now rewrite (topo_link _ _ _ _ Ht).
    + intros d c h H. apply Hold. unfold route. now rewrite Hself.
Qed.

Lemma keeps_consistent_refl net : keeps_consistent net net.
Proof. intros H. exact H. Qed.

Lemma keeps_consistent_trans a b c :
  keeps_consistent a b -> keeps_consistent b c -> keeps_consistent a c.
Proof. intros Hab Hbc H. auto. Qed.

Lemma relax_pair_keeps router nb net res net' :
  relax_pair router nb net = (res, net') -> keeps_consistent net net'.
Proof. intros Hp Hc. eapply relax_pair_consistent; eauto. Qed.

Lemma run_round_consistent net res net' :
  consistent net -> run_round net = (res, net') -> consistent net'.
Proof.
  intros Hc Hr. revert Hc.
  apply (run_round_rel keeps_consistent keeps_consistent_refl
           keeps_consistent_trans relax_pair_keeps _ _ _ Hr).
Qed.

Lemma rounds_consistent n net net' :
  consistent net -> rounds n net = Some net' -> consistent net'.
Proof.
  intros Hc Hr. revert Hc.
  apply (rounds_rel keeps_consistent keeps_consistent_refl
           keeps_consistent_trans relax_pair_keeps _ _ _ Hr).
Qed.

Lemma built_rounds_consistent net0 n net :
  built net0 -> rounds n net0 = Some net -> consistent net.
Proof.
  intros Hb Hr. eapply rounds_consistent; eauto using built_consistent.
Qed.

(** ** Checking closedness and builds by evaluation *)

Lemma closedb_sound net : closedb net = true -> closed net.
Proof.
  unfold closedb. intros H u v w Hl. unfold link in Hl.
  destruct (Dict.get u net) as [r|] eqn:Hu; [|discriminate].
  rewrite forallb_forall in H.
  specialize (H (u, r) (DictFacts.get_Some_In _ _ _ _ Hu)). simpl in H.
  rewrite forallb_forall in H.
  specialize (H (v, w) (DictFacts.get_Some_In _ _ _ _ Hl)). simpl in H.
  now apply mem_get.
Qed.

Lemma exact_linksb_sound net : exact_linksb net = true -> exact_links net.
Proof.
  unfold exact_linksb. intros H u v w Hl. unfold link in Hl.
  destruct (Dict.get u net) as [r|] eqn:Hu; [|discriminate].
  rewrite forallb_forall in H.
  specialize (H (u, r) (DictFacts.get_Some_In _ _ _ _ Hu)). simpl in H.
  rewrite forallb_forall in H.
  exact (H (v, w) (DictFacts.get_Some_In _ _ _ _ Hl)).
Qed.

Lemma built_with_routers names :
  forall net, built net ->
    built (fold_left (fun net r => add_router r net) names net).
Proof.
  induction names as [|nm names IH]; simpl; intros net Hb; auto.
  apply IH. now apply built_router.
Qed.

Lemma built_add_links links :
  forall net net',
    built net ->
    forallb (fun l => py_le zero (snd l)) links = true ->
    add_links links net = (Ok tt, net') ->
    built net'.
Proof.
  induction links as [|[[u v] c] links IH]; simpl; intros net net' Hb Hpos H.
  - inversion H; subst. exact Hb.
  - apply andb_true_iff in Hpos. destruct Hpos as [Hc Hpos].
    unfold bind in H.
    destruct (add_link u v c net) as [[[]|e] net1] eqn:Hadd; [|discriminate].
    apply (IH net1 net'); auto. eapply built_link; eauto.
Qed.

Lemma built_example : built example_network.
Proof.
  apply built_add_links
    with (links := example_links) (net := with_routers main_routers).
  - apply built_with_routers, built_new.
  - reflexivity.
  - vm_compute. reflexivity.
Qed.

Lemma built_lone : built lone_network.
Proof. apply built_router, built_new. Qed.

Lemma built_pair : built pair_network.
Proof. apply built_with_routers, built_new. Qed.

Lemma built_rounded : built rounded_network.
Proof.
  apply (built_link "A" "B" (Int (2 ^ 53 + 1)) pair_network).
  - exact built_pair.
  - reflexivity.
  - vm_compute. reflexivity.
Qed.

Lemma built_example_reversed : built example_network_reversed.
Proof.
  apply built_add_links
    with (links := rev example_links) (net := with_routers (rev main_routers)).
  - apply built_with_routers, built_new.
  - reflexivity.
  - vm_compute. reflexivity.
Qed.

(** ** Tactics for concrete lists *)

(** A value is not in a concrete list. *)
Ltac not_in_list :=
  let H := fresh in
  intros H; simpl in H;
  repeat (destruct H as [H|H]; [discriminate|]); exact H.

(** A concrete list of strings has no duplicates. *)
Ltac nodup_strings :=
  repeat (constructor;
          [simpl; let H := fresh in
                  intros H; repeat (destruct H as [H|H]; [discriminate|]);
                  exact H|]);
  constructor.

(** ** Networks with exact costs *)

Lemma existsb_false_intro {A : Type} (f : A -> bool) (l : list A) :
  (forall x, In x l -> f x = false) -> existsb f l = false.
Proof.
  intros H. destruct (existsb f l) eqn:E; auto.
  apply existsb_exists in E. destruct E as (x & Hin & Hx).
  rewrite (H x Hin) in Hx. discriminate.
Qed.

Lemma existsb_ext_in {A : Type} (f g : A -> bool) (l : list A) :
  (forall x, In x l -> f x = g x) -> existsb f l = existsb g l.
Proof.
  induction l as [|a l IH]; simpl; intros H; auto.
  rewrite (H a (or_introl eq_refl)), IH; auto.
Qed.

Lemma link_cost_link net u v z :
  link_cost net u v = Some z <-> link net u v = Some (Int z).
Proof.
  unfold link_cost. destruct (link net u v) as [[z0|f]|]; split;
    intros H; inversion H; auto.
Qed.

Lemma exact_link_cost net u v w :
  exact_links net -> link net u v = Some w ->
  w = Int (int_of w) /\ 0 <= int_of w /\
  link_cost net u v = Some (int_of w).
Proof.
  intros Hx Hl. pose proof (Hx _ _ _ Hl) as He.
  apply exact_cost_inv in He. destruct He as (z & f & -> & Hz & _).
  simpl. repeat split; auto. now apply link_cost_link.
Qed.

Lemma link_cost_nonneg net u v z :
  exact_links net -> link_cost net u v = Some z -> 0 <= z.
Proof.
  intros Hx Hl. apply link_cost_link in Hl.
  destruct (exact_link_cost _ _ _ _ Hx Hl) as (_ & H & _). exact H.
Qed.

(** The costs of the tables are the float [0.0] and ints. *)
Lemma exact_good net u d c h :
  exact net -> route net u d = Some (c, h) ->
  c = zero \/ exists z, c = Int z.
Proof.
  intros Hx Hr. destruct (x_entry _ Hx _ _ _ _ Hr)
    as [(_ & -> & _)|(z & p & -> & _)]; eauto.
Qed.

(** Every entry records a walk that starts with its next hop. *)
Lemma exact_walk net u d c h :
  exact net -> route net u d = Some (c, h) ->
  exists p, walk net u p d (int_of c) /\ hd u p = h.
Proof.
  intros Hx Hr. destruct (x_entry _ Hx _ _ _ _ Hr)
    as [(-> & -> & ->)|(z & p & -> & _ & Hw & Hh)].
  - exists []. repeat split; auto.
  - exists p. auto.
Qed.

Lemma initial_exact net : initial net -> exact_links net -> exact net.
Proof.
  intros [Hname Hrouter Hclosed] Hx. constructor; auto.
  intros u d c h. unfold route.
  destruct (Dict.get u net) as [r|] eqn:Hr; [|discriminate].
  intros H. apply (ri_entries _ (Hrouter _ _ Hr)) in H.
  rewrite (Hname _ _ Hr) in H.
  destruct H as [(-> & -> & ->)|(Hd & ->)]; [now left|].
  right.
  assert (Hl : link net u d = Some c) by (unfold link; now rewrite Hr).
  destruct (exact_link_cost _ _ _ _ Hx Hl) as (Hc & _ & Hlc).
  exists (int_of c), [d]. split; [exact Hc|]. split; [discriminate|].
  split; [|reflexivity]. split; [reflexivity|].
  simpl. rewrite Hlc. now rewrite Z.add_0_r.
Qed.

Lemma built_sound net : built net -> exact_links net -> sound net.
Proof.
  intros Hb Hx. split.
  - now apply built_consistent.
  - apply initial_exact; auto. now apply built_initial.
Qed.

(** On a network with exact costs the sum and the test of the relaxation
    are the sum and the test on integers, and a candidate that passes the
    test is an int. *)
Lemma exact_relax net router nb rnb self w :
  sound net ->
  Dict.get nb net = Some rnb -> Dict.get router net = Some self ->
  Dict.get nb (neighbors self) = Some w ->
  forall dest dc via,
    In (dest, (dc, via)) (routing_table rnb) ->
    exists cand,
      py_add w dc = Ok cand /\
      betterb (routing_table self) dest cand
        = int_better (routing_table self) (int_of w) (dest, (dc, via)) /\
      (betterb (routing_table self) dest cand = true ->
       cand = Int (int_of w + int_of dc) /\ exists z, dc = Int z).
Proof.
  intros [Hc Hx] Hnb Hself Hw dest dc via Hin.
  assert (Hl : link net router nb = Some w)
    by (unfold link; now rewrite Hself).
  assert (Hroute : route net nb dest = Some (dc, via)).
  { unfold route. rewrite Hnb. apply DictFacts.In_get; auto.
    eapply c_wf; eauto. }
  pose proof (exact_good _ _ _ _ _ Hx Hroute) as Hdc.
  destruct (py_add_exact w dc (x_links _ Hx _ _ _ Hl) Hdc)
    as (cand & Hadd & Hcmp & Hint).
  exists cand. split; [exact Hadd|].
  assert (Hb : betterb (routing_table self) dest cand
               = int_better (routing_table self) (int_of w)
                   (dest, (dc, via))).
  { unfold betterb, int_better. simpl.
    destruct (Dict.get dest (routing_table self)) as [[c h]|] eqn:Hd; auto.
    apply py_lt_int_of; auto.
    apply (exact_good net router dest c h Hx).
    unfold route. now rewrite Hself. }
  split; [exact Hb|].
  intros Ht. destruct Hdc as [->|[z ->]].
  - exfalso. rewrite Hb in Ht.
    destruct (x_entry _ Hx _ _ _ _ Hroute)
      as [(-> & _)|(z & p & Hz & _)]; [|discriminate].
    destruct (c_direct _ Hc _ _ _ Hl) as (c & h & Hr & Hle).
    destruct (exact_link_cost _ _ _ _ (x_links _ Hx) Hl) as (Hwz & _).
    rewrite Hwz in Hle.
    apply cost_le_int_of in Hle; [|eapply exact_good; eauto].
    unfold route in Hr. rewrite Hself in Hr.
    unfold int_better in Ht. simpl in Ht. rewrite Hr in Ht.
    apply Z.ltb_lt in Ht. lia.
  - split; [now apply Hint|eauto].
Qed.

(** The loop of a pair step on such a network returns, and it is the loop
    on integers. *)
Lemma sound_update net router nb rnb self w res rt' :
  sound net ->
  Dict.get nb net = Some rnb -> Dict.get router net = Some self ->
  Dict.get nb (neighbors self) = Some w ->
  relax_loop w nb (routing_table rnb) (routing_table self, false)
    = (res, rt') ->
  res = Ok (existsb (int_better (routing_table self) (int_of w))
                    (routing_table rnb)) /\
  forall dest,
    Dict.get dest rt' =
      match Dict.get dest (routing_table rnb) with
      | None => Dict.get dest (routing_table self)
      | Some e =>
          if int_better (routing_table self) (int_of w) (dest, e)
          then Some (Int (int_of w + int_of (fst e)), nb)
          else Dict.get dest (routing_table self)
      end.
Proof.
  intros Hs Hnb Hself Hw Hfold.
  pose proof (exact_relax net router nb rnb self w Hs Hnb Hself Hw) as Hrel.
  assert (Hdef : sums_defined w (routing_table rnb)).
  { intros dest dc via Hin.
    destruct (Hrel _ _ _ Hin) as (cand & Hadd & _). eauto. }
  destruct Hs as [Hc Hx].
  destruct (relax_loop_spec w nb (routing_table rnb) (c_wf _ Hc _ _ Hnb)
              Hdef _ _ _ _ Hfold) as [Hres Hget].
  split.
  - rewrite Hres. simpl. f_equal. apply existsb_ext_in.
    intros [dest [dc via]] Hin.
    destruct (Hrel _ _ _ Hin) as (cand & Hadd & Hb & _).
    unfold item_better. simpl. now rewrite Hadd.
  - intros dest. rewrite Hget. unfold relaxed.
    destruct (Dict.get dest (routing_table rnb)) as [[dc via]|] eqn:Hd; auto.
    destruct (Hrel dest dc via (DictFacts.get_Some_In _ _ _ _ Hd))
      as (cand & Hadd & Hb & Hint).
    simpl. rewrite Hadd, <- Hb.
    destruct (betterb (routing_table self) dest cand); auto.
    destruct (Hint eq_refl) as [-> _]. reflexivity.
Qed.

(** A pair step over a neighbour returns. *)
Lemma relax_pair_total router nb net r :
  sound net -> Dict.get router net = Some r ->
  In nb (Dict.keys (neighbors r)) ->
  exists m net', relax_pair router nb net = (Ok m, net').
Proof.
  intros Hs Hr Hin.
  destruct (DictFacts.keys_get _ _ _ Hin) as [w Hw].
  assert (Hl : link net router nb = Some w) by (unfold link; now rewrite Hr).
  destruct (c_closed _ (proj1 Hs) _ _ _ Hl) as [rnb Hnb].
  rewrite (relax_pair_eq router nb net rnb r Hnb Hr).
  unfold update_routing_table. rewrite Hw.
  destruct (relax_loop w nb (routing_table rnb) (routing_table r, false))
    as [res rt'] eqn:Hfold.
  destruct (sound_update _ _ _ _ _ _ _ _ Hs Hnb Hr Hw Hfold) as [-> _].
  simpl. eauto.
Qed.

(** Pair steps keep the tables exact. *)
Lemma relax_pair_sound router nb net res net' :
  sound net -> relax_pair router nb net = (res, net') -> sound net'.
Proof.
  intros Hs Hp. split; [eapply relax_pair_consistent; eauto; apply Hs|].
  pose proof (relax_pair_topo _ _ _ _ _ Hp) as Ht.
  apply relax_pair_inv in Hp.
  destruct Hp as [(_ & _ & ->)|[(_ & _ & ->)|
    (rnb & self & self' & Hnb & Hself & Hupd & ->)]]; try apply Hs.
  apply update_routing_table_inv in Hupd.
  destruct Hupd as [(_ & _ & ->)|(w & Hw & Hname & Hnbs & Hfold)].
  { rewrite DictFacts.set_get_id by auto. apply Hs. }
  destruct (sound_update _ _ _ _ _ _ _ _ Hs Hnb Hself Hw Hfold)
    as [_ Hget].
  pose proof (exact_relax net router nb rnb self w Hs Hnb Hself Hw) as Hrel.
  destruct Hs as [Hc Hx].
  assert (Hl : link net router nb = Some w)
    by (unfold link; now rewrite Hself).
  assert (Hwalk : forall u p d c, walk net u p d c ->
            walk (Dict.set router self' net) u p d c).
  { intros u p d c [Hlast Hcost]. split; auto.
    now rewrite (topo_walk_cost _ _ Ht). }
  assert (Hold : forall u d c h, route net u d = Some (c, h) ->
    (d = u /\ c = zero /\ h = u) \/
    (exists z p, c = Int z /\ p <> [] /\
                 walk (Dict.set router self' net) u p d z /\ hd u p = h)).
  { intros u d c h H.
    destruct (x_entry _ Hx _ _ _ _ H)
      as [?|(z & p & Hz & Hp & Hw0 & Hh)]; auto.
    right. exists z, p. auto. }
  constructor.
  - intros u v w0. rewrite (topo_link _ _ _ _ Ht). apply (x_links _ Hx).
  - intros u d c h. rewrite route_set.
    destruct (String.eqb_spec u router) as [->|Hne]; [|apply Hold].
    rewrite Hget.
    destruct (Dict.get d (routing_table rnb)) as [[dc via]|] eqn:Hd.
    2:{ intros H. apply Hold. unfold route. now rewrite Hself. }
    destruct (Hrel d dc via (DictFacts.get_Some_In _ _ _ _ Hd))
      as (cand & Hadd & Hb & Hint).
    rewrite <- Hb.
    destruct (betterb (routing_table self) d cand).
    2:{ intros H. apply Hold. unfold route. now rewrite Hself. }
    destruct (Hint eq_refl) as [_ [z ->]]. simpl.
    intros H. injection H as <- <-. right.
    assert (Hroute : route net nb d = Some (Int z, via))
      by (unfold route; now rewrite Hnb).
    destruct (x_entry _ Hx _ _ _ _ Hroute)
      as [(_ & Hz & _)|(z' & q & Hz & _ & [Hlast Hcost] & _)];
      [discriminate|].
    injection Hz as <-.
    destruct (exact_link_cost _ _ _ _ (x_links _ Hx) Hl) as (_ & _ & Hlc).
    exists (int_of w + z), (nb :: q).
    split; [reflexivity|]. split; [discriminate|].
    split; [|reflexivity]. apply Hwalk. split.
    + now rewrite last_cons.
    + simpl. now rewrite Hlc, Hcost.
Qed.

Lemma run_round_sound net res net' :
  sound net -> run_round net = (res, net') -> sound net'.
Proof.
  intros Hs Hr. revert Hs.
  apply (run_round_rel (fun a b => sound a -> sound b)) with (res := res);
    auto.
  intros router nb n r n' Hp H. eapply relax_pair_sound; eauto.
Qed.

Lemma rounds_sound n net net' :
  sound net -> rounds n net = Some net' -> sound net'.
Proof.
  intros Hs Hr. revert Hs.
  apply (rounds_rel (fun a b => sound a -> sound b)) with (n := n); auto.
  intros router nb n0 r n' Hp H. eapply relax_pair_sound; eauto.
Qed.

Lemma simulate_loop_sound budget iter out net res net' out' :
  sound net -> simulate_loop budget iter out net = (res, net', out') ->
  sound net'.
Proof.
  intros Hs Hr. revert Hs.
  apply (simulate_loop_rel (fun a b => sound a -> sound b))
    with (budget := budget) (iter := iter) (out := out) (res := res)
         (out' := out'); auto.
  intros router nb n0 r n' Hp H. eapply relax_pair_sound; eauto.
Qed.

Lemma for_neighbors_total router nbs :
  forall ch net r,
    sound net -> Dict.get router net = Some r ->
    incl nbs (Dict.keys (neighbors r)) ->
    exists ch' net', for_neighbors router nbs ch net = (Ok ch', net').
Proof.
  induction nbs as [|nb nbs IH]; simpl; intros ch net r Hs Hr Hincl.
  - unfold ret. eauto.
  - destruct (relax_pair_total router nb net r Hs Hr) as (m & net1 & Hp).
    { apply Hincl. now left. }
    unfold bind. rewrite Hp.
    pose proof (relax_pair_topo _ _ _ _ _ Hp) as Ht.
    destruct (topo_neighbors _ _ _ _ Ht Hr) as (r1 & Hr1 & _ & Hn1).
    apply (IH _ net1 r1); auto.
    + eapply relax_pair_sound; eauto.
    + rewrite Hn1. intros x Hx. apply Hincl. now right.
Qed.

Lemma for_routers_total names :
  forall ch net,
    sound net -> incl names (Dict.keys net) ->
    exists ch' net', for_routers names ch net = (Ok ch', net').
Proof.
  induction names as [|router names IH]; simpl; intros ch net Hs Hincl.
  - unfold ret. eauto.
  - destruct (DictFacts.keys_get _ router net) as [r Hr].
    { apply Hincl. now left. }
    unfold bind, lookup_router. rewrite Hr.
    destruct (for_neighbors_total router (Dict.keys (neighbors r)) ch net r)
      as (ch1 & net1 & Hn); auto using incl_refl.
    rewrite Hn. pose proof (for_neighbors_topo _ _ _ _ _ _ Hn) as Ht.
    apply IH.
    + revert Hs.
      apply (for_neighbors_rel (fun a b => sound a -> sound b))
        with (router := router) (nbs := Dict.keys (neighbors r))
             (ch := ch) (res := Ok ch1); auto.
      intros rt nb n0 r0 n' Hp H. eapply relax_pair_sound; eauto.
    + rewrite (topo_keys _ _ Ht).
      intros x Hx. apply Hincl. now right.
Qed.

(** A round on a network with exact costs returns. *)
Lemma run_round_total net :
  sound net -> exists ch net', run_round net = (Ok ch, net').
Proof.
  intros Hs. unfold run_round. apply for_routers_total; auto using incl_refl.
Qed.

(** The loop of [simulate] on such a network raises nothing. *)
Lemma simulate_loop_total budget iter out net :
  sound net ->
  exists ex net' out',
    simulate_loop budget iter out net = (Ok ex, net', out').
Proof.
  intros Hs.
  destruct (simulate_loop budget iter out net) as [[[ex|e] net'] out'] eqn:H;
    eauto.
  apply simulate_loop_spec in H.
  destruct H as (tail & n & _ & _ & _ & _ & _ & _ & net_n & Hr & Hraise).
  destruct (run_round_total net_n (rounds_sound _ _ _ Hs Hr))
    as (ch & net1 & Hok).
  congruence.
Qed.

(** ** Tables at a quiet round are shortest-path tables *)

Lemma nonneg_link_cost net u v z :
  nonneg_links net -> link_cost net u v = Some z -> 0 <= z.
Proof.
  intros Hn Hl. apply link_cost_link in Hl.
  apply nonneg_Int. exact (Hn _ _ _ Hl).
Qed.

Lemma walk_cost_nonneg_links net :
  nonneg_links net ->
  forall p u c, walk_cost net u p = Some c -> 0 <= c.
Proof.
  intros Hn. induction p as [|v p IH]; simpl; intros u c H.
  - inversion H. lia.
  - destruct (link_cost net u v) as [w|] eqn:Hl; [|discriminate].
    destruct (walk_cost net v p) as [c1|] eqn:Hw; [|discriminate].
    inversion H; subst.
    pose proof (nonneg_link_cost _ _ _ _ Hn Hl). specialize (IH _ _ Hw). lia.
Qed.

Lemma walk_cost_nonneg net :
  exact_links net ->
  forall p u c, walk_cost net u p = Some c -> 0 <= c.
Proof.
  intros Hx. apply walk_cost_nonneg_links.
  intros u v w Hl. apply exact_cost_nonneg. exact (Hx _ _ _ Hl).
Qed.

(** The Bellman-Ford inequality at a quiet state: over every link, the
    router's cost is at most the link cost plus the neighbour's cost. *)
Lemma quiet_bound net :
  sound net -> Forall (quiet_router net) (Dict.keys net) ->
  forall u v w d dc via,
    link_cost net u v = Some w -> route net v d = Some (dc, via) ->
    exists c h, route net u d = Some (c, h) /\ int_of c <= w + int_of dc.
Proof.
  intros Hs Hq u v w d dc via Hl Hr.
  apply link_cost_link in Hl. unfold link in Hl.
  destruct (Dict.get u net) as [r|] eqn:Hu; [|discriminate].
  rewrite Forall_forall in Hq.
  destruct (Hq u (DictFacts.get_Some_keys _ _ _ _ Hu)) as (r0 & Hr0 & Hall).
  rewrite Hu in Hr0. inversion Hr0; subst r0. clear Hr0.
  rewrite Forall_forall in Hall.
  pose proof (Hall v (DictFacts.get_Some_keys _ _ _ _ Hl)) as Hp.
  apply relax_pair_Ok in Hp.
  destruct Hp as (rnb & self & self' & Hnb & Hself & Hupd & _).
  rewrite Hu in Hself. inversion Hself; subst self. clear Hself.
  apply update_routing_table_inv in Hupd.
  destruct Hupd as [(_ & H & _)|(w' & Hw' & _ & _ & Hfold)]; [discriminate|].
  rewrite Hl in Hw'. inversion Hw'; subst w'. clear Hw'.
  destruct (sound_update _ _ _ _ _ _ _ _ Hs Hnb Hu Hl Hfold) as [Hm _].
  injection Hm as Hm. symmetry in Hm. simpl in Hm.
  unfold route in Hr. rewrite Hnb in Hr.
  assert (Hb : int_better (routing_table r) w (d, (dc, via)) = false).
  { destruct (int_better (routing_table r) w (d, (dc, via))) eqn:E; auto.
    rewrite <- Hm. symmetry. apply existsb_exists.
    exists (d, (dc, via)). split; auto.
    now apply DictFacts.get_Some_In. }
  unfold int_better in Hb; simpl in Hb. unfold route. rewrite Hu.
  destruct (Dict.get d (routing_table r)) as [[c h]|]; [|discriminate].
  apply Z.ltb_ge in Hb. eauto.
Qed.

(** At a quiet state no walk with at least one link is cheaper than the
    recorded cost. *)
Lemma walk_bound net :
  sound net -> Forall (quiet_router net) (Dict.keys net) ->
  forall p u d c,
    p <> [] -> walk net u p d c ->
    exists c0 h0, route net u d = Some (c0, h0) /\ int_of c0 <= c.
Proof.
  intros Hs Hq. induction p as [|v p IH]; intros u d c Hne [Hlast Hcost].
  - now contradiction Hne.
  - simpl in Hcost.
    destruct (link_cost net u v) as [w|] eqn:Hl; [|discriminate].
    destruct (walk_cost net v p) as [c1|] eqn:Hw; [|discriminate].
    inversion Hcost; subst c. clear Hcost.
    rewrite last_cons in Hlast.
    destruct p as [|v2 p].
    + simpl in Hlast, Hw. subst d. inversion Hw; subst c1.
      pose proof (proj1 (link_cost_link _ _ _ _) Hl) as Hl'.
      destruct (c_direct _ (proj1 Hs) _ _ _ Hl') as (c0 & h0 & Hr & Hle).
      exists c0, h0. split; auto.
      apply cost_le_int_of in Hle; [lia|].
      eapply exact_good; eauto. apply Hs.
    + destruct (IH v d c1) as (c1' & h1 & Hr1 & Hle1);
        [discriminate|split; auto|].
      destruct (quiet_bound net Hs Hq _ _ _ _ _ _ Hl Hr1)
        as (c0 & h0 & Hr & Hle).
      exists c0, h0. split; auto. lia.
Qed.

(** The self entry is the only entry of a router for itself. *)
Lemma consistent_self_entry net u c h :
  consistent net -> route net u u = Some (c, h) -> c = zero /\ h = u.
Proof.
  intros Hc Hr.
  destruct (c_entry _ Hc _ _ _ _ Hr) as (_ & _ & [(_ & -> & ->)|[w Hl]]); auto.
  unfold link in Hl. destruct (Dict.get u net) as [r|] eqn:Hu; [|discriminate].
  assert (Hn : neighbors r <> []) by (intros E; rewrite E in Hl; discriminate).
  rewrite (c_self _ Hc _ _ Hu Hn) in Hr. inversion Hr. auto.
Qed.

(** At a quiet state every recorded cost is the least cost of a walk and
    every recorded hop starts a least-cost walk. *)
Lemma quiet_entry_shortest net u d c h :
  sound net -> Forall (quiet_router net) (Dict.keys net) ->
  route net u d = Some (c, h) ->
  shortest_cost net u d (int_of c) /\ shortest_hop net u d h.
Proof.
  intros Hs Hq Hroute.
  destruct (exact_walk _ _ _ _ _ (proj2 Hs) Hroute) as (p & Hp & Hh).
  assert (Hmin : forall p' c', walk net u p' d c' -> int_of c <= c').
  { intros p' c' Hw'. destruct p' as [|v p'].
    - destruct Hw' as [Hlast Hcost]. simpl in Hlast, Hcost. subst d.
      inversion Hcost; subst c'.
      destruct (consistent_self_entry _ _ _ _ (proj1 Hs) Hroute) as [-> _].
      simpl. lia.
    - destruct (walk_bound net Hs Hq (v :: p') u d c') as (c0 & h0 & H0 & Hle);
        [discriminate|auto|].
      rewrite Hroute in H0. inversion H0; subst. exact Hle. }
  split.
  - split; eauto.
  - exists p, (int_of c). auto.
Qed.

(** At a quiet state every router with a neighbour holds an entry for
    every destination it can reach. *)
Lemma quiet_routes_reachable net :
  sound net -> Forall (quiet_router net) (Dict.keys net) ->
  forall u r d,
    Dict.get u net = Some r -> neighbors r <> [] ->
    reachable net u d ->
    exists c h, route net u d = Some (c, h).
Proof.
  intros Hs Hq u r d Hu Hn (p1 & c1 & Hw1).
  destruct p1 as [|v p1].
  - destruct Hw1 as [Hlast _]. simpl in Hlast. subst d.
    rewrite (c_self _ (proj1 Hs) _ _ Hu Hn). eauto.
  - destruct (walk_bound net Hs Hq (v :: p1) u d c1) as (c & h & H & _);
      [discriminate|auto|eauto].
Qed.

(** ** Walks without repeated routers *)

Lemma last_app_default (p1 p2 : list string) (u : string) :
  last (p1 ++ p2) u = last p2 (last p1 u).
Proof.
  revert u. induction p1 as [|v p1 IH]; intros u; auto.
  change ((v :: p1) ++ p2) with (v :: (p1 ++ p2)).
  now rewrite !last_cons, IH.
Qed.

Lemma walk_cost_app net p1 p2 :
  forall u,
    walk_cost net u (p1 ++ p2) =
      match walk_cost net u p1, walk_cost net (last p1 u) p2 with
      | Some a, Some b => Some (a + b)
      | _, _ => None
      end.
Proof.
  induction p1 as [|v p1 IH]; intros u.
  - simpl. now destruct (walk_cost net u p2).
  - change ((v :: p1) ++ p2) with (v :: (p1 ++ p2)).
    rewrite last_cons. cbn [walk_cost]. rewrite IH.
    destruct (link_cost net u v) as [w|]; auto.
    destruct (walk_cost net v p1) as [a|]; auto.
    destruct (walk_cost net (last p1 v) p2) as [b|]; auto.
    now rewrite Z.add_assoc.
Qed.

(** Cutting a closed detour out of a walk gives a walk to the same router
    that costs no more. *)
Lemma walk_cut_cycle net p1 p2 p3 u c :
  exact_links net ->
  last (p1 ++ p2) u = last p1 u ->
  walk_cost net u (p1 ++ p2 ++ p3) = Some c ->
  exists c',
    walk_cost net u (p1 ++ p3) = Some c' /\ c' <= c /\
    last (p1 ++ p3) u = last (p1 ++ p2 ++ p3) u.
Proof.
  intros Hn Hcyc Hw.
  rewrite last_app_default in Hcyc.
  rewrite walk_cost_app in Hw.
  destruct (walk_cost net u p1) as [a|] eqn:Ha; [|discriminate].
  rewrite walk_cost_app in Hw.
  destruct (walk_cost net (last p1 u) p2) as [b2|] eqn:Hb2; [|discriminate].
  rewrite Hcyc in Hw.
  destruct (walk_cost net (last p1 u) p3) as [b3|] eqn:Hb3; [|discriminate].
  inversion Hw; subst c.
  exists (a + b3). split; [|split].
  - now rewrite walk_cost_app, Ha, Hb3.
  - pose proof (walk_cost_nonneg net Hn _ _ _ Hb2). lia.
  - now rewrite !last_app_default, Hcyc.
Qed.

(** The routers that a walk of at least one link visits, its start
    included, are routers of the network. *)
Lemma walk_routers_present net :
  closed net ->
  forall p u c,
    p <> [] -> walk_cost net u p = Some c ->
    incl (u :: p) (Dict.keys net).
Proof.
  intros Hc. induction p as [|v p IH]; intros u c Hne Hw.
  - now contradiction Hne.
  - simpl in Hw.
    destruct (link_cost net u v) as [w|] eqn:Hl; [|discriminate].
    destruct (walk_cost net v p) as [c1|] eqn:Hw1; [|discriminate].
    apply link_cost_link in Hl.
    assert (Hu : In u (Dict.keys net)).
    { unfold link in Hl. destruct (Dict.get u net) eqn:E; [|discriminate].
      eapply DictFacts.get_Some_keys; eauto. }
    assert (Hv : In v (Dict.keys net)).
    { destruct (Hc _ _ _ Hl) as [r Hr].
      eapply DictFacts.get_Some_keys; eauto. }
    intros x [<-|Hx]; auto.
    destruct p as [|v2 p].
    + destruct Hx as [<-|[]]. exact Hv.
    + apply (IH v c1); [discriminate|exact Hw1|exact Hx].
Qed.

Lemma string_eq_decidable : decidable_eq string.
Proof. intros x y. destruct (string_dec x y); [now left|now right]. Qed.

(** Every walk to another router can be replaced by one that costs no
    more and visits no more routers than the network has. *)
Lemma walk_shorten net :
  exact_links net -> closed net ->
  forall n p u d c,
    (List.length p <= n)%nat ->
    walk net u p d c -> d <> u ->
    exists p' c',
      walk net u p' d c' /\ c' <= c /\ p' <> [] /\
      (List.length p' + 1 <= List.length net)%nat.
Proof.
  intros Hn Hc. induction n as [|n IH]; intros p u d c Hlen [Hlast Hw] Hdu.
  - destruct p; [|simpl in Hlen; lia]. simpl in Hlast. congruence.
  - assert (Hne : p <> []).
    { intros ->. simpl in Hlast. congruence. }
    destruct (NoDup_decidable string_eq_decidable (u :: p)) as [Hnd|Hdup].
    + exists p, c. split; [split; auto|]. split; [lia|]. split; auto.
      pose proof (NoDup_incl_length Hnd
                    (walk_routers_present net Hc p u c Hne Hw)) as Hl.
      unfold Dict.keys in Hl. rewrite length_map in Hl.
      simpl in Hl. lia.
    + apply (not_NoDup string_eq_decidable) in Hdup.
      destruct Hdup as (a & l1 & l2 & l3 & Heq).
      assert (Hcut : exists p1 p2,
                p = p1 ++ p2 ++ l3 /\ p2 <> [] /\
                last (p1 ++ p2) u = last p1 u).
      { destruct l1 as [|u0 l1]; simpl in Heq; inversion Heq; subst.
        - exists [], (l2 ++ [a]). simpl. split; [|split].
          + now rewrite <- app_assoc.
          + destruct l2; discriminate.
          + apply last_last.
        - exists (l1 ++ [a]), (l2 ++ [a]). split; [|split].
          + now rewrite <- !app_assoc.
          + destruct l2; discriminate.
          + now rewrite app_assoc, !last_last. }
      destruct Hcut as (p1 & p2 & -> & Hp2 & Hcyc).
      destruct (walk_cut_cycle net p1 p2 l3 u c Hn Hcyc Hw)
        as (c' & Hw' & Hle & Hlast').
      destruct (IH (p1 ++ l3) u d c')
        as (p' & c'' & Hwalk & Hle' & Hp' & Hlen').
      * rewrite !length_app in Hlen. rewrite length_app.
        destruct p2; [congruence|]. simpl in Hlen. lia.
      * split; auto. now rewrite Hlast'.
      * exact Hdu.
      * exists p', c''. repeat split; auto; try apply Hwalk. lia.
Qed.

(** ** Every pair is relaxed in every round *)

Lemma advance_refl net : advance net net.
Proof.
  split; [apply improves_on_refl|]. split; [reflexivity|auto].
Qed.

Lemma advance_trans a b c : advance a b -> advance b c -> advance a c.
Proof.
  intros (H1 & H2 & H3 & H4) (H5 & H6 & H7 & H8). split; [|split; [|split]].
  - eapply improves_on_trans; eauto.
  - congruence.
  - auto.
  - auto.
Qed.

Lemma relax_pair_advance router nb net res net' :
  relax_pair router nb net = (res, net') -> advance net net'.
Proof.
  intros Hp. split; [|split; [|split]].
  - eapply relax_pair_improves; eauto.
  - eapply relax_pair_topo; eauto.
  - intros Hc. eapply relax_pair_consistent; eauto.
  - intros Hs. eapply relax_pair_sound; eauto.
Qed.

Lemma for_neighbors_advance router nbs ch net res net' :
  for_neighbors router nbs ch net = (res, net') -> advance net net'.
Proof.
  apply (for_neighbors_rel advance advance_refl advance_trans).
  intros. eapply relax_pair_advance; eauto.
Qed.

Lemma for_routers_advance names ch net res net' :
  for_routers names ch net = (res, net') -> advance net net'.
Proof.
  apply (for_routers_rel advance advance_refl advance_trans).
  intros. eapply relax_pair_advance; eauto.
Qed.

Lemma simulate_loop_advance budget iter out net res net' out' :
  simulate_loop budget iter out net = (res, net', out') -> advance net net'.
Proof.
  apply (simulate_loop_rel advance advance_refl advance_trans).
  intros. eapply relax_pair_advance; eauto.
Qed.

(** A neighbour loop that returns has run the pair step of each of its
    neighbours, on a state that the start advanced to. *)
Lemma for_neighbors_steps router nbs :
  forall ch net ch' net',
    for_neighbors router nbs ch net = (Ok ch', net') ->
    forall nb, In nb nbs ->
      exists net1 net2 m,
        advance net net1 /\
        relax_pair router nb net1 = (Ok m, net2) /\
        advance net2 net'.
Proof.
  induction nbs as [|nb nbs IH]; simpl; intros ch net ch' net' H x Hx.
  - contradiction.
  - unfold bind in H.
    destruct (relax_pair router nb net) as [[m|e0] net1] eqn:Hp;
      [|discriminate].
    destruct Hx as [<-|Hx].
    + exists net, net1, m. split; [apply advance_refl|]. split; auto.
      eapply for_neighbors_advance; eauto.
    + destruct (IH _ _ _ _ H x Hx) as (n1 & n2 & m' & Ha & Hs & Hb).
      exists n1, n2, m'. split; auto.
      eapply advance_trans; [eapply relax_pair_advance; eauto|exact Ha].
Qed.

Lemma for_routers_steps names :
  forall ch net ch' net',
    for_routers names ch net = (Ok ch', net') ->
    forall router r nb,
      In router names -> Dict.get router net = Some r ->
      In nb (Dict.keys (neighbors r)) ->
      exists net1 net2 m,
        advance net net1 /\
        relax_pair router nb net1 = (Ok m, net2) /\
        advance net2 net'.
Proof.
  induction names as [|router names IH]; simpl;
    intros ch net ch' net' H x rx nb Hx Hrx Hnb.
  - contradiction.
  - unfold bind, lookup_router in H.
    destruct (Dict.get router net) as [r|] eqn:Hr; [|discriminate].
    destruct (for_neighbors router (Dict.keys (neighbors r)) ch net)
      as [[ch1|e0] net1] eqn:Hn; [|discriminate].
    pose proof (for_neighbors_advance _ _ _ _ _ _ Hn) as Hadv.
    destruct Hx as [<-|Hx].
    + rewrite Hr in Hrx. inversion Hrx; subst rx.
      destruct (for_neighbors_steps _ _ _ _ _ _ Hn nb Hnb)
        as (n1 & n2 & m & Ha & Hs & Hb).
      exists n1, n2, m. split; auto. split; auto.
      eapply advance_trans; [exact Hb|].
      eapply for_routers_advance; eauto.
    + pose proof Hadv as (Himp & Ht & Hcons).
      destruct (topo_neighbors _ _ _ _ Ht Hrx) as (r1 & Hr1 & _ & Hn1).
      destruct (IH _ _ _ _ H x r1 nb Hx Hr1) as (n1 & n2 & m & Ha & Hs & Hb).
      { now rewrite Hn1. }
      exists n1, n2, m. split; auto.
      eapply advance_trans; [exact Hadv|exact Ha].
Qed.

(** After the pair step the router's cost to a destination is at most the
    link cost plus the cost the neighbour had. *)
Lemma relax_pair_bound router nb net m net' :
  sound net ->
  relax_pair router nb net = (Ok m, net') ->
  forall w d dc via,
    link_cost net router nb = Some w ->
    route net nb d = Some (dc, via) ->
    exists c h, route net' router d = Some (c, h) /\
                int_of c <= w + int_of dc.
Proof.
  intros Hs Hp w d dc via Hl Hroute.
  apply relax_pair_Ok in Hp.
  destruct Hp as (rnb & self & self' & Hnb & Hself & Hupd & ->).
  apply update_routing_table_inv in Hupd.
  destruct Hupd as [(_ & H & _)|(w' & Hw' & _ & _ & Hfold)]; [discriminate|].
  apply link_cost_link in Hl.
  unfold link in Hl. rewrite Hself in Hl. rewrite Hl in Hw'.
  inversion Hw'; subst w'. clear Hw'.
  unfold route in Hroute. rewrite Hnb in Hroute.
  destruct (sound_update _ _ _ _ _ _ _ _ Hs Hnb Hself Hl Hfold) as [_ Hget].
  rewrite route_set, String.eqb_refl, Hget, Hroute.
  unfold int_better; simpl.
  destruct (Dict.get d (routing_table self)) as [[c h]|].
  - destruct (Z.ltb_spec (w + int_of dc) (int_of c)).
    + eexists. eexists. split; [reflexivity|simpl; lia].
    + eexists. eexists. split; [reflexivity|lia].
  - eexists. eexists. split; [reflexivity|simpl; lia].
Qed.

(** ** Convergence within as many rounds as there are routers *)

Lemma covered_start net : sound net -> covered 0 net.
Proof.
  intros Hs u p d c Hne Hlen [Hlast Hw].
  destruct p as [|v [|v2 p]]; [now contradiction Hne| |simpl in Hlen; lia].
  simpl in Hlast, Hw. subst d.
  destruct (link_cost net u v) as [w|] eqn:Hl; [|discriminate].
  inversion Hw; subst c.
  apply link_cost_link in Hl.
  destruct (c_direct _ (proj1 Hs) _ _ _ Hl) as (c0 & h0 & Hr & Hle).
  exists c0, h0. split; auto.
  apply cost_le_int_of in Hle; [lia|].
  eapply exact_good; eauto. apply Hs.
Qed.

(** A round extends the coverage by one link. *)
Lemma covered_round net k changes net' :
  sound net -> covered k net ->
  run_round net = (Ok changes, net') ->
  covered (S k) net'.
Proof.
  intros Hs Hcov Hr u p d c Hne Hlen [Hlast Hw].
  pose proof (run_round_topo _ _ _ Hr) as Ht.
  pose proof (run_round_sound _ _ _ Hs Hr) as Hs'.
  destruct p as [|v q]; [now contradiction Hne|].
  rewrite last_cons in Hlast.
  rewrite (topo_walk_cost _ _ Ht (v :: q) u) in Hw.
  cbn [walk_cost] in Hw.
  destruct (link_cost net u v) as [w|] eqn:Hl; [|discriminate].
  destruct (walk_cost net v q) as [c1|] eqn:Hw1; [|discriminate].
  inversion Hw; subst c. clear Hw.
  destruct (list_eq_dec string_dec q []) as [->|Hq].
  - simpl in Hlast, Hw1. subst d. inversion Hw1; subst c1.
    assert (Hl' : link net' u v = Some (Int w)).
    { rewrite (topo_link _ _ u v Ht). now apply link_cost_link. }
    destruct (c_direct _ (proj1 Hs') _ _ _ Hl') as (c0 & h0 & Hr0 & Hle).
    exists c0, h0. split; auto.
    apply cost_le_int_of in Hle; [lia|].
    eapply exact_good; eauto. apply Hs'.
  - destruct (Hcov v q d c1) as (c1' & h1 & Hr1 & Hle1);
      [exact Hq|simpl in Hlen; lia|split; auto|].
    pose proof (proj1 (link_cost_link _ _ _ _) Hl) as Hl0. unfold link in Hl0.
    destruct (Dict.get u net) as [r|] eqn:Hu; [|discriminate].
    unfold run_round in Hr.
    destruct (for_routers_steps _ _ _ _ _ Hr u r v)
      as (n1 & n2 & m & (Hi1 & Ht1 & _ & Hk1) & Hstep & (Hi2 & _ & _)).
    { eapply DictFacts.get_Some_keys; eauto. }
    { exact Hu. }
    { eapply DictFacts.get_Some_keys; eauto. }
    destruct (Hi1 _ _ _ _ Hr1) as (c2 & h2 & Hr2 & Hle2).
    assert (Hl1 : link_cost n1 u v = Some w).
    { now rewrite (topo_link_cost _ _ u v Ht1). }
    pose proof (Hk1 Hs) as Hs1.
    destruct (relax_pair_bound _ _ _ _ _ Hs1 Hstep w d c2 h2 Hl1 Hr2)
      as (c3 & h3 & Hr3 & Hle3).
    destruct (Hi2 _ _ _ _ Hr3) as (c4 & h4 & Hr4 & Hle4).
    exists c4, h4. split; auto.
    pose proof (relax_pair_sound _ _ _ _ _ Hs1 Hstep) as Hs2.
    pose proof (cost_le_int _ _ (exact_good _ _ _ _ _ (proj2 Hs1) Hr2)
                  (exact_good _ _ _ _ _ (proj2 Hs) Hr1) Hle2).
    pose proof (cost_le_int _ _ (exact_good _ _ _ _ _ (proj2 Hs') Hr4)
                  (exact_good _ _ _ _ _ (proj2 Hs2) Hr3) Hle4).
    lia.
Qed.


Lemma covered_rounds n :
  forall k net net',
    sound net -> covered k net ->
    rounds n net = Some net' ->
    covered (k + n) net'.
Proof.
  induction n as [|n IH]; simpl; intros k net net' Hs Hcov Hr.
  - inversion Hr; subst. now rewrite Nat.add_0_r.
  - destruct (run_round net) as [[ch|e] net1] eqn:Hrr; [|discriminate].
    replace (k + S n)%nat with (S k + n)%nat by lia.
    apply (IH (S k) net1); auto.
    + eapply run_round_sound; eauto.
    + eapply covered_round; eauto.
Qed.

(** Once the walks of as many links as there are other routers are
    covered, every walk is. *)
Lemma covered_optimal net k :
  sound net -> covered k net ->
  (List.length net <= k + 2)%nat ->
  optimal net.
Proof.
  intros [Hc Hx] Hcov Hlen u p d c Hne Hwalk.
  destruct (string_dec d u) as [->|Hdu].
  - destruct Hwalk as [_ Hw].
    destruct p as [|v p]; [now contradiction Hne|].
    pose proof (walk_cost_nonneg net (x_links _ Hx) _ _ _ Hw) as Hpos.
    simpl in Hw. destruct (link_cost net u v) as [w|] eqn:Hl; [|discriminate].
    apply link_cost_link in Hl. unfold link in Hl.
    destruct (Dict.get u net) as [r|] eqn:Hu; [|discriminate].
    exists zero, u. split; auto.
    eapply c_self; eauto. intros E. rewrite E in Hl. discriminate.
  - destruct (walk_shorten net (x_links _ Hx) (c_closed _ Hc)
                (List.length p) p u d c (le_n _) Hwalk Hdu)
      as (p' & c' & Hwalk' & Hle & Hp' & Hlen').
    destruct (Hcov u p' d c' Hp') as (c0 & h0 & Hr & Hle0); auto; [lia|].
    exists c0, h0. split; auto. lia.
Qed.

(** With every walk covered no pair step finds anything better. *)
Lemma optimal_pair_quiet router nb net m net' :
  sound net -> optimal net ->
  relax_pair router nb net = (Ok m, net') ->
  m = false /\ net' = net.
Proof.
  intros Hs Hopt Hp.
  assert (Hm : m = false).
  { pose proof Hp as Hp0. apply relax_pair_Ok in Hp.
    destruct Hp as (rnb & self & self' & Hnb & Hself & Hupd & _).
    apply update_routing_table_inv in Hupd.
    destruct Hupd as [(_ & H & _)|(w & Hw & _ & _ & Hfold)]; [discriminate|].
    destruct (sound_update _ _ _ _ _ _ _ _ Hs Hnb Hself Hw Hfold)
      as [Hm _].
    injection Hm as ->. apply existsb_false_intro.
    intros [d [dc via]] Hin.
    assert (Hroute : route net nb d = Some (dc, via)).
    { unfold route. rewrite Hnb. apply DictFacts.In_get; auto.
      eapply c_wf; eauto. apply Hs. }
    destruct (exact_walk _ _ _ _ _ (proj2 Hs) Hroute)
      as (q & [Hlast Hcost] & _).
    assert (Hl : link net router nb = Some w)
      by (unfold link; now rewrite Hself).
    destruct (exact_link_cost _ _ _ _ (x_links _ (proj2 Hs)) Hl)
      as (_ & _ & Hlc).
    destruct (Hopt router (nb :: q) d (int_of w + int_of dc))
      as (c0 & h0 & Hr0 & Hle).
    - discriminate.
    - split; [now rewrite last_cons|].
      simpl. now rewrite Hlc, Hcost.
    - unfold route in Hr0. rewrite Hself in Hr0.
      unfold int_better. simpl. rewrite Hr0. apply Z.ltb_ge. lia. }
  subst m. split; auto. eapply relax_pair_false; eauto.
Qed.

Lemma optimal_neighbors_quiet router nbs :
  forall ch net r,
    sound net -> optimal net ->
    Dict.get router net = Some r ->
    incl nbs (Dict.keys (neighbors r)) ->
    for_neighbors router nbs ch net = (Ok ch, net).
Proof.
  induction nbs as [|nb nbs IH]; simpl; intros ch net r Hs Hopt Hr Hincl.
  - reflexivity.
  - destruct (relax_pair_total router nb net r Hs Hr)
      as (m & net1 & Hp).
    { apply Hincl. now left. }
    destruct (optimal_pair_quiet _ _ _ _ _ Hs Hopt Hp) as [-> ->].
    unfold bind. rewrite Hp. apply (IH ch net r); auto.
    intros x Hx. apply Hincl. now right.
Qed.

Lemma optimal_routers_quiet names :
  forall ch net,
    sound net -> optimal net ->
    incl names (Dict.keys net) ->
    for_routers names ch net = (Ok ch, net).
Proof.
  induction names as [|router names IH]; simpl; intros ch net Hs Hopt Hincl.
  - reflexivity.
  - destruct (DictFacts.keys_get _ router net) as [r Hr].
    { apply Hincl. now left. }
    unfold bind, lookup_router. rewrite Hr.
    rewrite (optimal_neighbors_quiet router _ ch net r Hs Hopt Hr
               (incl_refl _)).
    apply IH; auto. intros x Hx. apply Hincl. now right.
Qed.

Lemma optimal_round_quiet net :
  sound net -> optimal net -> run_round net = (Ok false, net).
Proof.
  intros Hs Hopt. unfold run_round.
  apply optimal_routers_quiet; auto using incl_refl.
Qed.

Lemma all_changed_last b :
  forall net,
    all_changed (S b) net = true ->
    exists net_b net',
      rounds b net = Some net_b /\ run_round net_b = (Ok true, net').
Proof.
  induction b as [|b IH]; intros net H.
  - simpl in H. destruct (run_round net) as [[[|]|e] net1] eqn:Hr;
      try discriminate.
    exists net, net1. auto.
  - cbn [all_changed] in H.
    destruct (run_round net) as [[[|]|e] net1] eqn:Hr; try discriminate.
    destruct (IH net1 H) as (net_b & net' & Hrounds & Hlast).
    exists net_b, net'. split; auto. simpl. now rewrite Hr.
Qed.

(** After [b] rounds on a network with exact costs and at most [b + 2]
    routers the next round is quiet. *)
Lemma late_round_quiet net0 b net_b :
  sound net0 -> (List.length net0 <= b + 2)%nat ->
  rounds b net0 = Some net_b ->
  run_round net_b = (Ok false, net_b).
Proof.
  intros Hs0 Hlen Hr.
  pose proof (rounds_sound _ _ _ Hs0 Hr) as Hs.
  pose proof (covered_rounds b 0 net0 net_b Hs0 (covered_start _ Hs0) Hr)
    as Hcov.
  apply optimal_round_quiet; auto.
  apply (covered_optimal net_b b); auto.
  rewrite (topo_length _ _ (rounds_topo _ _ _ Hr)). lia.
Qed.

(** The loop of [simulate] on a network with exact costs converges when
    its budget is at least 1 and the number of routers minus 1, within
    that many rounds. *)
Lemma simulate_loop_converges net0 budget iter out :
  sound net0 -> (1 <= budget)%nat ->
  (List.length net0 <= budget + 1)%nat ->
  exists ex net out',
    simulate_loop budget iter out net0 = (Ok ex, net, out') /\
    converged ex = true /\
    iter + 1 <= iteration ex
      <= iter + Z.max 1 (Z.of_nat (List.length net0) - 1) /\
    In PrintConverged out'.
Proof.
  intros Hs0 Hone Hcap.
  destruct (simulate_loop_total budget iter out net0 Hs0)
    as (ex & net & out' & Hloop).
  exists ex, net, out'. split; [exact Hloop|].
  apply simulate_loop_spec in Hloop.
  destruct Hloop as (tail & n & -> & Hle & _ & Hiter & Hrounds & Hout).
  destruct (converged ex) eqn:Hconv.
  - destruct Hout as ((k & -> & Hall) & Hq & Hin).
    split; [reflexivity|]. split.
    + split; [lia|].
      destruct k as [|k]; [lia|].
      destruct (all_changed_last k net0 Hall) as (net_k & net' & Hrk & Hch).
      destruct (Nat.le_gt_cases (List.length net0) (k + 2)) as [Hsmall|Hbig].
      * rewrite (late_round_quiet net0 k net_k Hs0 Hsmall Hrk) in Hch.
        discriminate.
      * lia.
    + apply in_or_app. now right.
  - exfalso. destruct Hout as (-> & Hall & _).
    destruct budget as [|b]; [lia|].
    destruct (all_changed_last b net0 Hall) as (net_b & net' & Hrb & Hch).
    rewrite (late_round_quiet net0 b net_b Hs0) in Hch;
      [discriminate|lia|exact Hrb].
Qed.

(** ** [simulate] as a whole *)


Lemma to_nat_pos z : 0 < z -> exists b, Z.to_nat z = S b.
Proof.
  intros H. exists (Nat.pred (Z.to_nat z)).
  assert (0 < Z.to_nat z)%nat by lia. lia.
Qed.

(** A run of [simulate] that returned and printed the convergence message
    has drawn the network and left its loop with [converged] set. *)
Lemma simulate_converged_inv max_iterations net0 net out :
  simulate max_iterations net0 = (Ok tt, net, out) ->
  In PrintConverged out ->
  drawable net0 /\
  exists ex,
    simulate_loop (Z.to_nat max_iterations) 0 [PrintStart] net0
      = (Ok ex, net, out) /\
    converged ex = true.
Proof.
  intros Hsim Hin.
  destruct (visualize_network_cases net0) as [Hv|(node & Hv & _)].
  2:{ unfold simulate in Hsim. rewrite Hv in Hsim. discriminate. }
  pose proof (proj1 (visualize_network_Ok net0) Hv) as Hd.
  split; [exact Hd|].
  rewrite (simulate_drawable _ _ Hd) in Hsim.
  destruct (simulate_loop (Z.to_nat max_iterations) 0 [PrintStart] net0)
    as [[[ex|e] net1] out1] eqn:Hloop; [|discriminate].
  destruct (converged ex) eqn:Hconv.
  - inversion Hsim; subst. eauto.
  - exfalso. inversion Hsim; subst.
    apply simulate_loop_spec in Hloop.
    destruct Hloop as (tail & n & -> & _ & _ & _ & _ & Hout).
    rewrite Hconv in Hout. destruct Hout as (_ & _ & Hnot).
    apply in_app_or in Hin. destruct Hin as [Hin|[Hin|[]]]; [|discriminate].
    simpl in Hin. destruct Hin as [Hin|Hin]; [discriminate|auto].
Qed.


(** ** Converged costs and the order of processing *)

Lemma link_walk_cost net net' :
  (forall u v, link net' u v = link net u v) ->
  forall p u, walk_cost net' u p = walk_cost net u p.
Proof.
  intros Hl. induction p as [|v p IH]; simpl; intros u; auto.
  unfold link_cost. now rewrite Hl, IH.
Qed.

(** When [simulate] converged on a network built with exact costs, every
    entry holds the least cost of a walk and a next hop that starts a walk
    of that cost. *)
Lemma converged_entry_shortest net0 max_iterations net out u d c h :
  built net0 -> exact_links net0 ->
  simulate max_iterations net0 = (Ok tt, net, out) ->
  In PrintConverged out ->
  route net u d = Some (c, h) ->
  topo net = topo net0 /\
  cost_is c (int_of c) /\
  shortest_cost net u d (int_of c) /\ shortest_hop net u d h.
Proof.
  intros Hb Hx Hsim Hin Hroute.
  pose proof (built_sound _ Hb Hx) as Hs0.
  destruct (simulate_converged_inv _ _ _ _ Hsim Hin)
    as (_ & ex & Hloop & Hconv).
  pose proof (simulate_loop_converged _ _ _ _ _ _ _ Hloop Hconv) as Hquiet.
  pose proof (simulate_loop_sound _ _ _ _ _ _ _ Hs0 Hloop) as Hs.
  destruct (run_round_false _ _ Hquiet) as [_ Hq].
  split; [eapply simulate_loop_topo; eauto|].
  split.
  - apply cost_is_int_of. eapply exact_good; eauto. apply Hs.
  - now apply quiet_entry_shortest.
Qed.

Lemma link_names net x y w :
  link net x y = Some w -> In x (all_names net) /\ In y (all_names net).
Proof.
  unfold link, all_names. intros H.
  destruct (Dict.get x net) as [r|] eqn:Hx; [|discriminate].
  split; apply in_or_app.
  - left. eapply DictFacts.get_Some_keys; eauto.
  - right. apply in_flat_map. exists (x, r). split.
    + now apply DictFacts.get_Some_In.
    + simpl. eapply DictFacts.get_Some_keys; eauto.
Qed.

Lemma option_num_eqb_eq a b : option_num_eqb a b = true -> a = b.
Proof.
  destruct a as [[x|f]|], b as [[y|g]|]; simpl; try discriminate; auto.
  intros H. apply Z.eqb_eq in H. now subst.
Qed.

Lemma same_linksb_sound net net' :
  same_linksb net net' = true ->
  forall x y, link net' x y = link net x y.
Proof.
  unfold same_linksb. intros H x y.
  rewrite forallb_forall in H.
  assert (Hin : forall w, link net x y = Some w \/ link net' x y = Some w ->
            link net' x y = link net x y).
  { intros w Hw. apply option_num_eqb_eq.
    assert (Hxy : In x (all_names net ++ all_names net') /\
                  In y (all_names net ++ all_names net')).
    { destruct Hw as [Hw|Hw]; apply link_names in Hw; destruct Hw;
        split; apply in_or_app; auto. }
    destruct Hxy as [Hx Hy]. specialize (H x Hx).
    rewrite forallb_forall in H. exact (H y Hy). }
  destruct (link net x y) as [w|] eqn:E.
  - apply (Hin w). now left.
  - destruct (link net' x y) as [w'|] eqn:E'; auto.
    apply (Hin w'). now right.
Qed.

(** ** The rows of [display_routing_table] *)









(** ** Facts about the example networks *)

Lemma example_simulate :
  simulate 100 example_network
    = (Ok tt, example_after 3, snd (simulate 100 example_network)).
Proof. vm_compute. reflexivity. Qed.

Lemma example_loop :
  simulate_loop (Z.to_nat 100) 0 [PrintStart] example_network
    = (Ok (mkExit 4 true), example_after 3,
       snd (simulate_loop (Z.to_nat 100) 0 [PrintStart] example_network)).
Proof. vm_compute. reflexivity. Qed.

Lemma example_rounds : rounds 3 example_network = Some (example_after 3).
Proof. vm_compute. reflexivity. Qed.

Lemma example_converged :
  In PrintConverged (snd (simulate 100 example_network)).
Proof. vm_compute. tauto. Qed.

Lemma example_table_wf :
  Dict.wf (routing_table (example_router "B")).
Proof. unfold Dict.wf. vm_compute. nodup_strings. Qed.

Lemma example_exact : exact_links example_network.
Proof. apply exact_linksb_sound. vm_compute. reflexivity. Qed.

Lemma example_drawable : drawable example_network.
Proof. apply drawableb_sound. vm_compute. reflexivity. Qed.

Lemma example_sums_defined :
  sums_defined (Int 1) (routing_table (example_router "B")).
Proof.
  intros dest dc via Hin. vm_compute in Hin.
  repeat (destruct Hin as [Hin|Hin];
          [injection Hin as _ Hdc _; subst dc; eexists;
           vm_compute; reflexivity|]).
  contradiction.
Qed.

(** ** The claims *)

(** Claim C1: [simulate] converges on networks whose converged tables are
    not the shortest-path tables.  On the network of one router without
    links the run converges in its first round and the router's table has
    no entry for the router itself, although the least cost from it to
    itself is 0.  On the network of two routers joined by a link of cost
    [2 ** 53 + 1] the run converges with the cost [9007199254740992.0] from
    A to B, a float below the least cost [2 ** 53 + 1] of a walk from A to
    B: the sum of the link cost and the float [0.0] of the self entry of B
    was rounded. *)
Theorem converged_tables_shortest_but_lone_router :
  (built lone_network /\
   simulate 100 lone_network
     = (Ok tt, lone_network,
        [PrintStart; PrintIteration 1; PrintTable "A" []; PrintConverged]) /\
   reachable lone_network "A" "A" /\
   shortest_cost lone_network "A" "A" 0 /\
   route lone_network "A" "A" = None) /\
  (built rounded_network /\
   shortest_cost rounded_network "A" "B" (2 ^ 53 + 1) /\
   exists net out,
     simulate 100 rounded_network = (Ok tt, net, out) /\
     In PrintConverged out /\
     (forall u v, link net u v = link rounded_network u v) /\
     route net "A" "B"
       = Some (Float (S754_finite false 4503599627370496 1), "B") /\
     cost_is (Float (S754_finite false 4503599627370496 1)) (2 ^ 53) /\
     py_lt (Float (S754_finite false 4503599627370496 1))
           (Int (2 ^ 53 + 1)) = true).
Proof.
  split.
  - split; [exact built_lone|].
    split; [reflexivity|].
    assert (Hw : walk lone_network "A" [] "A" 0) by (split; reflexivity).
    split; [exists [], 0; exact Hw|].
    split; [|reflexivity].
    split; [exists []; exact Hw|].
    intros p' c' [_ Hcost]. destruct p' as [|v p'].
    + inversion Hcost. lia.
    + simpl in Hcost. discriminate.
  - split; [exact built_rounded|].
    split.
    + split.
      * exists ["B"]. split; vm_compute; reflexivity.
      * intros p' c' [Hlast Hcost].
        destruct p' as [|v q]; [discriminate|].
        cbn [walk_cost] in Hcost.
        destruct (link_cost rounded_network "A" v) as [w|] eqn:Hl;
          [|discriminate].
        destruct (walk_cost rounded_network v q) as [c1|] eqn:Hw;
          [|discriminate].
        inversion Hcost; subst c'.
        pose proof (walk_cost_nonneg_links rounded_network
                      (c_nonneg _ (built_consistent _ built_rounded))
                      _ _ _ Hw) as Hc1.
        assert (HA : option_map neighbors (Dict.get "A" rounded_network)
                     = Some [("B", Int (2 ^ 53 + 1))])
          by (vm_compute; reflexivity).
        unfold link_cost, link in Hl.
        destruct (Dict.get "A" rounded_network) as [r|]; [|discriminate].
        simpl in HA. injection HA as HA. rewrite HA in Hl.
        cbn [Dict.get] in Hl.
        destruct (String.eqb v "B"); inversion Hl. lia.
    + eexists. eexists.
      split; [vm_compute; reflexivity|].
      split; [simpl; tauto|].
      split.
      { intros u v. apply topo_link. vm_compute. reflexivity. }
      split; [reflexivity|].
      split; [vm_compute; reflexivity|vm_compute; reflexivity].
Qed.

(** Claim C2, amended: [main] builds the six-router topology without
    raising and [simulate] with the cap of 100 leaves its loop at
    iteration 4 with [converged] set; it returns [None], prints the
    convergence message and no cap warning.  Router A's table then holds
    A=0.0 (via A), B=1, F=2, C=4, E=4 and D=5, every one of the five with
    next hop B. *)
Theorem main_converges_in_four_rounds :
  fst main_network = Ok tt /\
  exists net out,
    simulate_loop (Z.to_nat 100) 0 [PrintStart] example_network
      = (Ok (mkExit 4 true), net, out) /\
    main = (Ok tt, net, PrintLinkCosts :: out) /\
    In PrintConverged out /\ ~ In PrintMaxIterations out /\
    option_map routing_table (Dict.get "A" net) =
      Some [("B", (Int 1, "B")); ("A", (zero, "A")); ("F", (Int 2, "B"));
            ("C", (Int 4, "B")); ("E", (Int 4, "B")); ("D", (Int 5, "B"))].
Proof.
  split; [vm_compute; reflexivity|].
  eexists. eexists.
  split; [vm_compute; reflexivity|].
  split; [vm_compute; reflexivity|].
  split; [simpl; tauto|].
  split; [not_in_list|].
  vm_compute; reflexivity.
Qed.

(** The table of router A after [main] does not hold the next hops F
    for E and E for D: it holds B for both (E and D are not neighbours of
    A). *)
Lemma main_next_hops_are_neighbors :
  route (snd (fst main)) "A" "E" = Some (Int 4, "B") /\
  route (snd (fst main)) "A" "E" <> Some (Int 4, "F") /\
  route (snd (fst main)) "A" "D" = Some (Int 5, "B") /\
  route (snd (fst main)) "A" "D" <> Some (Int 5, "E").
Proof.
  vm_compute. repeat split; discriminate.
Qed.

(** Claim C3, amended: for every router, every [neighbor_id] of its
    [neighbors] map (with link cost [w]) and every neighbour table, when
    the sum [w + dest_cost] of line 68 is defined for every destination of
    the table, the relaxation returns, leaves name and neighbours alone,
    and for each destination [dest] with candidate [w + dest_cost]: if
    [dest] has no entry or the candidate is strictly less than the entry's
    cost, the entry becomes [(candidate, neighbor_id)]; if the candidate is
    not less (in particular on a tie), the entry keeps its cost and next
    hop.  Destinations absent from the table are untouched, and a change is
    reported exactly when the test succeeded for some destination.  When
    the sum raises [OverflowError] for some destination (an int too large
    for a float is added to a float), the relaxation raises it and reports
    nothing; the entries it had are kept or were improved. *)
Theorem update_routing_table_strict_improvement :
  forall (self : Router) (neighbor_id : string) (w : num)
         (neighbor_table : Dict.t entry),
    Dict.get neighbor_id (neighbors self) = Some w ->
    Dict.wf neighbor_table ->
    (sums_defined w neighbor_table ->
     exists self' changed,
       update_routing_table neighbor_id neighbor_table self
         = (Ok changed, self') /\
       name self' = name self /\
       neighbors self' = neighbors self /\
       (forall dest dest_cost via candidate,
           Dict.get dest neighbor_table = Some (dest_cost, via) ->
           py_add w dest_cost = Ok candidate ->
           (better (routing_table self) dest candidate ->
            Dict.get dest (routing_table self')
              = Some (candidate, neighbor_id)) /\
           (forall old_cost old_hop,
              Dict.get dest (routing_table self) = Some (old_cost, old_hop) ->
              py_lt candidate old_cost = false ->
              Dict.get dest (routing_table self')
                = Some (old_cost, old_hop))) /\
       (forall dest,
           Dict.get dest neighbor_table = None ->
           Dict.get dest (routing_table self')
             = Dict.get dest (routing_table self)) /\
       (changed = true <->
        exists dest dest_cost via candidate,
          Dict.get dest neighbor_table = Some (dest_cost, via) /\
          py_add w dest_cost = Ok candidate /\
          better (routing_table self) dest candidate)) /\
    ((exists dest dest_cost via,
        Dict.get dest neighbor_table = Some (dest_cost, via) /\
        py_add w dest_cost = Raise OverflowError) ->
     exists self',
       update_routing_table neighbor_id neighbor_table self
         = (Raise OverflowError, self') /\
       name self' = name self /\
       neighbors self' = neighbors self /\
       forall d c h,
         Dict.get d (routing_table self) = Some (c, h) ->
         exists c' h',
           Dict.get d (routing_table self') = Some (c', h') /\
           cost_le c' c).
Proof.
  intros self neighbor_id w nt Hnb Hwf. split.
  - intros Hdef.
    destruct (relax_loop w neighbor_id nt (routing_table self, false))
      as [res rt'] eqn:Hf.
    destruct (relax_loop_spec w neighbor_id nt Hwf Hdef _ _ _ _ Hf)
      as [Hres Hget].
    simpl in Hres. subst res.
    exists (mkRouter (name self) (neighbors self) rt'),
           (existsb (item_better (routing_table self) w) nt).
    split. { unfold update_routing_table. now rewrite Hnb, Hf. }
    split; [reflexivity|]. split; [reflexivity|]. simpl.
    split; [|split].
    + intros dest dc via cand Hd Hadd. split.
      * intros Hbetter. rewrite Hget. unfold relaxed. rewrite Hd. simpl.
        rewrite Hadd.
        apply (proj2 (betterb_better _ _ _)) in Hbetter.
        now rewrite Hbetter.
      * intros old_cost old_hop Hold Hge. rewrite Hget. unfold relaxed.
        rewrite Hd. simpl. rewrite Hadd.
        unfold betterb. now rewrite Hold, Hge.
    + intros dest Hnone. rewrite Hget. unfold relaxed. now rewrite Hnone.
    + split.
      * intros Hm. apply existsb_exists in Hm.
        destruct Hm as ([dest [dc via]] & Hin & Hb).
        unfold item_better in Hb. simpl in Hb.
        destruct (py_add w dc) as [cand|e] eqn:Hadd; [|discriminate].
        exists dest, dc, via, cand. split.
        -- apply DictFacts.In_get; assumption.
        -- split; auto. now apply betterb_better.
      * intros (dest & dc & via & cand & Hin & Hadd & Hb).
        apply existsb_exists. exists (dest, (dc, via)). split.
        -- apply DictFacts.get_Some_In; assumption.
        -- unfold item_better. simpl. rewrite Hadd.
           now apply betterb_better.
  - intros (dest & dc & via & Hin & Hadd).
    destruct (relax_loop_overflow w neighbor_id nt) with
      (acc := (routing_table self, false)) as [rt' Hf].
    { exists dest, dc, via, OverflowError. split; auto.
      now apply DictFacts.get_Some_In. }
    assert (Hupd : update_routing_table neighbor_id nt self
                   = (Raise OverflowError,
                      mkRouter (name self) (neighbors self) rt')).
    { unfold update_routing_table. now rewrite Hnb, Hf. }
    eexists. split; [exact Hupd|].
    split; [reflexivity|]. split; [reflexivity|].
    intros d c h Hd.
    exact (update_routing_table_keeps _ _ _ _ _ d c h Hupd Hd).
Qed.

(** The relaxation of router A from the table of its neighbour B, over a
    link of cost [2 ** 1024], reports nothing: the candidate for B, the
    sum of the link cost and the float [0.0], raises [OverflowError], and
    so does [simulate]. *)
Lemma update_routing_table_raises_overflow :
  Dict.get "B" (neighbors (huge_router "A")) = Some (Int (2 ^ 1024)) /\
  Dict.get "B" (routing_table (huge_router "B")) = Some (zero, "B") /\
  Dict.get "B" (routing_table (huge_router "A"))
    = Some (Int (2 ^ 1024), "B") /\
  py_add (Int (2 ^ 1024)) zero = Raise OverflowError /\
  update_routing_table "B" (routing_table (huge_router "B"))
    (huge_router "A") = (Raise OverflowError, huge_router "A") /\
  fst (fst (simulate 100 huge_network)) = Raise OverflowError.
Proof.
  repeat split; vm_compute; reflexivity.
Qed.

(** Claim C4: [add_neighbor] leaves the self entry [(0.0, self)] in the
    table, and a relaxation over a link of non-negative cost from a table
    of non-negative costs keeps it, whether it returns or raises.  Router
    creation does not establish it: the router that [add_router] stores
    has an empty routing table, so it has no entry for itself, and a round
    leaves the table of a router without links empty. *)
Theorem self_route_missing_at_creation :
  (forall (v : string) (c : num) (self : Router),
     Dict.get (name self) (routing_table (add_neighbor v c self))
       = Some (zero, name self)) /\
  (forall (self self' : Router) (nb : string) (w : num)
          (nt : Dict.t entry) (res : result bool),
     Dict.get nb (neighbors self) = Some w -> nonneg w ->
     (forall dest dc via, In (dest, (dc, via)) nt -> nonneg dc) ->
     Dict.get (name self) (routing_table self) = Some (zero, name self) ->
     update_routing_table nb nt self = (res, self') ->
     Dict.get (name self') (routing_table self') = Some (zero, name self')) /\
  (forall (nm : string) (net : Network),
     Dict.get nm (add_router nm net) = Some (new_router nm) /\
     route (add_router nm net) nm nm = None) /\
  run_round lone_network = (Ok false, lone_network) /\
  route lone_network "A" "A" = None.
Proof.
  split; [|split; [|split; [|split; reflexivity]]].
  - intros v c self. simpl. apply DictFacts.get_set_same.
  - intros self self' nb w nt res Hnb Hw Hnt Hself Hupd.
    apply update_routing_table_inv in Hupd.
    destruct Hupd as [(_ & _ & ->)|(w' & Hw' & Hname & _ & Hfold)]; auto.
    rewrite Hnb in Hw'. inversion Hw'; subst w'.
    rewrite Hname. eapply relax_loop_self; [| | |exact Hfold]; auto.
  - intros nm net. unfold add_router, route.
    rewrite DictFacts.get_set_same. split; reflexivity.
Qed.



(** Claim C6, amended: [add_link(u, v, c)] performs its two writes in
    sequence, without a check beforehand.  When [u] and [v] are both
    routers it returns, both [neighbors[v]] of [u] and [neighbors[u]] of
    [v] are [c], the other routers are untouched and the symmetry
    invariant is kept.  When [u] is absent it raises [KeyError(u)] and
    nothing is changed.  When [u] is present and [v] is absent it raises
    [KeyError(v)] after router [u] has been given [v] as a neighbour. *)
Theorem add_link_writes_in_sequence :
  forall (net : Network) (u v : string) (c : num),
    (forall ru rv,
       Dict.get u net = Some ru -> Dict.get v net = Some rv ->
       exists net',
         add_link u v c net = (Ok tt, net') /\
         link net' u v = Some c /\ link net' v u = Some c /\
         (forall x, x <> u -> x <> v -> Dict.get x net' = Dict.get x net) /\
         (symmetric net -> symmetric net')) /\
    (Dict.get u net = None ->
     add_link u v c net = (Raise (KeyError u), net)) /\
    (forall ru,
       Dict.get u net = Some ru -> Dict.get v net = None ->
       add_link u v c net
         = (Raise (KeyError v), Dict.set u (add_neighbor v c ru) net) /\
       link (Dict.set u (add_neighbor v c ru) net) u v = Some c).
Proof.
  intros net u v c. split; [|split].
  - intros ru rv Hu Hv. eapply add_link_both_present; eauto.
  - intros Hu. unfold add_link. unfold_monad. now rewrite Hu.
  - intros ru Hu Hv. split.
    + unfold add_link. unfold_monad. rewrite Hu.
      rewrite DictFacts.get_set.
      destruct (String.eqb_spec v u) as [->|Hne]; [congruence|].
      now rewrite Hv.
    + rewrite link_set, String.eqb_refl. unfold add_neighbor; simpl.
      now rewrite DictFacts.get_set_same.
Qed.

(** [add_link] towards a name that is not a router raises after it has
    changed the first router. *)
Lemma add_link_to_missing_router_changes_first :
  Dict.get "B" lone_network = None /\
  add_link "A" "B" (Int 1) lone_network =
    (Raise (KeyError "B"),
     [("A", mkRouter "A" [("B", Int 1)]
              [("B", (Int 1, "B")); ("A", (zero, "A"))])]) /\
  snd (add_link "A" "B" (Int 1) lone_network) <> lone_network.
Proof.
  split; [reflexivity|]. split; [reflexivity|].
  vm_compute. discriminate.
Qed.

(** Claim C7: along a run of rounds from any network state, between the
    state after round [i] and the state after a later round [j], every
    entry [(router, destination)] recorded after round [i] is still
    recorded after round [j], with a cost that is not greater (it is the
    same number, or [<=] holds): costs are non-increasing and the key set
    of every table only grows. *)
Theorem costs_non_increasing_across_rounds :
  forall (net : Network) (i j : nat) (net_i net_j : Network),
    (i <= j)%nat ->
    rounds i net = Some net_i ->
    rounds j net = Some net_j ->
    forall router dest cost hop,
      route net_i router dest = Some (cost, hop) ->
      exists cost' hop',
        route net_j router dest = Some (cost', hop') /\ cost_le cost' cost.
Proof.
  intros net i j net_i net_j Hij Hi Hj.
  replace j with (i + (j - i))%nat in Hj by lia.
  rewrite (rounds_add i (j - i) net net_i Hi) in Hj.
  exact (rounds_improves (j - i) net_i net_j Hj).
Qed.

(** Claim C8: if a round returns and changed nothing (it reports no
    change, or it leaves the network as it was), then it reported no
    change, the network is exactly the one before the round, and a further
    round again reports no change and gives back the same network. *)
Theorem quiet_round_is_fixed_point :
  forall (net net' : Network) (changes : bool),
    run_round net = (Ok changes, net') ->
    changes = false \/ net' = net ->
    changes = false /\ net' = net /\ run_round net' = (Ok false, net').
Proof.
  intros net net' changes Hr Hq.
  assert (Hch : changes = false).
  { destruct Hq as [|Heq]; auto. destruct changes; auto.
    apply run_round_true in Hr. apply strictly_improves_neq in Hr.
    contradiction. }
  subst changes. destruct (run_round_false net net' Hr) as [-> _].
  auto.
Qed.

(** Claim C9: on the chain A - B - C - D (routers processed in this
    order), neither C nor D has a route to A before the first round.  In
    that round C, processed before D, learns A from B at cost 2, and D
    then learns A from C at cost 3 = 1 + 2: D has read the table C holds
    after C's own update.  In a round over tables frozen at its start D
    has no route to A after the round. *)
Theorem later_router_reads_updated_table :
  exists net net' net_frozen,
    Dict.keys net = ["A"; "B"; "C"; "D"] /\
    link net "D" "C" = Some (Int 1) /\
    route net "C" "A" = None /\
    route net "D" "A" = None /\
    run_round net = (Ok true, net') /\
    route net' "C" "A" = Some (Int 2, "B") /\
    route net' "D" "A" = Some (Int (1 + 2), "C") /\
    run_round_frozen net = (Ok true, net_frozen) /\
    route net_frozen "D" "A" = None.
Proof.
  exists chain_network. eexists. eexists.
  split; [reflexivity|].
  split; [reflexivity|].
  split; [reflexivity|].
  split; [reflexivity|].
  split; [vm_compute; reflexivity|].
  split; [reflexivity|].
  split; [reflexivity|].
  split; [vm_compute; reflexivity|].
  reflexivity.
Qed.

(** Claim C10: when [id] is already a router of the network,
    [add_router(id)] raises nothing and stores, at the same place of the
    [routers] dictionary, a fresh router named [id] whose neighbour map and
    routing table are empty (so its links and learned routes are gone);
    every other router is left as it was, so a neighbour map that named
    [id] still names it, with the same cost. *)
Theorem add_router_again_replaces :
  forall (net : Network) (id : string) (old : Router),
    Dict.get id net = Some old ->
    Dict.get id (add_router id net) = Some (mkRouter id [] []) /\
    Dict.keys (add_router id net) = Dict.keys net /\
    (forall v, link (add_router id net) id v = None) /\
    (forall d, route (add_router id net) id d = None) /\
    (forall other, other <> id ->
       Dict.get other (add_router id net) = Dict.get other net) /\
    (forall other c, other <> id ->
       link net other id = Some c ->
       link (add_router id net) other id = Some c).
Proof.
  intros net id old Hold. unfold add_router.
  repeat split.
  - now rewrite DictFacts.get_set_same.
  - eapply DictFacts.keys_set_present; eauto.
  - intros v. rewrite link_set, String.eqb_refl. reflexivity.
  - intros d. rewrite route_set, String.eqb_refl. reflexivity.
  - intros other Hne. now apply DictFacts.get_set_other.
  - intros other c Hne Hl. rewrite link_set.
    apply String.eqb_neq in Hne. now rewrite Hne.
Qed.

(** ** The theorems at concrete inputs *)

(** C3 on the example of [main]: router A relaxes from the first table
    of its neighbour B.  F improves from 3 to 2 via B; the candidate for
    B itself, [1 + 0.0], ties with the direct entry, which stays. *)
Lemma update_routing_table_strict_improvement_example :
  Dict.get "B" (neighbors (example_router "A")) = Some (Int 1) /\
  Dict.wf (routing_table (example_router "B")) /\
  sums_defined (Int 1) (routing_table (example_router "B")) /\
  exists self' changed,
    update_routing_table "B" (routing_table (example_router "B"))
      (example_router "A") = (Ok changed, self') /\
    Dict.get "F" (routing_table self') = Some (Int 2, "B") /\
    Dict.get "B" (routing_table self') = Some (Int 1, "B") /\
    changed = true.
Proof.
  split; [reflexivity|]. split; [exact example_table_wf|].
  split; [exact example_sums_defined|].
  destruct (proj1 (update_routing_table_strict_improvement
                     (example_router "A") "B" (Int 1)
                     (routing_table (example_router "B")) eq_refl
                     example_table_wf) example_sums_defined)
    as (self' & changed & Hupd & _ & _ & Hdest & _ & Hch).
  exists self', changed. split; [exact Hupd|].
  split; [|split].
  - apply (proj1 (Hdest "F" (Int 1) "F" (Int 2) eq_refl eq_refl)).
    right. exists (Int 3), "F". split; reflexivity.
  - apply (proj2 (Hdest "B" zero "B"
                    (Float (S754_finite false 4503599627370496 (-52)))
                    eq_refl eq_refl) (Int 1) "B" eq_refl).
    reflexivity.
  - apply (proj2 Hch). exists "F", (Int 1), "F", (Int 2).
    split; [reflexivity|]. split; [reflexivity|].
    right. exists (Int 3), "F". split; reflexivity.
Defined.

(** C4 on the example of [main]: router A keeps its self entry when it
    relaxes from the first table of B. *)
Lemma self_route_missing_at_creation_example :
  Dict.get "A" (routing_table (example_router "A")) = Some (zero, "A") /\
  exists self' changed,
    update_routing_table "B" (routing_table (example_router "B"))
      (example_router "A") = (Ok changed, self') /\
    Dict.get (name self') (routing_table self') = Some (zero, name self').
Proof.
  split; [reflexivity|].
  eexists. eexists. split; [vm_compute; reflexivity|].
  apply (proj1 (proj2 self_route_missing_at_creation)
           (example_router "A") _ "B" (Int 1)
           (routing_table (example_router "B")) (Ok true) eq_refl).
  - reflexivity.
  - intros dest dc via Hin. vm_compute in Hin.
    repeat (destruct Hin as [Hin|Hin];
            [injection Hin as _ Hdc _; subst dc; reflexivity|]).
    contradiction.
  - reflexivity.
  - vm_compute; reflexivity.
Defined.


(** C6 on two routers without links. *)
Lemma add_link_writes_in_sequence_example :
  exists net',
    add_link "A" "B" (Int 1) (with_routers ["A"; "B"]) = (Ok tt, net') /\
    link net' "A" "B" = Some (Int 1) /\ link net' "B" "A" = Some (Int 1).
Proof.
  destruct (proj1 (add_link_writes_in_sequence
                     (with_routers ["A"; "B"]) "A" "B" (Int 1))
              _ _ eq_refl eq_refl)
    as (net' & Hadd & Huv & Hvu & _).
  exists net'. auto.
Defined.

(** C7 on the example of [main]: A's cost to E is 5 after the first round
    and not greater after the third. *)
Lemma costs_non_increasing_across_rounds_example :
  (1 <= 3)%nat /\
  rounds 1 example_network = Some (example_after 1) /\
  rounds 3 example_network = Some (example_after 3) /\
  route (example_after 1) "A" "E" = Some (Int 5, "F") /\
  exists cost' hop',
    route (example_after 3) "A" "E" = Some (cost', hop') /\
    cost_le cost' (Int 5).
Proof.
  assert (H1 : rounds 1 example_network = Some (example_after 1))
    by (vm_compute; reflexivity).
  assert (H3 : rounds 3 example_network = Some (example_after 3))
    by (vm_compute; reflexivity).
  assert (Hr : route (example_after 1) "A" "E" = Some (Int 5, "F"))
    by (vm_compute; reflexivity).
  split; [lia|]. split; [exact H1|]. split; [exact H3|]. split; [exact Hr|].
  apply (costs_non_increasing_across_rounds example_network 1 3
           (example_after 1) (example_after 3)) with (hop := "F"); auto.
Defined.

(** C8 on the example of [main]: its fourth round is quiet. *)
Lemma quiet_round_is_fixed_point_example :
  run_round (example_after 3) = (Ok false, example_after 3) /\
  (false = false /\ example_after 3 = example_after 3 /\
   run_round (example_after 3) = (Ok false, example_after 3)).
Proof.
  assert (Hr : run_round (example_after 3) = (Ok false, example_after 3))
    by (vm_compute; reflexivity).
  split; [exact Hr|].
  exact (quiet_round_is_fixed_point (example_after 3) (example_after 3)
           false Hr (or_introl eq_refl)).
Defined.

(** C10 on the chain: [add_router("B")] after the links were made. *)
Lemma add_router_again_replaces_example :
  Dict.get "B" chain_network
    = Some (mkRouter "B" [("A", Int 1); ("C", Int 1)]
              [("A", (Int 1, "A")); ("B", (zero, "B"));
               ("C", (Int 1, "C"))]) /\
  Dict.get "B" (add_router "B" chain_network) = Some (mkRouter "B" [] []) /\
  link (add_router "B" chain_network) "A" "B" = Some (Int 1).
Proof.
  split; [reflexivity|].
  destruct (add_router_again_replaces chain_network "B" _ eq_refl)
    as (Hnew & _ & _ & _ & _ & Hother).
  split; [exact Hnew|].
  apply Hother; [discriminate|reflexivity].
Defined.

(** * Further properties of the code *)

(** ** Relaxation and [add_neighbor] on one router *)

(** After a relaxation that returned no item of the same table passes the
    test. *)
Lemma relaxed_not_better w nb nt rt rt' m res :
  Dict.wf nt -> sums_defined w nt ->
  relax_loop w nb nt (rt, m) = (res, rt') ->
  forall item, In item nt -> item_better rt' w item = false.
Proof.
  intros Hwf Hdef Hfold [dest [dc via]] Hin.
  destruct (relax_loop_spec w nb nt Hwf Hdef _ _ _ _ Hfold) as [_ Hget].
  unfold item_better. simpl.
  destruct (py_add w dc) as [cand|e] eqn:Hadd; auto.
  unfold betterb. rewrite Hget. unfold relaxed.
  rewrite (DictFacts.In_get _ _ _ _ Hwf Hin). simpl. rewrite Hadd.
  destruct (betterb rt dest cand) eqn:Hb.
  - apply py_lt_irrefl.
  - unfold betterb in Hb.
    destruct (Dict.get dest rt) as [[c h]|]; [exact Hb|discriminate].
Qed.

(** Property X1 ([update_routing_table], lines 51-76): the flag returned
    by a relaxation says exactly whether the router was modified: it is
    [False] if and only if the router after the call is the router before
    it. *)
Theorem update_routing_table_flag_exact :
  forall (nb : string) (nt : Dict.t entry) (self self' : Router)
         (modified : bool),
    update_routing_table nb nt self = (Ok modified, self') ->
    (modified = false <-> self' = self).
Proof.
  intros nb nt self self' modified Hupd. split.
  - intros ->. eapply update_routing_table_false; eauto.
  - intros ->. destruct modified; auto.
    apply update_routing_table_true in Hupd.
    destruct Hupd as (d & c' & h' & Hd & Hlt).
    rewrite Hd, py_lt_irrefl in Hlt. discriminate.
Qed.

(** Property X2 ([update_routing_table], lines 51-76): after a relaxation
    that returned, relaxing a second time from the same neighbour table
    changes nothing and reports no change. *)
Theorem update_routing_table_twice_quiet :
  forall (nb : string) (nt : Dict.t entry) (self self1 : Router)
         (modified : bool),
    Dict.wf nt ->
    update_routing_table nb nt self = (Ok modified, self1) ->
    update_routing_table nb nt self1 = (Ok false, self1).
Proof.
  intros nb nt self self1 modified Hwf Hupd.
  apply update_routing_table_inv in Hupd.
  destruct Hupd as [(_ & H & _)|(w & Hw & Hname & Hnbs & Hfold)];
    [discriminate|].
  pose proof (relax_loop_Ok_defined _ _ _ _ _ _ Hfold) as Hdef.
  pose proof (relaxed_not_better _ _ _ _ _ _ _ Hwf Hdef Hfold) as Hnot.
  destruct (relax_loop w nb nt (routing_table self1, false))
    as [res2 rt2] eqn:Hf2.
  destruct (relax_loop_spec w nb nt Hwf Hdef _ _ _ _ Hf2) as [Hres2 _].
  rewrite (existsb_false_intro _ _ Hnot) in Hres2. simpl in Hres2.
  subst res2.
  assert (Hupd2 : update_routing_table nb nt self1
                  = (Ok false,
                     mkRouter (name self1) (neighbors self1) rt2)).
  { unfold update_routing_table. now rewrite Hnbs, Hw, Hf2. }
  pose proof (update_routing_table_false _ _ _ _ Hupd2) as E.
  rewrite E in Hupd2. exact Hupd2.
Qed.

(** Property X3 ([add_neighbor], lines 28-40): [add_neighbor(n, c)] with
    [n] other than the router's own name records the link cost and
    replaces whatever route the router had to [n], a cheaper learned one
    included, by the direct route [(c, n)]; the self entry is
    [(0.0, self)] and every other neighbour and destination keeps what it
    had.  With [n] the router's own name the self entry [(0.0, self)] wins
    over the direct one. *)
Theorem add_neighbor_overwrites_route :
  forall (n : string) (c : num) (self : Router),
    Dict.get n (neighbors (add_neighbor n c self)) = Some c /\
    Dict.get n (routing_table (add_neighbor n c self))
      = Some (if String.eqb n (name self)
              then (zero, name self) else (c, n)) /\
    Dict.get (name self) (routing_table (add_neighbor n c self))
      = Some (zero, name self) /\
    (forall v, v <> n ->
       Dict.get v (neighbors (add_neighbor n c self))
         = Dict.get v (neighbors self)) /\
    (forall d, d <> n -> d <> name self ->
       Dict.get d (routing_table (add_neighbor n c self))
         = Dict.get d (routing_table self)).
Proof.
  intros n c self. unfold add_neighbor; simpl.
  split; [apply DictFacts.get_set_same|].
  split.
  { rewrite DictFacts.get_set.
    destruct (String.eqb n (name self)); auto.
    apply DictFacts.get_set_same. }
  split; [apply DictFacts.get_set_same|].
  split.
  - intros v Hv. now apply DictFacts.get_set_other.
  - intros d Hn Hs. now rewrite !DictFacts.get_set_other.
Qed.

(** ** Building the network *)

(** The routes between the two ends after an [add_link] that returns, when
    routers are stored under their names. *)
Lemma route_add_link u v c net net' :
  (forall k r, Dict.get k net = Some r -> name r = k) ->
  add_link u v c net = (Ok tt, net') -> u <> v ->
  route net' u v = Some (c, v) /\ route net' v u = Some (c, u).
Proof.
  intros Hname Hadd Hne. apply add_link_inv in Hadd.
  destruct Hadd as (ru & rv & Hu & Hv & ->).
  rewrite DictFacts.get_set in Hv.
  assert (E : String.eqb u v = false) by now apply String.eqb_neq.
  assert (E' : String.eqb v u = false)
    by (apply String.eqb_neq; congruence).
  rewrite E' in Hv.
  rewrite !route_set, String.eqb_refl, E.
  unfold add_neighbor; simpl.
  rewrite (Hname _ _ Hu), (Hname _ _ Hv).
  rewrite !DictFacts.get_set, E, E', !String.eqb_refl. auto.
Qed.

(** [add_link] keeps routers under their names. *)
Lemma add_link_names u v c net net' :
  (forall k r, Dict.get k net = Some r -> name r = k) ->
  add_link u v c net = (Ok tt, net') ->
  forall k r, Dict.get k net' = Some r -> name r = k.
Proof.
  intros Hn Hadd k r. apply add_link_inv in Hadd.
  destruct Hadd as (ru & rv & Hu & Hv & ->).
  rewrite !DictFacts.get_set. rewrite DictFacts.get_set in Hv.
  destruct (String.eqb_spec k v) as [->|Hkv].
  - intros H. inversion H; subst r. simpl.
    destruct (String.eqb_spec v u) as [->|Hvu].
    + inversion Hv; subst rv. simpl. eauto.
    + eauto.
  - destruct (String.eqb_spec k u) as [->|Hku]; [|apply Hn].
    intros H. inversion H; subst r. simpl. eauto.
Qed.

(** Both ends of an [add_link] that returned are routers afterwards. *)
Lemma add_link_ends_present u v c net net' :
  add_link u v c net = (Ok tt, net') ->
  (exists ru, Dict.get u net' = Some ru) /\
  (exists rv, Dict.get v net' = Some rv).
Proof.
  intros Hadd. apply add_link_inv in Hadd.
  destruct Hadd as (ru & rv & Hu & Hv & ->).
  rewrite !DictFacts.get_set.
  split.
  - destruct (String.eqb u v); eauto. rewrite String.eqb_refl. eauto.
  - rewrite String.eqb_refl. eauto.
Qed.

(** Property X4 ([add_link], lines 102-113, with [add_neighbor]): on a
    network built by [add_router] and [add_link] calls, an [add_link] call
    between two routers that are already linked returns, and the cost of
    the last call wins in both directions; no other link is touched, and
    the routes between the two ends are reset to the direct ones. *)
Theorem add_link_again_last_cost_wins :
  forall (net net1 : Network) (u v : string) (c1 c2 : num),
    built net ->
    add_link u v c1 net = (Ok tt, net1) ->
    exists net2,
      add_link u v c2 net1 = (Ok tt, net2) /\
      (forall x y,
         link net2 x y =
           if (String.eqb x u && String.eqb y v)
              || (String.eqb x v && String.eqb y u)
           then Some c2
           else link net x y) /\
      (u <> v ->
       route net2 u v = Some (c2, v) /\ route net2 v u = Some (c2, u)).
Proof.
  intros net net1 u v c1 c2 Hb Hadd1.
  pose proof (link_add_link _ _ _ _ _ Hadd1) as Hl1.
  pose proof (add_link_names _ _ _ _ _ (i_name _ (built_initial _ Hb)) Hadd1)
    as Hn1.
  destruct (add_link_ends_present _ _ _ _ _ Hadd1) as [[ru Hu] [rv Hv]].
  destruct (add_link_both_present net1 u v c2 ru rv Hu Hv)
    as (net2 & Hadd2 & _).
  exists net2. split; [exact Hadd2|].
  pose proof (link_add_link _ _ _ _ _ Hadd2) as Hl2.
  split.
  - intros x y. rewrite Hl2, Hl1.
    destruct ((String.eqb x u && String.eqb y v)
              || (String.eqb x v && String.eqb y u)); reflexivity.
  - intros Hne. eapply route_add_link; eauto.
Qed.

(** Property X5 ([add_router], lines 92-100): adding a router under a
    name that is not in use puts an empty router at the end of the
    processing order and leaves every other router as it was; when every
    neighbour named so far is a router, the symmetry of the links and this
    closedness are kept. *)
Theorem add_router_fresh_appends :
  forall (net : Network) (nm : string),
    Dict.get nm net = None ->
    Dict.keys (add_router nm net) = Dict.keys net ++ [nm] /\
    Dict.get nm (add_router nm net) = Some (mkRouter nm [] []) /\
    (forall other, other <> nm ->
       Dict.get other (add_router nm net) = Dict.get other net) /\
    (closed net -> closed (add_router nm net)) /\
    (closed net -> symmetric net -> symmetric (add_router nm net)).
Proof.
  intros net nm Hfresh. unfold add_router.
  split.
  { rewrite DictFacts.keys_set. unfold Dict.mem. now rewrite Hfresh. }
  split; [apply DictFacts.get_set_same|].
  split; [intros other Hne; now apply DictFacts.get_set_other|].
  split.
  - intros Hc u v w. rewrite link_set.
    destruct (String.eqb_spec u nm) as [->|Hne]; [discriminate|].
    intros H. destruct (Hc _ _ _ H) as [r Hr].
    rewrite DictFacts.get_set. destruct (String.eqb v nm); eauto.
  - intros Hc Hsym u v ru rv. rewrite !DictFacts.get_set.
    assert (Hnone : forall k r, Dict.get k net = Some r ->
              Dict.get nm (neighbors r) = None).
    { intros k r Hk. destruct (Dict.get nm (neighbors r)) as [w|] eqn:E; auto.
      assert (Hl : link net k nm = Some w) by (unfold link; now rewrite Hk).
      destruct (Hc _ _ _ Hl) as [r' Hr']. congruence. }
    destruct (String.eqb_spec u nm) as [->|Hu];
      destruct (String.eqb_spec v nm) as [->|Hv]; intros H1 H2.
    + inversion H1; inversion H2; reflexivity.
    + inversion H1; subst ru. simpl. symmetry. eauto.
    + inversion H2; subst rv. simpl. eauto.
    + eauto.
Qed.

(** ** When a round raises *)

(** Property X6 (round loop of [simulate], lines 168-176): a round that
    runs to its end has found every neighbour named by a router among the
    routers; when some neighbour is not a router the round raises; and when
    every neighbour is a router the only exception a round can raise is the
    [OverflowError] of a sum. *)
Theorem run_round_returns_iff_closed :
  forall net : Network,
    (forall changes net', run_round net = (Ok changes, net') -> closed net) /\
    (~ closed net -> exists e net', run_round net = (Raise e, net')) /\
    (closed net ->
     forall e net', run_round net = (Raise e, net') -> e = OverflowError).
Proof.
  intros net. split; [|split].
  - intros ch net' Hr. eapply run_round_Ok_closed; eauto.
  - intros Hnc. destruct (run_round net) as [[ch|e] net'] eqn:Hr; eauto.
    exfalso. apply Hnc. eapply run_round_Ok_closed; eauto.
  - intros Hc e net' Hr. eapply run_round_closed_Raise; eauto.
Qed.

(** Property X7 (round loop of [simulate], line 173): when a round raises
    [KeyError], its key is a name that some router lists as a neighbour
    and that is not a router of the network. *)
Theorem run_round_raises_dangling_neighbor :
  forall (net net' : Network) (k : string),
    run_round net = (Raise (KeyError k), net') ->
    Dict.get k net = None /\ exists u w, link net u k = Some w.
Proof.
  intros net net' k Hr. apply run_round_Raise in Hr.
  destruct Hr as [He|(k0 & He & Hnone & Hl)]; [discriminate|].
  injection He as ->. auto.
Qed.

(** ** [simulate] as a whole *)


(** Property X9 ([simulate], lines 155-176): the exceptions of [simulate].
    It raises [NetworkXError] exactly when the drawing does, before any
    round.  When it raises [KeyError], every router has a position, the
    cap is at least 1, and the key is a name that some router lists as a
    neighbour and that is not a router.  And when every router has a
    position, the cap is at least 1 and some neighbour is not a router, it
    raises in its first round. *)
Theorem simulate_raises_iff_dangling :
  forall (max_iterations : Z) (net : Network),
    (forall node net' out,
        simulate max_iterations net = (Raise (NetworkXError node), net', out)
        <->
        (visualize_network net = (Raise (NetworkXError node), net) /\
         net' = net /\ out = [PrintStart])) /\
    (forall k net' out,
        simulate max_iterations net = (Raise (KeyError k), net', out) ->
        drawable net /\ 0 < max_iterations /\
        Dict.get k net = None /\ exists u w, link net u k = Some w) /\
    (drawable net -> 0 < max_iterations -> ~ closed net ->
     exists e net',
       simulate max_iterations net
         = (Raise e, net', [PrintStart; PrintIteration 1])).
Proof.
  intros max_iterations net. split; [|split].
  - intros node net' out. split.
    + intros Hsim.
      destruct (visualize_network_cases net) as [Hv|(node0 & Hv & _)].
      * exfalso.
        rewrite (simulate_drawable _ _ (proj1 (visualize_network_Ok net) Hv))
          in Hsim.
        destruct (simulate_loop (Z.to_nat max_iterations) 0 [PrintStart] net)
          as [[[ex|e] net1] out1] eqn:Hloop; [discriminate|].
        inversion Hsim; subst.
        apply simulate_loop_spec in Hloop.
        destruct Hloop as (tail & n & _ & _ & _ & _ & _ & _ & net_n & _ & Hr).
        apply run_round_Raise in Hr.
        destruct Hr as [Hr|(k & Hr & _)]; discriminate.
      * unfold simulate in Hsim. rewrite Hv in Hsim.
        inversion Hsim; subst. auto.
    + intros (Hv & -> & ->). unfold simulate. now rewrite Hv.
  - intros k net' out Hsim.
    destruct (visualize_network_cases net) as [Hv|(node0 & Hv & _)].
    2:{ unfold simulate in Hsim. rewrite Hv in Hsim. discriminate. }
    pose proof (proj1 (visualize_network_Ok net) Hv) as Hd.
    rewrite (simulate_drawable _ _ Hd) in Hsim.
    destruct (simulate_loop (Z.to_nat max_iterations) 0 [PrintStart] net)
      as [[[ex|e] net1] out1] eqn:Hloop; [discriminate|].
    inversion Hsim; subst.
    apply simulate_loop_spec in Hloop.
    destruct Hloop
      as (tail & n & _ & _ & _ & Hlt & _ & _ & net_n & Hrounds & Hr).
    split; [exact Hd|]. split; [lia|].
    apply run_round_Raise in Hr.
    destruct Hr as [Hr|(k0 & He & Hnone & u & w & Hl)]; [discriminate|].
    injection He as ->.
    pose proof (rounds_topo _ _ _ Hrounds) as Ht.
    split.
    + apply mem_false_get. rewrite <- (topo_mem _ _ k0 Ht).
      now apply mem_false_get.
    + exists u, w. now rewrite <- (topo_link _ _ u k0 Ht).
  - intros Hd Hpos Hnc. destruct (to_nat_pos _ Hpos) as [b Hb].
    rewrite (simulate_drawable _ _ Hd), Hb. cbn [simulate_loop].
    destruct (run_round net) as [[ch|e] net1] eqn:Hr.
    + exfalso. apply Hnc. eapply run_round_Ok_closed; eauto.
    + simpl. eauto.
Qed.

(** Property X10 ([simulate], lines 145-189, with [update_routing_table]):
    whatever its outcome, [simulate] leaves the topology alone: the same
    routers under the same keys in the same order, each with the name and
    the neighbour map (neighbours, costs and their order) it had. *)
Theorem simulate_keeps_topology :
  forall (max_iterations : Z) (net net' : Network)
         (res : result unit) (out : list output),
    simulate max_iterations net = (res, net', out) ->
    topo net' = topo net /\
    Dict.keys net' = Dict.keys net /\
    (forall u v, link net' u v = link net u v).
Proof.
  intros max_iterations net net' res out H.
  assert (Ht : topo net' = topo net).
  { apply (simulate_rel same_topo same_topo_refl same_topo_trans) in H; auto.
    intros. eapply relax_pair_topo; eauto. }
  split; [exact Ht|]. split.
  - now apply topo_keys.
  - intros u v. now apply topo_link.
Qed.

(** Property X11 ([simulate], lines 145-189): whatever its outcome, also
    when a round raises half way, [simulate] removes no routing entry and
    raises no recorded cost. *)
Theorem simulate_only_improves :
  forall (max_iterations : Z) (net net' : Network)
         (res : result unit) (out : list output),
    simulate max_iterations net = (res, net', out) ->
    forall router dest cost hop,
      route net router dest = Some (cost, hop) ->
      exists cost' hop',
        route net' router dest = Some (cost', hop') /\ cost_le cost' cost.
Proof.
  intros max_iterations net net' res out H.
  apply (simulate_rel improves_on improves_on_refl improves_on_trans) in H;
    auto.
  intros. eapply relax_pair_improves; eauto.
Qed.

(** Property X12 ([simulate], lines 145-189): calling [simulate] again on
    the network that a run of [simulate] left converged runs one round,
    changes nothing, and prints the tables once and the convergence
    message. *)
Theorem simulate_again_after_convergence :
  forall (max_iterations0 max_iterations : Z) (net0 net : Network)
         (out : list output),
    simulate max_iterations0 net0 = (Ok tt, net, out) ->
    In PrintConverged out ->
    0 < max_iterations ->
    simulate max_iterations net
      = (Ok tt, net,
         [PrintStart; PrintIteration 1]
           ++ map display_routing_table (Dict.values net)
           ++ [PrintConverged]).
Proof.
  intros max0 max_iterations net0 net out Hsim Hin Hpos.
  destruct (simulate_converged_inv _ _ _ _ Hsim Hin)
    as (Hd & ex & Hloop & Hc).
  pose proof (simulate_loop_converged _ _ _ _ _ _ _ Hloop Hc) as Hq.
  pose proof (topo_drawable _ _ (simulate_loop_topo _ _ _ _ _ _ _ Hloop) Hd)
    as Hd'.
  destruct (to_nat_pos _ Hpos) as [b Hb].
  rewrite (simulate_drawable _ _ Hd'), Hb. cbn [simulate_loop]. rewrite Hq.
  cbn [converged]. now rewrite <- !app_assoc.
Qed.

(** ** Tables of a network that was built and then run *)

(** Property X13 ([update_routing_table] lines 66-73, [add_neighbor] lines
    36-40): on a network built with non-negative costs and run for any
    number of rounds, the next hop of every routing entry is a neighbour of
    the router, unless the entry is the router's own [(0.0, self)].  When
    the link costs are non-negative ints converted to floats without
    rounding, the link to the next hop of an entry for another router costs
    no more than the entry. *)
Theorem next_hop_is_a_neighbor :
  forall (net0 net : Network) (n : nat) (u d h : string) (c : num),
    built net0 ->
    rounds n net0 = Some net ->
    route net u d = Some (c, h) ->
    ((d = u /\ c = zero /\ h = u) \/
     (exists w, link net u h = Some w /\ nonneg w)) /\
    (exact_links net0 -> d <> u ->
     exists w, link net u h = Some w /\ cost_le w c).
Proof.
  intros net0 net n u d h c Hb Hr Hroute. split.
  - pose proof (built_rounds_consistent _ _ _ Hb Hr) as Hc.
    destruct (c_entry _ Hc _ _ _ _ Hroute) as (_ & _ & [H|[w Hl]]); auto.
    right. exists w. split; auto. exact (c_nonneg _ Hc _ _ _ Hl).
  - intros Hx Hne.
    pose proof (rounds_sound _ _ _ (built_sound _ Hb Hx) Hr) as [_ Hxn].
    destruct (x_entry _ Hxn _ _ _ _ Hroute)
      as [(Hd & _)|(z & p & -> & Hp & [_ Hcost] & Hh)]; [contradiction|].
    destruct p as [|v q]; [contradiction|]. simpl in Hh. subst v.
    cbn [walk_cost] in Hcost.
    destruct (link_cost net u h) as [w|] eqn:Hl; [|discriminate].
    destruct (walk_cost net h q) as [c1|] eqn:Hw; [|discriminate].
    inversion Hcost; subst z.
    pose proof (walk_cost_nonneg _ (x_links _ Hxn) _ _ _ Hw) as Hc1.
    exists (Int w). split; [now apply link_cost_link|].
    right. rewrite py_le_Int. apply Z.leb_le. lia.
Qed.

(** Property X14 ([update_routing_table] lines 66-73): on a network built
    with link costs that are non-negative ints converted to floats without
    rounding, and run for any number of rounds, every recorded cost equals
    the cost of a walk along links that starts with the recorded next hop;
    so a table never holds a cost below the least cost of a walk. *)
Theorem recorded_cost_is_a_walk_cost :
  forall (net0 net : Network) (n : nat) (u d h : string) (c : num),
    built net0 -> exact_links net0 ->
    rounds n net0 = Some net ->
    route net u d = Some (c, h) ->
    exists z,
      cost_is c z /\
      (exists p, walk net u p d z /\ hd u p = h) /\
      (forall s, shortest_cost net u d s -> s <= z).
Proof.
  intros net0 net n u d h c Hb Hx Hr Hroute.
  pose proof (rounds_sound _ _ _ (built_sound _ Hb Hx) Hr) as [Hc Hxn].
  destruct (exact_walk _ _ _ _ _ Hxn Hroute) as (p & Hw & Hh).
  exists (int_of c). split; [|split].
  - apply cost_is_int_of. eapply exact_good; eauto.
  - eauto.
  - intros s [_ Hmin]. eapply Hmin; eauto.
Qed.

(** Property X15 ([update_routing_table] lines 66-73): on a network built
    with non-negative costs and run for any number of rounds, every
    destination in a routing table is a router of the network, and it
    heads a table of its own. *)
Theorem destinations_are_routers :
  forall (net0 net : Network) (n : nat) (u d h : string) (c : num),
    built net0 ->
    rounds n net0 = Some net ->
    route net u d = Some (c, h) ->
    exists r, Dict.get d net = Some r /\ name r = d.
Proof.
  intros net0 net n u d h c Hb Hr Hroute.
  pose proof (built_rounds_consistent _ _ _ Hb Hr) as Hc.
  destruct (c_entry _ Hc _ _ _ _ Hroute) as (_ & [r Hd] & _).
  exists r. split; auto. eapply c_name; eauto.
Qed.


(** ** The rows that are printed *)


(** ** Convergence and shortest paths with exact costs *)

(** Property X18 ([simulate], lines 145-189, with [update_routing_table]):
    on a network of routers among A to F, built by [add_router] and
    [add_link] calls with link costs that are non-negative ints converted
    to floats without rounding, [simulate] raises nothing and converges
    whenever its cap is at least 1 and at least the number of routers
    minus 1; it does so within [max(1, routers - 1)] rounds, the quiet
    round that detects convergence included. *)
Theorem simulate_converges_within_router_count :
  forall (net0 : Network) (max_iterations : Z),
    built net0 -> exact_links net0 -> drawable net0 ->
    1 <= max_iterations ->
    Z.of_nat (List.length net0) - 1 <= max_iterations ->
    exists ex net out,
      simulate_loop (Z.to_nat max_iterations) 0 [PrintStart] net0
        = (Ok ex, net, out) /\
      converged ex = true /\
      1 <= iteration ex <= Z.max 1 (Z.of_nat (List.length net0) - 1) /\
      simulate max_iterations net0 = (Ok tt, net, out) /\
      In PrintConverged out.
Proof.
  intros net0 max_iterations Hb Hx Hd Hone Hcap.
  destruct (simulate_loop_converges net0 (Z.to_nat max_iterations) 0
              [PrintStart] (built_sound _ Hb Hx))
    as (ex & net & out & Hloop & Hconv & Hiter & Hin); [lia|lia|].
  exists ex, net, out. split; [exact Hloop|]. split; [exact Hconv|].
  split; [lia|]. split; [|exact Hin].
  rewrite (simulate_drawable _ _ Hd), Hloop, Hconv. reflexivity.
Qed.

(** Property X19 ([simulate] lines 145-189, [update_routing_table] lines
    51-76): when [simulate] converges on a network built with link costs
    that are non-negative ints converted to floats without rounding, every
    entry of every routing table equals the least cost of a walk from the
    router to the destination and holds a next hop that starts a walk of
    that cost; and every router with a neighbour has an entry for every
    destination it can reach. *)
Theorem converged_entries_are_shortest :
  forall (net0 net : Network) (max_iterations : Z) (out : list output),
    built net0 -> exact_links net0 ->
    simulate max_iterations net0 = (Ok tt, net, out) ->
    In PrintConverged out ->
    (forall u d c h,
        route net u d = Some (c, h) ->
        exists z,
          cost_is c z /\ shortest_cost net u d z /\ shortest_hop net u d h) /\
    (forall u r d,
        Dict.get u net = Some r -> neighbors r <> [] ->
        reachable net u d ->
        exists c h, route net u d = Some (c, h)).
Proof.
  intros net0 net max_iterations out Hb Hx Hsim Hin. split.
  - intros u d c h Hroute.
    destruct (converged_entry_shortest _ _ _ _ _ _ _ _ Hb Hx Hsim Hin Hroute)
      as (_ & Hc & Hs & Hh).
    exists (int_of c). auto.
  - destruct (simulate_converged_inv _ _ _ _ Hsim Hin)
      as (_ & ex & Hloop & Hconv).
    pose proof (simulate_loop_converged _ _ _ _ _ _ _ Hloop Hconv) as Hquiet.
    pose proof (simulate_loop_sound _ _ _ _ _ _ _ (built_sound _ Hb Hx) Hloop)
      as Hs.
    destruct (run_round_false _ _ Hquiet) as [_ Hq].
    now apply quiet_routes_reachable.
Qed.

(** Property X20 ([simulate] lines 161-176, [add_router], [add_link]): with
    link costs that are non-negative ints converted to floats without
    rounding, the converged costs do not depend on the order in which
    routers and links were added, that is on the order in which the rounds
    process them: two converged runs on networks built with the same links
    record the same cost wherever both record one. *)
Theorem converged_costs_independent_of_order :
  forall (net0 net0' net net' : Network) (max_iterations max_iterations' : Z)
         (out out' : list output)
         (u d h h' : string) (c c' : num),
    built net0 -> built net0' -> exact_links net0 ->
    (forall x y, link net0' x y = link net0 x y) ->
    simulate max_iterations net0 = (Ok tt, net, out) ->
    simulate max_iterations' net0' = (Ok tt, net', out') ->
    In PrintConverged out -> In PrintConverged out' ->
    route net u d = Some (c, h) ->
    route net' u d = Some (c', h') ->
    c = c'.
Proof.
  intros net0 net0' net net' max_iterations max_iterations' out out'
    u d h h' c c' Hb Hb' Hx Hlinks Hsim Hsim' Hin Hin' Hroute Hroute'.
  assert (Hx' : exact_links net0').
  { intros x y w Hl. rewrite Hlinks in Hl. exact (Hx _ _ _ Hl). }
  destruct (converged_entry_shortest _ _ _ _ _ _ _ _ Hb Hx Hsim Hin Hroute)
    as (Ht & _ & [[p Hp] Hmin] & _).
  destruct (converged_entry_shortest _ _ _ _ _ _ _ _ Hb' Hx' Hsim' Hin'
              Hroute') as (Ht' & _ & [[p' Hp'] Hmin'] & _).
  assert (Hl : forall x y, link net' x y = link net x y).
  { intros x y.
    now rewrite (topo_link _ _ x y Ht'), (topo_link _ _ x y Ht), Hlinks. }
  assert (Hw : forall q x, walk_cost net' x q = walk_cost net x q)
    by (apply link_walk_cost; exact Hl).
  assert (H1 : int_of c <= int_of c').
  { apply (Hmin p'). destruct Hp' as [Hlast Hcost].
    split; auto. now rewrite <- Hw. }
  assert (H2 : int_of c' <= int_of c).
  { apply (Hmin' p). destruct Hp as [Hlast Hcost].
    split; auto. now rewrite Hw. }
  destruct (simulate_converged_inv _ _ _ _ Hsim Hin) as (_ & ex & Hloop & _).
  destruct (simulate_converged_inv _ _ _ _ Hsim' Hin')
    as (_ & ex' & Hloop' & _).
  pose proof (simulate_loop_sound _ _ _ _ _ _ _ (built_sound _ Hb Hx) Hloop)
    as [Hc Hxn].
  pose proof (simulate_loop_sound _ _ _ _ _ _ _ (built_sound _ Hb' Hx')
                Hloop') as [Hc' Hxn'].
  destruct (x_entry _ Hxn _ _ _ _ Hroute)
    as [(-> & -> & _)|(z & q & -> & _)];
    destruct (x_entry _ Hxn' _ _ _ _ Hroute')
      as [(Hd' & -> & _)|(z' & q' & -> & _)]; auto.
  - destruct (consistent_self_entry _ _ _ _ Hc' Hroute'). discriminate.
  - subst d. destruct (consistent_self_entry _ _ _ _ Hc Hroute). discriminate.
  - simpl in H1, H2. f_equal. lia.
Qed.

(** ** The further properties at concrete inputs *)

(** X1 on the example of [main]: A relaxes from the first table of B and
    is modified. *)
Lemma update_routing_table_flag_exact_example :
  exists self',
    update_routing_table "B" (routing_table (example_router "B"))
      (example_router "A") = (Ok true, self') /\
    (true = false <-> self' = example_router "A").
Proof.
  eexists. split; [vm_compute; reflexivity|].
  apply (update_routing_table_flag_exact "B"
           (routing_table (example_router "B")) (example_router "A")).
  vm_compute; reflexivity.
Defined.

(** X2 on the example of [main]: A relaxes twice from the first table of
    B. *)
Lemma update_routing_table_twice_quiet_example :
  Dict.wf (routing_table (example_router "B")) /\
  exists self1,
    update_routing_table "B" (routing_table (example_router "B"))
      (example_router "A") = (Ok true, self1) /\
    update_routing_table "B" (routing_table (example_router "B")) self1
      = (Ok false, self1).
Proof.
  split; [exact example_table_wf|].
  eexists. split; [vm_compute; reflexivity|].
  apply (update_routing_table_twice_quiet "B"
           (routing_table (example_router "B")) (example_router "A") _ true
           example_table_wf).
  vm_compute; reflexivity.
Defined.

(** X4 on two routers: the link A - B is made with cost 5, then with
    cost 2. *)
Lemma add_link_again_last_cost_wins_example :
  built pair_network /\
  exists net1 net2,
    add_link "A" "B" (Int 5) pair_network = (Ok tt, net1) /\
    add_link "A" "B" (Int 2) net1 = (Ok tt, net2) /\
    link net2 "A" "B" = Some (Int 2) /\ link net2 "B" "A" = Some (Int 2) /\
    route net2 "A" "B" = Some (Int 2, "B").
Proof.
  split; [exact built_pair|].
  destruct (add_link_again_last_cost_wins pair_network
              (snd (add_link "A" "B" (Int 5) pair_network)) "A" "B"
              (Int 5) (Int 2) built_pair eq_refl)
    as (net2 & Hadd & Hlink & Hroute).
  exists (snd (add_link "A" "B" (Int 5) pair_network)), net2.
  split; [reflexivity|]. split; [exact Hadd|].
  split; [rewrite Hlink; reflexivity|].
  split; [rewrite Hlink; reflexivity|].
  apply Hroute. discriminate.
Defined.

(** X5 on the chain: a fifth router E is added. *)
Lemma add_router_fresh_appends_example :
  Dict.get "E" chain_network = None /\
  Dict.keys (add_router "E" chain_network) = ["A"; "B"; "C"; "D"; "E"] /\
  Dict.get "E" (add_router "E" chain_network) = Some (mkRouter "E" [] []).
Proof.
  split; [reflexivity|].
  destruct (add_router_fresh_appends chain_network "E" eq_refl)
    as (Hkeys & Hnew & _).
  split; [rewrite Hkeys; reflexivity|exact Hnew].
Defined.

(** X6 on the example of [main], whose first round returns, and on the
    network where A names the missing router B, whose round raises. *)
Lemma run_round_returns_iff_closed_example :
  run_round example_network = (Ok true, example_after 1) /\
  closed example_network /\
  ~ closed dangling_network /\
  exists e net', run_round dangling_network = (Raise e, net').
Proof.
  assert (Hr : run_round example_network = (Ok true, example_after 1))
    by (vm_compute; reflexivity).
  assert (Hnc : ~ closed dangling_network).
  { intros Hc. destruct (Hc "A" "B" (Int 1) eq_refl) as [r Hr']. discriminate. }
  split; [exact Hr|]. split; [|split; [exact Hnc|]].
  - exact (proj1 (run_round_returns_iff_closed example_network) _ _ Hr).
  - exact (proj1 (proj2 (run_round_returns_iff_closed dangling_network)) Hnc).
Defined.

(** X7 on the network where A names the missing router B. *)
Lemma run_round_raises_dangling_neighbor_example :
  run_round dangling_network = (Raise (KeyError "B"), dangling_network) /\
  Dict.get "B" dangling_network = None /\
  exists u w, link dangling_network u "B" = Some w.
Proof.
  assert (Hr : run_round dangling_network
               = (Raise (KeyError "B"), dangling_network))
    by (vm_compute; reflexivity).
  split; [exact Hr|].
  exact (run_round_raises_dangling_neighbor dangling_network
           dangling_network "B" Hr).
Defined.


(** X9 on the network where A names the missing router B, and on the
    routers A and G. *)
Lemma simulate_raises_iff_dangling_example :
  drawable dangling_network /\ 0 < 100 /\ ~ closed dangling_network /\
  (exists e net',
      simulate 100 dangling_network
        = (Raise e, net', [PrintStart; PrintIteration 1])) /\
  simulate 100 undrawable_network
    = (Raise (NetworkXError "G"), undrawable_network, [PrintStart]).
Proof.
  assert (Hd : drawable dangling_network)
    by (apply drawableb_sound; vm_compute; reflexivity).
  assert (Hnc : ~ closed dangling_network).
  { intros Hc. destruct (Hc "A" "B" (Int 1) eq_refl) as [r Hr]. discriminate. }
  split; [exact Hd|]. split; [lia|]. split; [exact Hnc|]. split.
  - apply (proj2 (proj2 (simulate_raises_iff_dangling 100 dangling_network)));
      [exact Hd|lia|exact Hnc].
  - apply (proj1 (simulate_raises_iff_dangling 100 undrawable_network)).
    split; [reflexivity|]. split; reflexivity.
Defined.

(** X10 on the example of [main]. *)
Lemma simulate_keeps_topology_example :
  simulate 100 example_network
    = (Ok tt, example_after 3, snd (simulate 100 example_network)) /\
  topo (example_after 3) = topo example_network /\
  Dict.keys (example_after 3) = Dict.keys example_network /\
  (forall u v, link (example_after 3) u v = link example_network u v).
Proof.
  split; [exact example_simulate|].
  exact (simulate_keeps_topology 100 example_network (example_after 3)
           (Ok tt) _ example_simulate).
Defined.

(** X11 on the example of [main]: the direct route of A to F. *)
Lemma simulate_only_improves_example :
  route example_network "A" "F" = Some (Int 3, "F") /\
  exists cost' hop',
    route (example_after 3) "A" "F" = Some (cost', hop') /\
    cost_le cost' (Int 3).
Proof.
  split; [reflexivity|].
  exact (simulate_only_improves 100 example_network (example_after 3)
           (Ok tt) _ example_simulate "A" "F" (Int 3) "F" eq_refl).
Defined.

(** X12 on the example of [main]: a second run after the first. *)
Lemma simulate_again_after_convergence_example :
  0 < 100 /\
  simulate 100 (example_after 3)
    = (Ok tt, example_after 3,
       [PrintStart; PrintIteration 1]
         ++ map display_routing_table (Dict.values (example_after 3))
         ++ [PrintConverged]).
Proof.
  split; [lia|].
  apply (simulate_again_after_convergence 100 100 example_network
           (example_after 3) _ example_simulate example_converged).
  lia.
Defined.

(** X13 on the example of [main]: the route of A to D. *)
Lemma next_hop_is_a_neighbor_example :
  route (example_after 3) "A" "D" = Some (Int 5, "B") /\
  (("D" = "A" /\ Int 5 = zero /\ "B" = "A") \/
   (exists w, link (example_after 3) "A" "B" = Some w /\ nonneg w)) /\
  (exists w, link (example_after 3) "A" "B" = Some w /\ cost_le w (Int 5)).
Proof.
  assert (Hr : route (example_after 3) "A" "D" = Some (Int 5, "B"))
    by (vm_compute; reflexivity).
  split; [exact Hr|].
  destruct (next_hop_is_a_neighbor example_network (example_after 3) 3
              "A" "D" "B" (Int 5) built_example example_rounds Hr)
    as [Hhop Hcost].
  split; [exact Hhop|].
  apply (Hcost example_exact). discriminate.
Defined.

(** X14 on the example of [main]: the route of A to D. *)
Lemma recorded_cost_is_a_walk_cost_example :
  route (example_after 3) "A" "D" = Some (Int 5, "B") /\
  exists z,
    cost_is (Int 5) z /\
    (exists p, walk (example_after 3) "A" p "D" z /\ hd "A" p = "B") /\
    (forall s, shortest_cost (example_after 3) "A" "D" s -> s <= z).
Proof.
  assert (Hr : route (example_after 3) "A" "D" = Some (Int 5, "B"))
    by (vm_compute; reflexivity).
  split; [exact Hr|].
  exact (recorded_cost_is_a_walk_cost example_network (example_after 3) 3
           "A" "D" "B" (Int 5) built_example example_exact example_rounds Hr).
Defined.

(** X15 on the example of [main]: the destination D of A. *)
Lemma destinations_are_routers_example :
  route (example_after 3) "A" "D" = Some (Int 5, "B") /\
  exists r, Dict.get "D" (example_after 3) = Some r /\ name r = "D".
Proof.
  assert (Hr : route (example_after 3) "A" "D" = Some (Int 5, "B"))
    by (vm_compute; reflexivity).
  split; [exact Hr|].
  exact (destinations_are_routers example_network (example_after 3) 3
           "A" "D" "B" (Int 5) built_example example_rounds Hr).
Defined.


(** X18 on the example of [main]: six routers, cap 100. *)
Lemma simulate_converges_within_router_count_example :
  built example_network /\ exact_links example_network /\
  drawable example_network /\ 1 <= 100 /\
  Z.of_nat (List.length example_network) - 1 <= 100 /\
  exists ex net out,
    simulate_loop (Z.to_nat 100) 0 [PrintStart] example_network
      = (Ok ex, net, out) /\
    converged ex = true /\
    1 <= iteration ex <= 5 /\
    simulate 100 example_network = (Ok tt, net, out) /\
    In PrintConverged out.
Proof.
  split; [exact built_example|]. split; [exact example_exact|].
  split; [exact example_drawable|]. split; [lia|].
  split; [vm_compute; discriminate|].
  destruct (simulate_converges_within_router_count example_network 100
              built_example example_exact example_drawable)
    as (ex & net & out & Hloop & Hconv & Hiter & Hsim & Hin).
  - lia.
  - vm_compute; discriminate.
  - exists ex, net, out. split; [exact Hloop|]. split; [exact Hconv|].
    split; [exact Hiter|]. split; [exact Hsim|exact Hin].
Defined.

(** X19 on the example of [main]: the entry of A for D. *)
Lemma converged_entries_are_shortest_example :
  route (example_after 3) "A" "D" = Some (Int 5, "B") /\
  exists z,
    cost_is (Int 5) z /\
    shortest_cost (example_after 3) "A" "D" z /\
    shortest_hop (example_after 3) "A" "D" "B".
Proof.
  assert (Hr : route (example_after 3) "A" "D" = Some (Int 5, "B"))
    by (vm_compute; reflexivity).
  split; [exact Hr|].
  exact (proj1 (converged_entries_are_shortest example_network
                  (example_after 3) 100 _ built_example example_exact
                  example_simulate example_converged)
           "A" "D" (Int 5) "B" Hr).
Defined.

(** X20 on the example of [main], built in its order and in the reverse
    order: both runs converge and give A the cost 5 to D. *)
Lemma converged_costs_independent_of_order_example :
  same_linksb example_network example_network_reversed = true /\
  exists net',
    simulate 100 example_network_reversed
      = (Ok tt, net', snd (simulate 100 example_network_reversed)) /\
    In PrintConverged (snd (simulate 100 example_network_reversed)) /\
    route (example_after 3) "A" "D" = Some (Int 5, "B") /\
    route net' "A" "D" = Some (Int 5, "B") /\
    Int 5 = Int 5.
Proof.
  assert (Hs : same_linksb example_network example_network_reversed = true)
    by (vm_compute; reflexivity).
  assert (Hsim : simulate 100 example_network_reversed
                 = (Ok tt, snd (fst (simulate 100 example_network_reversed)),
                    snd (simulate 100 example_network_reversed)))
    by (vm_compute; reflexivity).
  assert (Hin : In PrintConverged (snd (simulate 100 example_network_reversed)))
    by (vm_compute; tauto).
  assert (Hr : route (example_after 3) "A" "D" = Some (Int 5, "B"))
    by (vm_compute; reflexivity).
  assert (Hr' : route (snd (fst (simulate 100 example_network_reversed)))
                  "A" "D" = Some (Int 5, "B"))
    by (vm_compute; reflexivity).
  split; [exact Hs|].
  exists (snd (fst (simulate 100 example_network_reversed))).
  split; [exact Hsim|]. split; [exact Hin|].
  split; [exact Hr|]. split; [exact Hr'|].
  exact (converged_costs_independent_of_order
           example_network example_network_reversed (example_after 3) _
           100 100 _ _ "A" "D" "B" "B" (Int 5) (Int 5)
           built_example built_example_reversed example_exact
           (same_linksb_sound _ _ Hs) example_simulate Hsim
           example_converged Hin Hr Hr').
Defined.
